(** * card-RL: the game environment of [main.py], embedded and verified

    [main.py] drives a shedding card game: [GameEnv.reset] deals the deck,
    [GameEnv.play_game] lets the players move in rotation and records one
    history entry per turn, [NaivePlayer.move] and [UserPlayer.move] are the
    two player policies.

    Hands are NumPy arrays that the program shares and updates in place, so
    the embedding keeps an object store: an array lives at a location and
    [self.hand -= choice] writes to that location.  Python's global random
    generator and standard input are threaded through as explicit state.

    The modules [utils] and [consts] that [main.py] imports are taken as
    parameters ([Utils], [Consts]); the move-selection engine of the
    specification is given separately as [find_smallest_valid_choice].

    Of [old/train.py] the file embeds the replay buffer, the one class of
    that script that stands on its own. *)

From Stdlib Require Import ZArith QArith Lia.
From stdpp Require Import base tactics option list numbers strings pretty gmap.

Open Scope Z_scope.

(** ** Outcomes of Python code *)

(** The exceptions the modelled code can raise. *)
Inductive exn :=
  | EOFError | UnboundLocalError | AttributeError
  | KeyError | IndexError | ValueError.

(** A call returns a value, raises, or is still running when the fuel given
    to one of its [while] loops is used up. *)
Inductive outcome (A : Type) :=
  | Ret (a : A)
  | Raise (e : exn)
  | Timeout.
Arguments Ret {A} a.
Arguments Raise {A} e.
Arguments Timeout {A}.

#[global] Instance outcome_ret : MRet outcome := λ A a, Ret a.
#[global] Instance outcome_bind : MBind outcome := λ A B k m,
  match m with
  | Ret a => k a
  | Raise e => Raise e
  | Timeout => Timeout
  end.

(** ** NumPy arrays and the object store *)

Abbreviation array := (list Z) (only parsing).
Abbreviation loc := nat (only parsing).
Abbreviation heap := (list (list Z)) (only parsing).

(** [np.sum(a)] *)
Definition np_sum (a : array) : Z := foldr Z.add 0 a.

(** [a[r]], read as a count: a rank the array does not have counts 0. *)
Definition count (a : array) (r : nat) : Z := default 0 (a !! r).

(** [a -= c] on one-dimensional integer arrays: elementwise for equal
    shapes, broadcast for a one-element [c], [ValueError] otherwise. *)
Definition isub (a c : array) : outcome array :=
  if decide (length c = length a) then Ret (zip_with Z.sub a c)
  else match c with
       | [c0] => Ret (map (λ x, x - c0) a)
       | _ => Raise ValueError
       end.

(** The array stored at a location. *)
Definition deref (σ : heap) (l : loc) : array := σ !!! l.

(** A new array object. *)
Definition alloc (a : array) (σ : heap) : loc * heap := (length σ, σ ++ [a]).

(** ** The random generator *)

(** The state of Python's global generator: the stream of raw numbers it
    will produce and how many have been consumed. *)
Record Rng := { tape : nat → nat; pos : nat }.

Definition randbelow (n : nat) (g : Rng) : nat * Rng :=
  ((tape g (pos g) mod n)%nat, {| tape := tape g; pos := S (pos g) |}).

(** [random.randint(a, b)] *)
Definition randint (a b : Z) (g : Rng) : outcome (Z * Rng) :=
  if b <? a then Raise ValueError
  else let '(k, g') := randbelow (Z.to_nat (b - a + 1)) g in
       Ret (a + Z.of_nat k, g').

(** [x[i], x[j] = x[j], x[i]] *)
Definition swap {A} (i j : nat) (x : list A) : list A :=
  match x !! i, x !! j with
  | Some a, Some b => <[j := a]> (<[i := b]> x)
  | _, _ => x
  end.

(** [random.shuffle(x)]: for [i] from [len(x) - 1] down to [1], swap
    [x[i]] with [x[randbelow(i + 1)]]. *)
Fixpoint shuffle_from {A} (i : nat) (x : list A) (g : Rng) : list A * Rng :=
  match i with
  | O => (x, g)
  | S i' => let '(j, g') := randbelow (S i) g in
            shuffle_from i' (swap i j x) g'
  end.

Definition shuffle {A} (x : list A) (g : Rng) : list A * Rng :=
  shuffle_from (length x - 1) x g.

(** ** The move-selection engine *)

(** What [utils.smallest_valid_choice] and [utils.read_user_cards] return:
    [(contains_pattern, pattern, choice, rank)], the latter with a
    [valid_input] flag added. *)
Abbreviation found := (bool * option string * list Z * option Z)%type (only parsing).
Abbreviation parsed := (bool * option string * list Z * option Z * bool)%type (only parsing).

(** Modelled from the spec: the pattern catalog of [consts] is missing.  A
    shape gives the number of distinct ranks, the copies per rank and
    whether the ranks must be consecutive (spec 3 and 4.1); both counts are
    at least one. *)
Record Shape := {
  distinct_ranks : positive;
  copies : positive;
  contiguous : bool
}.

(** Spec 4.2, steps 1 and 2: a contiguous pattern spans its distinct ranks,
    a non-contiguous one has width 1. *)
Definition width (s : Shape) : nat :=
  if contiguous s then Pos.to_nat (distinct_ranks s) else 1%nat.

(** Spec 4.2, step 1: ranks [r .. r + w - 1] all exist and each has the
    required copies in [hand]. *)
Definition available (hand : array) (s : Shape) (r : nat) : bool :=
  bool_decide (r + width s ≤ length hand)%nat
  && forallb (λ i, Z.pos (copies s) <=? count hand i) (seq r (width s)).

(** The spec leaves open which rank of a run stands for it ("topmost (or
    representative)", step 3); the comments of [UserPlayer.move] take the
    first card.  Both readings are kept. *)
Inductive convention := Lowest | Topmost.

Definition representative (v : convention) (s : Shape) (r : nat) : Z :=
  match v with
  | Lowest => Z.of_nat r
  | Topmost => Z.of_nat r + Z.of_nat (width s) - 1
  end.

(** Spec 4.2, step 3: the outrank constraint; no constraint for "none". *)
Definition outranks (v : convention) (s : Shape) (leading_rank : option Z) (r : nat) : bool :=
  match leading_rank with
  | None => true
  | Some l => l <? representative v s r
  end.

(** Spec 4.2, step 4: the count vector marking exactly the required copies
    at the required ranks. *)
Definition mark (n : nat) (s : Shape) (r : nat) : array :=
  map (λ i, if bool_decide (r ≤ i < r + width s)%nat then Z.pos (copies s) else 0)
      (seq 0 n).

(** Modelled from the spec: [utils.smallest_valid_choice] is missing.  Spec
    4.2: candidates are the starting ranks in ascending order; the first one
    that is available and outranks [leading_rank] is returned with its
    choice vector and representative rank.  A pattern outside the catalog
    has no candidate.  When nothing is found the pattern and leading rank
    come back as they were given, so that a skip leaves the pattern in force
    and the leading rank as spec 4.3 describes. *)
Definition find_smallest_valid_choice (v : convention) (catalog : string → option Shape)
    (hand : array) (pattern : option string) (leading_rank : option Z) : found :=
  match pattern ≫= catalog with
  | None => (false, pattern, replicate (length hand) 0, leading_rank)
  | Some s =>
    match list_find (λ r, available hand s r && outranks v s leading_rank r = true)
                    (seq 0 (length hand)) with
    | Some (_, r) => (true, pattern, mark (length hand) s r, Some (representative v s r))
    | None => (false, pattern, replicate (length hand) 0, leading_rank)
    end
  end.

(** A choice realizes a shape at starting rank [r] of an [n]-rank vector. *)
Definition realizes (n : nat) (s : Shape) (r : nat) (c : array) : Prop :=
  (r + width s ≤ n)%nat ∧ c = mark n s r.

(** A legal choice for a hand, a shape and a leading rank (spec 3, Choice):
    it realizes the shape, takes no more than the hand holds at any rank,
    and outranks the leading rank. *)
Definition legal (v : convention) (hand : array) (s : Shape) (leading_rank : option Z)
    (r : nat) (c : array) : Prop :=
  realizes (length hand) s r c
  ∧ Forall2 Z.le c hand
  ∧ match leading_rank with None => True | Some l => l < representative v s r end.

(** The cards a choice takes are in the hand: at every rank it takes none,
    or no more than the hand holds there (the part of [legal] that needs no
    assumption on the other counts of the hand). *)
Definition held_by (hand c : array) : Prop :=
  Forall2 (λ ci hi, ci = 0 ∨ ci ≤ hi) c hand.

(** ** The modules [main.py] imports *)

(** [utils]: the two functions [main.py] calls, taken to be functions of
    their arguments that read the hand and leave it as it is (spec 4.2
    describes a search, spec 4.4 a validation).  Its [write_user_cards] only
    formats a hand for [print]. *)
Record Utils := {
  smallest_valid_choice : array → option string → option Z → found;
  read_user_cards : string → option string → option Z → array → parsed
}.

(** [consts]: the tables [main.py] reads. *)
Record Consts := {
  NUM_RANKS : nat;
  CARD_FREQ : list Z;
  CARDS_PER_PLAYER : gmap string (list nat);
  CARDS : gmap Z string
}.

(** Modelled from the spec: [utils.read_user_cards] is missing.  Spec 4.4:
    the typed cards are resolved into a choice vector through [CARDS] and
    validated against the rules of 4.2 (the vector realizes the pattern, the
    hand holds it, it outranks the leading rank); anything else is invalid
    input.  The spec does not say how the operator passes: here an empty
    line is an accepted pass. *)
Definition rank_of (cards : gmap Z string) (c : Ascii.ascii) : option nat :=
  (λ kv, Z.to_nat kv.2.1)
    <$> list_find (λ kv, kv.2 = String c EmptyString) (map_to_list cards).

Fixpoint resolve (cards : gmap Z string) (n : nat) (typed : list Ascii.ascii) : option array :=
  match typed with
  | [] => Some (replicate n 0)
  | c :: typed' =>
    r ← rank_of cards c;
    a ← resolve cards n typed';
    x ← a !! r;
    Some (<[r := x + 1]> a)
  end.

Definition validate_user_cards (v : convention) (catalog : string → option Shape)
    (cards : gmap Z string) (user_cards : string) (pattern : option string)
    (leading_rank : option Z) (hand : array) : parsed :=
  if decide (user_cards = EmptyString)
  then (false, pattern, replicate (length hand) 0, leading_rank, true)
  else
    match pattern ≫= catalog,
          resolve cards (length hand) (String.list_ascii_of_string user_cards) with
    | Some s, Some c =>
      match list_find (λ r, c = mark (length hand) s r
                            ∧ available hand s r && outranks v s leading_rank r = true)
                      (seq 0 (length hand)) with
      | Some (_, r) => (true, pattern, c, Some (representative v s r), true)
      | None => (false, pattern, c, leading_rank, false)
      end
    | _, _ => (false, pattern, replicate (length hand) 0, leading_rank, false)
    end.

(** [utils] as the specification describes it. *)
Definition spec_utils (v : convention) (catalog : string → option Shape)
    (cards : gmap Z string) : Utils :=
  {| smallest_valid_choice := find_smallest_valid_choice v catalog;
     read_user_cards := validate_user_cards v catalog cards |}.

(** ** Objects *)

(** The class of a player object. *)
Inductive policy := NaivePlayer | UserPlayer.

(** A player object.  [hand] is a reference to the player's array; the
    [moveset] attribute is the one list all players share with the
    environment, kept in [World]. *)
Record Player := { policy_of : policy; hand : loc; free : bool }.

Definition set_free (b : bool) (p : Player) : Player :=
  {| policy_of := policy_of p; hand := hand p; free := b |}.

(** Everything outside the environment object that the program mutates. *)
Record World := {
  store : heap;
  random : Rng;
  stdin : list string;
  moveset : list string
}.

Definition set_store (σ : heap) (w : World) : World :=
  {| store := σ; random := random w; stdin := stdin w; moveset := moveset w |}.
Definition set_random (g : Rng) (w : World) : World :=
  {| store := store w; random := g; stdin := stdin w; moveset := moveset w |}.
Definition set_stdin (l : list string) (w : World) : World :=
  {| store := store w; random := random w; stdin := l; moveset := moveset w |}.
Definition set_moveset (ms : list string) (w : World) : World :=
  {| store := store w; random := random w; stdin := stdin w; moveset := ms |}.

(** The dictionary [get_state] returns; [s_hands] are the copies. *)
Record State := { s_curr_player : nat; s_hands : list loc; s_free : bool }.

Record Action := {
  a_player : nat;
  a_contains_pattern : bool;
  a_pattern : option string;
  a_choice : array;
  a_leading_rank : option Z
}.

(** A history entry. *)
Record Step := { state : State; action : Action; new_state : State; reward : Q }.

(** The environment object ([win_mode] is stored and never read). *)
Record GameEnv := {
  num_players : nat;
  num_decks : nat;
  has_user : bool;
  hands : list loc;
  order : nat;
  players : list Player;
  history : list Step
}.

Definition set_players (ps : list Player) (e : GameEnv) : GameEnv :=
  {| num_players := num_players e; num_decks := num_decks e; has_user := has_user e;
     hands := hands e; order := order e; players := ps; history := history e |}.
Definition set_history (h : list Step) (e : GameEnv) : GameEnv :=
  {| num_players := num_players e; num_decks := num_decks e; has_user := has_user e;
     hands := hands e; order := order e; players := players e; history := h |}.

(** The local variables of [play_game]'s loop. *)
Record Loop := {
  curr_player : nat;
  pattern : option string;
  prev_choice : option array;
  leading_rank : option Z;
  skip_count : nat
}.

(** The program state at the head of the loop. *)
Record Game := { env : GameEnv; world : World; vars : Loop }.

(** ** [NaivePlayer.move] *)

(** Lines 159-162: the [for] loop over the shuffled moveset.  The engine is
    called without [leading_rank]; an empty moveset leaves
    [contains_pattern] unbound. *)
Fixpoint try_patterns (U : Utils) (h : array) (ms : list string) : outcome found :=
  match ms with
  | [] => Raise UnboundLocalError
  | p :: ms' =>
    let r := smallest_valid_choice U h (Some p) None in
    if r.1.1.1 then Ret r
    else match ms' with
         | [] => Ret r
         | _ => try_patterns U h ms'
         end
  end.

(** [self.hand -= choice] *)
Definition subtract_choice (self : Player) (choice : array) (w : World) : outcome World :=
  a ← isub (deref (store w) (hand self)) choice;
  Ret (set_store (<[hand self := a]> (store w)) w).

(** Lines 169-172, shared with [UserPlayer.move] lines 220-222. *)
Definition play_choice (self : Player) (contains_pattern : bool) (choice : array)
    (w : World) : outcome World :=
  if contains_pattern then subtract_choice self choice w else Ret w.

Definition NaivePlayer_move (U : Utils) (self : Player) (w : World)
    (pattern : option string) (prev_choice : option array) (leading_rank : option Z)
    : outcome (bool * option string * array * option Z * Z * Player * World) :=
  '(r, self, w) ←
     (if free self then
        let self := set_free false self in
        let '(ms, g) := shuffle (moveset w) (random w) in
        let w := set_moveset ms (set_random g w) in
        r ← try_patterns U (deref (store w) (hand self)) ms;
        Ret (r, self, w)
      else
        Ret (smallest_valid_choice U (deref (store w) (hand self)) pattern leading_rank,
             self, w));
  let '(contains_pattern, pattern, choice, leading_rank) := r in
  w ← play_choice self contains_pattern choice w;
  Ret (contains_pattern, pattern, choice, leading_rank,
       np_sum (deref (store w) (hand self)), self, w).

(** ** [UserPlayer.move] *)

(** Lines 202-204: every typed character is a value of [CARDS]. *)
Definition known_cards (K : Consts) (user_cards : string) : bool :=
  forallb (λ c, bool_decide (String c EmptyString ∈ (map_to_list (CARDS K)).*2))
          (String.list_ascii_of_string user_cards).

(** Lines 201-214 for one typed line: the accepted move, or the binding of
    [pattern] the loop goes round again with. *)
Definition check_cards (U : Utils) (K : Consts) (h : array) (pattern : option string)
    (leading_rank : option Z) (user_cards : string) : found + option string :=
  if known_cards K user_cards then
    let '(contains_pattern, pattern, choice, user_rank, valid_input) :=
      read_user_cards U user_cards pattern leading_rank h in
    if valid_input then inl (contains_pattern, pattern, choice, user_rank)
    else inr pattern
  else inr pattern.

(** Lines 185-214: the prompt loop.  [input()] takes the next line of
    standard input and raises [EOFError] when there is none.  Returns the
    accepted move, the loop's [leading_rank] and the lines left. *)
Fixpoint prompt (U : Utils) (K : Consts) (is_free : bool) (ms : list string) (h : array)
    (pattern : option string) (leading_rank : option Z) (lines : list string)
    : outcome (bool * option string * array * option Z * option Z * list string) :=
  if is_free then
    match lines with
    | [] => Raise EOFError
    | p :: lines1 =>
      if bool_decide (p ∈ ms) then
        match lines1 with
        | [] => Raise EOFError
        | user_cards :: lines2 =>
          match check_cards U K h (Some p) (Some (-1)) user_cards with
          | inl r => Ret (r, Some (-1), lines2)
          | inr pattern => prompt U K is_free ms h pattern (Some (-1)) lines2
          end
        end
      else prompt U K is_free ms h (Some p) (Some (-1)) lines1
    end
  else
    match lines with
    | [] => Raise EOFError
    | user_cards :: lines2 =>
      match check_cards U K h pattern leading_rank user_cards with
      | inl r => Ret (r, leading_rank, lines2)
      | inr pattern => prompt U K is_free ms h pattern leading_rank lines2
      end
    end.

Definition UserPlayer_move (U : Utils) (K : Consts) (self : Player) (w : World)
    (pattern : option string) (prev_choice : option array) (leading_rank : option Z)
    : outcome (bool * option string * array * option Z * Z * Player * World) :=
  '(contains_pattern, pattern, choice, user_rank, leading_rank, lines) ←
     prompt U K (free self) (moveset w) (deref (store w) (hand self))
            pattern leading_rank (stdin w);
  let w := set_stdin lines w in
  let self := set_free false self in
  w ← play_choice self contains_pattern choice w;
  let leading_rank := if (contains_pattern : bool) then user_rank else leading_rank in
  Ret (contains_pattern, pattern, choice, leading_rank,
       np_sum (deref (store w) (hand self)), self, w).

(** [self.players[curr_player].move(...)]: dispatch on the object's class. *)
Definition move (U : Utils) (K : Consts) (self : Player) (w : World)
    (pattern : option string) (prev_choice : option array) (leading_rank : option Z)
    : outcome (bool * option string * array * option Z * Z * Player * World) :=
  match policy_of self with
  | NaivePlayer => NaivePlayer_move U self w pattern prev_choice leading_rank
  | UserPlayer => UserPlayer_move U K self w pattern prev_choice leading_rank
  end.

(** ** [GameEnv] *)

(** A list comprehension that creates one new array per element. *)
Fixpoint alloc_all (arrays : list array) (σ : heap) : list loc * heap :=
  match arrays with
  | [] => ([], σ)
  | a :: arrays' =>
    let '(l, σ) := alloc a σ in
    let '(ls, σ) := alloc_all arrays' σ in
    (l :: ls, σ)
  end.

(** [[player.hand.copy() for player in self.players]] *)
Definition copy_hands (ps : list Player) (σ : heap) : list loc * heap :=
  alloc_all ((λ p, deref σ (hand p)) <$> ps) σ.

(** [get_state], lines 124-127. *)
Definition get_state (ps : list Player) (curr_player : nat) (σ : heap)
    : outcome (State * heap) :=
  let '(ls, σ) := copy_hands ps σ in
  match ps !! curr_player with
  | None => Raise IndexError
  | Some p => Ret ({| s_curr_player := curr_player; s_hands := ls; s_free := free p |}, σ)
  end.

(** [calculate_reward], lines 129-135. *)
Definition calculate_reward (curr_player : nat) (contains_pattern : bool) (remainder : Z) : Q :=
  if remainder =? 0 then 10%Q
  else if contains_pattern then 0.1%Q
  else (-0.1)%Q.

(** Lines 78-81: after [num_players - 1] skips the current player is free. *)
Definition begin_turn (self : GameEnv) (v : Loop) : GameEnv * nat :=
  if decide (Z.of_nat (skip_count v) = Z.of_nat (num_players self) - 1) then
    (set_players (alter (set_free true) (curr_player v) (players self)) self, O)
  else (self, skip_count v).

(** [CARDS[leading_rank]], evaluated for the message of line 92. *)
Definition card_name (K : Consts) (leading_rank : option Z) : outcome string :=
  match leading_rank ≫= (CARDS K !!.) with
  | Some c => Ret c
  | None => Raise KeyError
  end.

Definition player_at (ps : list Player) (i : nat) : outcome Player :=
  match ps !! i with
  | Some p => Ret p
  | None => Raise IndexError
  end.

(** One iteration of the loop of [play_game], lines 75-119; the flag tells
    whether the loop was left through [break]. *)
Definition turn (U : Utils) (K : Consts) (G : Game) : outcome (Game * bool) :=
  let self := env G in
  let w := world G in
  let v := vars G in
  '(curr_state, σ) ← get_state (players self) (curr_player v) (store w);
  let w := set_store σ w in
  let '(self, skip_count) := begin_turn self v in
  p ← player_at (players self) (curr_player v);
  '(contains_pattern, pattern, prev_choice, leading_rank, remainder, p, w) ←
     move U K p w (pattern v) (prev_choice v) (leading_rank v);
  let self := set_players (<[curr_player v := p]> (players self)) self in
  let skip_count := if (contains_pattern : bool) then O else S skip_count in
  _ ← (if contains_pattern then card_name K leading_rank else Ret EmptyString);
  let action := {| a_player := curr_player v;
                   a_contains_pattern := contains_pattern;
                   a_pattern := pattern;
                   a_choice := prev_choice;
                   a_leading_rank := leading_rank |} in
  '(new_state, σ) ← get_state (players self) (curr_player v) (store w);
  let w := set_store σ w in
  let reward := calculate_reward (curr_player v) contains_pattern remainder in
  let self := set_history (history self ++ [ {| state := curr_state;
                                                 action := action;
                                                 new_state := new_state;
                                                 reward := reward |} ]) self in
  let next (c : nat) := {| curr_player := c; pattern := pattern;
                           prev_choice := Some prev_choice;
                           leading_rank := leading_rank;
                           skip_count := skip_count |} in
  if remainder <=? 0 then
    Ret ({| env := self; world := w; vars := next (curr_player v) |}, true)
  else
    Ret ({| env := self; world := w;
            vars := next ((curr_player v + 1) mod num_players self)%nat |}, false).

(** The [while True] loop; one unit of fuel per iteration. *)
Fixpoint play_loop (fuel : nat) (U : Utils) (K : Consts) (G : Game) : outcome Game :=
  match fuel with
  | O => Timeout
  | S fuel' =>
    '(G, over) ← turn U K G;
    if (over : bool) then Ret G else play_loop fuel' U K G
  end.

(** Lines 63-71: a random player starts and is free. *)
Definition start (self : GameEnv) (w : World) : outcome Game :=
  '(c, g) ← randint 0 (Z.of_nat (num_players self) - 1) (random w);
  let c := Z.to_nat c in
  p ← player_at (players self) c;
  Ret {| env := set_players (<[c := set_free true p]> (players self)) self;
         world := set_random g w;
         vars := {| curr_player := c; pattern := None; prev_choice := None;
                    leading_rank := None; skip_count := O |} |}.

(** [play_game]: returns [self.history]; the winner it announces is the
    final [curr_player]. *)
Definition play_game (fuel : nat) (U : Utils) (K : Consts) (self : GameEnv) (w : World)
    : outcome (list Step * Game) :=
  G ← start self w;
  G ← play_loop fuel U K G;
  Ret (history (env G), G).

(** *** Dealing *)

(** Lines 38-44: draw ranks until one has a card left, move that card from
    the deck array [cf] to the hand [hp]. *)
Fixpoint deal_card (fuel : nat) (K : Consts) (cf hp : loc) (σ : heap) (g : Rng)
    : outcome (heap * Rng) :=
  match fuel with
  | O => Timeout
  | S fuel' =>
    '(idx, g) ← randint 0 (Z.of_nat (NUM_RANKS K) - 1) g;
    let i := Z.to_nat idx in
    match deref σ cf !! i with
    | None => Raise IndexError
    | Some c =>
      if 0 <? c then
        let σ := <[cf := <[i := c - 1]> (deref σ cf)]> σ in
        match deref σ hp !! i with
        | None => Raise IndexError
        | Some x => Ret (<[hp := <[i := x + 1]> (deref σ hp)]> σ, g)
        end
      else deal_card fuel' K cf hp σ g
    end
  end.

(** Line 37: [for card in range(k)]. *)
Fixpoint deal_hand (fuel : nat) (K : Consts) (k : nat) (cf hp : loc) (σ : heap) (g : Rng)
    : outcome (heap * Rng) :=
  match k with
  | O => Ret (σ, g)
  | S k' =>
    '(σ, g) ← deal_card fuel K cf hp σ g;
    deal_hand fuel K k' cf hp σ g
  end.

(** Line 36: [for p in range(num_players - 1)]. *)
Fixpoint deal (fuel : nat) (K : Consts) (ps : list nat) (cards_per_player : list nat)
    (hs : list loc) (cf : loc) (σ : heap) (g : Rng) : outcome (heap * Rng) :=
  match ps with
  | [] => Ret (σ, g)
  | p :: ps' =>
    match cards_per_player !! p, hs !! p with
    | Some k, Some hp =>
      '(σ, g) ← deal_hand fuel K k cf hp σ g;
      deal fuel K ps' cards_per_player hs cf σ g
    | _, _ => Raise IndexError
    end
  end.

(** Lines 52-56; [self.hands] has [num_players] entries here. *)
Definition make_players (has_user : bool) (n : nat) (hs : list loc) : list Player :=
  if has_user then
    ((λ l, {| policy_of := NaivePlayer; hand := l; free := false |})
       <$> take (n - 1) hs)
    ++ ((λ l, {| policy_of := UserPlayer; hand := l; free := false |})
       <$> drop (length hs - 1) hs)
  else (λ l, {| policy_of := NaivePlayer; hand := l; free := false |}) <$> take n hs.

(** [reset], lines 19-56.  A seed is given by the stream the generator
    produces from it.  An environment with other than four players never
    binds [self.hands], so line 50 raises once line 49 has drawn the order.
    Counts are kept as unbounded integers: no count comes near the range of
    NumPy's 64-bit entries. *)
Definition reset (fuel : nat) (K : Consts) (seed : option (nat → nat))
    (self : GameEnv) (w : World) : outcome (GameEnv * World) :=
  let n := num_players self in
  let '(card_freq, σ) :=
    alloc ((λ x, x * Z.of_nat (num_decks self)) <$> CARD_FREQ K) (store w) in
  match CARDS_PER_PLAYER K !! (pretty n +:+ "_" +:+ pretty (num_decks self)) with
  | None => Raise KeyError
  | Some cards_per_player =>
    let g := match seed with
             | Some t => {| tape := t; pos := O |}
             | None => random w
             end in
    if decide (n = 4%nat) then
      let '(hs, σ) := alloc_all (replicate n (replicate (NUM_RANKS K) 0)) σ in
      '(σ, g) ← deal fuel K (seq 0 (n - 1)) cards_per_player hs card_freq σ g;
      let hs := <[(n - 1)%nat := card_freq]> hs in
      '(o, g) ← randint 0 (Z.of_nat n - 1) g;
      let o := Z.to_nat o in
      let hs := drop o hs ++ take o hs in
      Ret ({| num_players := n; num_decks := num_decks self; has_user := has_user self;
              hands := hs; order := o; players := make_players (has_user self) n hs;
              history := history self |},
           set_store σ (set_random g w))
    else
      _ ← randint 0 (Z.of_nat n - 1) g;
      Raise AttributeError
  end.

(** [GameEnv.__init__], lines 9-17; [moveset] is the list in [w]. *)
Definition GameEnv_init (fuel : nat) (K : Consts) (num_players num_decks : nat)
    (has_user : bool) (seed : option (nat → nat)) (w : World)
    : outcome (GameEnv * World) :=
  reset fuel K seed
        {| num_players := num_players; num_decks := num_decks; has_user := has_user;
           hands := []; order := O; players := []; history := [] |} w.

(** ** The replay buffer of [old/train.py] *)

(** What [push] can raise. *)
Inductive push_exn := PushIndexError | PushZeroDivisionError.

(** A [ReplayBuffer] object; [None] in [buffer] is the placeholder that line
    19 appends.  Capacities are taken to be integers. *)
Record ReplayBuffer (T : Type) := {
  capacity : Z;
  buffer : list (option T);
  position : Z
}.
Arguments capacity {T} _.
Arguments buffer {T} _.
Arguments position {T} _.

(** [ReplayBuffer.__init__], lines 11-14. *)
Definition ReplayBuffer_init {T} (capacity : Z) : ReplayBuffer T :=
  {| capacity := capacity; buffer := []; position := 0 |}.

(** [l[i] = x] on a Python list: an index below zero counts from the end, an
    index outside the list raises [IndexError]. *)
Definition setitem {A} (l : list A) (i : Z) (x : A) : option (list A) :=
  let n := Z.of_nat (length l) in
  if bool_decide (0 ≤ i < n) then Some (<[Z.to_nat i := x]> l)
  else if bool_decide (- n ≤ i < 0) then Some (<[Z.to_nat (n + i) := x]> l)
  else None.

(** [ReplayBuffer.push], lines 16-21; [t] is the tuple
    [(state, action, reward, next_state, done)]. *)
Definition ReplayBuffer_push {T} (self : ReplayBuffer T) (t : T)
    : push_exn + ReplayBuffer T :=
  let buf := if Z.of_nat (length (buffer self)) <? capacity self
             then buffer self ++ [None] else buffer self in
  match setitem buf (position self) (Some t) with
  | None => inl PushIndexError
  | Some buf =>
    if capacity self =? 0 then inl PushZeroDivisionError
    else inr {| capacity := capacity self; buffer := buf;
                position := (position self + 1) `mod` capacity self |}
  end.

(** [ReplayBuffer.__len__], lines 29-30. *)
Definition ReplayBuffer_len {T} (self : ReplayBuffer T) : nat := length (buffer self).

(** Transitions pushed one after the other. *)
Fixpoint push_all {T} (self : ReplayBuffer T) (ts : list T) : push_exn + ReplayBuffer T :=
  match ts with
  | [] => inr self
  | t :: ts' =>
    match ReplayBuffer_push self t with
    | inl e => inl e
    | inr self' => push_all self' ts'
    end
  end.

(** The buffer is the ring that [pushed] has left: it holds the last
    [capacity] transitions, each at its number modulo the capacity. *)
Definition ring {T} (c : nat) (pushed : list T) (self : ReplayBuffer T) : Prop :=
  capacity self = Z.of_nat c
  ∧ length (buffer self) = (length pushed `min` c)%nat
  ∧ position self = Z.of_nat (length pushed mod c)
  ∧ ∀ j t, pushed !! j = Some t → (length pushed ≤ j + c)%nat →
           buffer self !! (j mod c)%nat = Some (Some t).

(** ** Notions the properties are stated with *)

(** The array a player holds, and the hands of a game in seat order. *)
Definition hand_of (σ : heap) (p : Player) : array := deref σ (hand p).

Definition hands_of (G : Game) : list array :=
  hand_of (store (world G)) <$> players (env G).

(** The objects of a game are well formed: every player has an array of its
    own in the store, there are [num_players] players and [curr_player] is
    one of them. *)
Definition wf (G : Game) : Prop :=
  NoDup (hand <$> players (env G))
  ∧ Forall (λ p, hand p < length (store (world G)))%nat (players (env G))
  ∧ length (players (env G)) = num_players (env G)
  ∧ (curr_player (vars G) < num_players (env G))%nat.

(** A property of every choice the two functions of [utils] hand back as
    playable from a hand. *)
Definition choices (U : Utils) (P : array → array → Prop) : Prop :=
  (∀ h pat lr p c rk, smallest_valid_choice U h pat lr = (true, p, c, rk) → P h c)
  ∧ (∀ line pat lr h p c rk,
       read_user_cards U line pat lr h = (true, p, c, rk, true) → P h c).

(** Spec 3, Choice: "a same-shaped count vector". *)
Definition same_shape (h c : array) : Prop := length c = length h.


(** A choice one of the two functions of [utils] offers for the hand [h]. *)
Definition offered (U : Utils) (h c : array) : Prop :=
  (∃ pat lr p rk, smallest_valid_choice U h pat lr = (true, p, c, rk))
  ∨ (∃ line pat lr p rk, read_user_cards U line pat lr h = (true, p, c, rk, true)).

(** The test of line 79. *)
Definition freed (G : Game) : bool :=
  bool_decide (Z.of_nat (skip_count (vars G)) = Z.of_nat (num_players (env G)) - 1).

(** The current player as [move] is called on it. *)
Definition mover (G : Game) (p : Player) : Player :=
  if freed G then set_free true p else p.

(** The store after the snapshot of line 76. *)
Definition snapshot (σ : heap) (ps : list Player) : heap := σ ++ (hand_of σ <$> ps).

(** The state and flag with which an iteration ends when the current
    player, [p] at the head of the loop, has made the move [m]. *)
Definition after_move (G : Game) (p : Player)
    (m : bool * option string * array * option Z * Z * Player * World) : Game * bool :=
  let '(contains_pattern, pattern, choice, leading_rank, remainder, p', w) := m in
  let c := curr_player (vars G) in
  let ps := <[c := p']> (players (env G)) in
  let entry :=
    {| state := {| s_curr_player := c;
                   s_hands := seq (length (store (world G))) (length (players (env G)));
                   s_free := free p |};
       action := {| a_player := c; a_contains_pattern := contains_pattern;
                    a_pattern := pattern; a_choice := choice;
                    a_leading_rank := leading_rank |};
       new_state := {| s_curr_player := c;
                       s_hands := seq (length (store w)) (length (players (env G)));
                       s_free := free p' |};
       reward := calculate_reward c contains_pattern remainder |} in
  ({| env := set_history (history (env G) ++ [entry]) (set_players ps (env G));
      world := set_store (snapshot (store w) ps) w;
      vars := {| curr_player := if remainder <=? 0 then c
                                else ((c + 1) mod num_players (env G))%nat;
                 pattern := pattern;
                 prev_choice := Some choice;
                 leading_rank := leading_rank;
                 skip_count := if contains_pattern then O
                               else S (if freed G then O else skip_count (vars G)) |} |},
   remainder <=? 0).

(** The loop continues from [G] to [G']. *)
Definition continues (U : Utils) (K : Consts) (G G' : Game) : Prop :=
  turn U K G = Ret (G', false).

(** [G'] is a later head of the loop than [G], or [G] itself. *)
Definition reaches (U : Utils) (K : Consts) : Game → Game → Prop :=
  rtc (continues U K).

(** [G'] is the state after some iteration that starts in [G]. *)
Definition turns_to (U : Utils) (K : Consts) (G G' : Game) : Prop :=
  ∃ over, turn U K G = Ret (G', over).

(** [G'] comes after [G] by any number of iterations, the last one
    included. *)
Definition runs (U : Utils) (K : Consts) : Game → Game → Prop :=
  rtc (turns_to U K).

(** The last entry of the history records a skip. *)
Definition skipped (G : Game) : bool :=
  match last (history (env G)) with
  | Some e => negb (a_contains_pattern (action e))
  | None => false
  end.

(** An iteration in which the current player skips and the loop goes on. *)
Definition skip_turn (U : Utils) (K : Consts) (G G' : Game) : Prop :=
  turn U K G = Ret (G', false) ∧ skipped G' = true.

(** The head of the loop with another pattern, previous choice and leading
    rank in force. *)
Definition in_force (pat : option string) (pc : option array) (lr : option Z)
    (G : Game) : Game :=
  {| env := env G; world := world G;
     vars := {| curr_player := curr_player (vars G); pattern := pat; prev_choice := pc;
                leading_rank := lr; skip_count := skip_count (vars G) |} |}.

(** Conservation (spec 8): the cards of rank [r] in the players' hands, and
    those in the choices played so far. *)
Definition held (G : Game) (r : nat) : Z :=
  np_sum ((λ a, count a r) <$> hands_of G).

Definition played_in (h : list Step) (r : nat) : Z :=
  np_sum ((λ e, if a_contains_pattern (action e)
                then count (a_choice (action e)) r else 0) <$> h).

Definition played (G : Game) (r : nat) : Z := played_in (history (env G)) r.

(** The deck: [CARD_FREQ * num_decks]. *)
Definition deck (K : Consts) (num_decks : nat) (r : nat) : Z :=
  count (CARD_FREQ K) r * Z.of_nat num_decks.

(** The cards in play, and the bound on the number of iterations. *)
Definition total (G : Game) : Z := np_sum (np_sum <$> hands_of G).

Definition bound (G : Game) : nat :=
  (num_players (env G) * S (Z.to_nat (total G)))%nat.

(** Every seat is held by the automatic policy. *)
Definition all_naive (G : Game) : Prop :=
  Forall (λ p, policy_of p = NaivePlayer) (players (env G)).

(** What termination asks of [utils.smallest_valid_choice] on a hand of
    [NUM_RANKS] non-negative counts: a choice it reports lies within the
    hand, plays at least one card, and its rank has a name in [CARDS]. *)
Definition engine_ok (U : Utils) (K : Consts) : Prop :=
  ∀ h pat lr p c rk,
    Forall (Z.le 0) h → length h = NUM_RANKS K →
    smallest_valid_choice U h pat lr = (true, p, c, rk) →
    Forall2 (λ ci hi, 0 ≤ ci ≤ hi) c h
    ∧ 0 < np_sum c
    ∧ is_Some (rk ≫= (CARDS K !!.)).

(** Pattern [q] can open from every hand that holds a card. *)
Definition opening (U : Utils) (q : string) : Prop :=
  ∀ h, Forall (Z.le 0) h → 0 < np_sum h →
       (smallest_valid_choice U h (Some q) None).1.1.1 = true.

(** Every hand has one count per rank. *)
Definition hands_ranked (K : Consts) (G : Game) : Prop :=
  Forall (λ a, length a = NUM_RANKS K) (hands_of G).

(** No hand has a negative count; every player holds a card. *)
Definition hands_nonneg (G : Game) : Prop := Forall (Forall (Z.le 0)) (hands_of G).



(** The invariant of the loop in a game of automatic players. *)
Definition naive_inv (K : Consts) (q : string) (G : Game) : Prop :=
  wf G ∧ all_naive G ∧ hands_nonneg G ∧ hands_ranked K G
  ∧ q ∈ moveset (world G)
  ∧ (S (skip_count (vars G)) ≤ num_players (env G))%nat.

(** The measure that decreases with every iteration. *)
Definition measure (G : Game) : nat :=
  (num_players (env G) * Z.to_nat (total G)
   + (num_players (env G) - 1 - skip_count (vars G)))%nat.

(** Dealing a card lowers the deck array [cf] at one rank, raises the hand
    [hp] at the same rank and touches nothing else. *)
Definition dealt (cf hp : nat) (σ σ' : list (list Z)) : Prop :=
  length σ' = length σ
  ∧ (∀ l, l ≠ cf → l ≠ hp → deref σ' l = deref σ l)
  ∧ (∀ r, count (deref σ' cf) r + count (deref σ' hp) r
          = count (deref σ cf) r + count (deref σ hp) r)
  ∧ length (deref σ' cf) = length (deref σ cf)
  ∧ length (deref σ' hp) = length (deref σ hp).

(** [k] cards have moved from the deck array [cf] to the hand [hp]. *)
Definition moved (k : nat) (cf hp : nat) (σ σ' : list (list Z)) : Prop :=
  dealt cf hp σ σ'
  ∧ np_sum (deref σ' hp) = np_sum (deref σ hp) + Z.of_nat k
  ∧ np_sum (deref σ' cf) = np_sum (deref σ cf) - Z.of_nat k
  ∧ (Forall (Z.le 0) (deref σ cf) → Forall (Z.le 0) (deref σ' cf))
  ∧ (Forall (Z.le 0) (deref σ hp) → Forall (Z.le 0) (deref σ' hp)).

(** History entries as they read in a store: the snapshots resolved to the
    arrays they hold. *)
Definition read_state (σ : heap) (s : State) : nat * list array * bool :=
  (s_curr_player s, deref σ <$> s_hands s, s_free s).

Definition read_entry (σ : heap) (e : Step)
    : (nat * list array * bool) * Action * (nat * list array * bool) * Q :=
  (read_state σ (state e), action e, read_state σ (new_state e), reward e).

(** The arrays of the history entries exist and none of them is a player's
    hand. *)
Definition history_apart (G : Game) : Prop :=
  Forall (λ e, Forall (λ l, (l < length (store (world G)))%nat
                            ∧ l ∉ hand <$> players (env G))
                      (s_hands (state e) ++ s_hands (new_state e)))
         (history (env G)).

(** ** A sample configuration *)

(** The patterns the spec names: a single card, a pair, three consecutive
    pairs. *)
Definition sample_catalog (pattern : string) : option Shape :=
  if String.eqb pattern "1x1"
  then Some {| distinct_ranks := 1; copies := 1; contiguous := true |}
  else if String.eqb pattern "1x2"
  then Some {| distinct_ranks := 1; copies := 2; contiguous := true |}
  else if String.eqb pattern "3x2"
  then Some {| distinct_ranks := 3; copies := 2; contiguous := true |}
  else None.

(** Sample tables: thirteen ranks of four cards and two jokers. *)
Definition sample_consts : Consts :=
  {| NUM_RANKS := 15;
     CARD_FREQ := replicate 13 4 ++ [1; 1];
     CARDS_PER_PLAYER := {[ "4_1"%string := [14; 14; 13; 13]%nat ]};
     CARDS := list_to_map
                (zip (Z.of_nat <$> seq 0 15)
                     ["3"; "4"; "5"; "6"; "7"; "8"; "9"; "T"; "J"; "Q"; "K"; "A"; "2";
                      "b"; "r"]%string) |}.

Definition sample_utils : Utils :=
  spec_utils Lowest sample_catalog (CARDS sample_consts).

(** A generator that produces the numbers of a list, then zeros. *)
Definition tape_of (l : list nat) : Rng :=
  {| tape := λ i, default O (l !! i); pos := O |}.

Definition sample_world (ms lines : list string) : World :=
  {| store := []; random := tape_of []; stdin := lines; moveset := ms |}.

(** A deal of the sample deck in which no player gets two cards of a rank,
    for a game whose moveset holds pairs only. *)
Definition singles_tape : Rng :=
  tape_of (seq 0 14 ++ (seq 0 13 ++ [14]) ++ seq 0 13)%nat.

Definition singles_hands : list array :=
  [replicate 14 1 ++ [0]; replicate 13 1 ++ [0; 1];
   replicate 13 1 ++ [0; 0]; replicate 13 1 ++ [0; 0]].

Definition pairs_only : list string := ["1x2"%string].

(** The state such a game is caught in. *)
Definition stuck (G : Game) : Prop :=
  wf G ∧ all_naive G
  ∧ moveset (world G) = pairs_only
  ∧ hands_of G = singles_hands
  ∧ (pattern (vars G) = None ∨ pattern (vars G) = Some "1x2"%string).

(** A small table of four automatic players; the first holds a single
    three. *)
Definition table_hands : list array :=
  [[1] ++ replicate 14 0;
   [0; 2] ++ replicate 13 0;
   [0; 0; 1; 1; 1] ++ replicate 10 0;
   [2; 2; 2] ++ replicate 12 0].

Definition table_world : World :=
  {| store := table_hands; random := tape_of []; stdin := [];
     moveset := ["1x1"; "1x2"; "3x2"]%string |}.

Definition seat (c : policy) (l : loc) : Player :=
  {| policy_of := c; hand := l; free := false |}.

Definition table_env : GameEnv :=
  {| num_players := 4; num_decks := 1; has_user := false;
     hands := [0; 1; 2; 3]%nat; order := 0;
     players := seat NaivePlayer <$> [0; 1; 2; 3]%nat;
     history := [] |}.

(** The head of the loop when [play_game] starts on this table. *)
Definition table_game : Game :=
  {| env := set_players (<[0%nat := set_free true (seat NaivePlayer 0)]> (players table_env))
                        table_env;
     world := set_random {| tape := tape (tape_of []); pos := 1 |} table_world;
     vars := {| curr_player := 0; pattern := None; prev_choice := None;
                leading_rank := None; skip_count := 0 |} |}.


(** A table on which nobody can beat the pair of sixes the second seat opens
    with; the generator lets that seat start. *)
Definition lead_hands : list array :=
  [[1; 0; 1] ++ replicate 12 0;
   [1; 0; 0; 2; 1] ++ replicate 10 0;
   [0; 0; 1; 1] ++ replicate 11 0;
   [1; 0; 0; 0; 1] ++ replicate 10 0].

Definition lead_world : World :=
  {| store := lead_hands; random := tape_of [1]%nat; stdin := [];
     moveset := ["1x1"; "1x2"; "3x2"]%string |}.

(** The operator at a table of their own, free to open, who names the
    single-card pattern and then passes. *)
Definition operator : Player := {| policy_of := UserPlayer; hand := 0; free := true |}.

Definition operator_world : World :=
  {| store := table_hands; random := tape_of [];
     stdin := ["1x1"; ""]%string; moveset := ["1x1"; "1x2"; "3x2"]%string |}.


Definition short_consts : Consts :=
  {| NUM_RANKS := 2; CARD_FREQ := [1; 1];
     CARDS_PER_PLAYER := {[ "4_1"%string := [1; 1; 1; 1]%nat ]};
     CARDS := CARDS sample_consts |}.

Definition new_env (n d : nat) (user : bool) : GameEnv :=
  {| num_players := n; num_decks := d; has_user := user;
     hands := []; order := O; players := []; history := [] |}.

(** * Properties *)

(** ** The outcome monad *)

Lemma bind_Ret {A B} (m : outcome A) (k : A → outcome B) (b : B) :
  m ≫= k = Ret b ↔ ∃ a, m = Ret a ∧ k a = Ret b.
Proof.
  split.
  - destruct m as [a| |]; simpl; intros H; try discriminate. by exists a.
  - intros (a & -> & H). exact H.
Qed.

Ltac inv_outcome :=
  repeat match goal with
  | H : Ret _ = Ret _ |- _ => injection H as H; try subst
  | H : Raise _ = Ret _ |- _ => discriminate H
  | H : Timeout = Ret _ |- _ => discriminate H
  | H : mret _ = Ret _ |- _ => injection H as H; try subst
  | H : _ ≫= _ = Ret _ |- _ =>
      let a := fresh "a" in let E := fresh "E" in
      apply bind_Ret in H as (a & E & H)
  | x : (_ * _)%type |- _ => destruct x
  end; simpl in *.

(** ** Arrays *)

Lemma count_lookup (a : list Z) (r : nat) (x : Z) : a !! r = Some x → count a r = x.
Proof. unfold count. by intros ->. Qed.

Lemma count_ge (a : list Z) (r : nat) : (length a ≤ r)%nat → count a r = 0.
Proof. intros H. unfold count. by rewrite lookup_ge_None_2. Qed.

Lemma count_zip_sub (a c : list Z) (r : nat) :
  length c = length a → count (zip_with Z.sub a c) r = count a r - count c r.
Proof.
  intros Hlen. unfold count. rewrite lookup_zip_with.
  destruct (a !! r) as [x|] eqn:Ha; simpl.
  - destruct (lookup_lt_is_Some_2 c r) as [y Hy].
    { rewrite Hlen. by eapply lookup_lt_Some. }
    by rewrite Hy.
  - rewrite lookup_ge_None_2; [done|]. rewrite Hlen. by apply lookup_ge_None.
Qed.

Lemma isub_same_shape (a c : list Z) :
  length c = length a → isub a c = Ret (zip_with Z.sub a c).
Proof. intros H. unfold isub. by rewrite decide_True. Qed.

Lemma np_sum_app (a b : list Z) : np_sum (a ++ b) = np_sum a + np_sum b.
Proof. unfold np_sum. induction a as [|x a IH]; simpl; [done|]. rewrite IH. lia. Qed.

Lemma np_sum_nonneg (a : list Z) : Forall (Z.le 0) a → 0 ≤ np_sum a.
Proof. unfold np_sum. induction 1; simpl; lia. Qed.

Lemma np_sum_zip_sub (a c : list Z) :
  length c = length a → np_sum (zip_with Z.sub a c) = np_sum a - np_sum c.
Proof.
  unfold np_sum. revert c. induction a as [|x a IH]; intros [|y c] Hlen; simpl in *;
    try discriminate; [done|].
  rewrite IH by congruence. lia.
Qed.

Lemma np_sum_replicate_0 (n : nat) : np_sum (replicate n 0) = 0.
Proof. unfold np_sum. induction n; simpl; lia. Qed.

(** A non-negative array with a positive sum holds a card of some rank. *)
Lemma np_sum_pos_lookup (a : list Z) :
  Forall (Z.le 0) a → 0 < np_sum a → ∃ r x, a !! r = Some x ∧ 1 ≤ x.
Proof.
  unfold np_sum. induction 1 as [|x a Hx Ha IH]; simpl; [lia|]. intros Hsum.
  destruct (decide (1 ≤ x)) as [H1|H1].
  - by exists O, x.
  - destruct IH as (r & y & Hr & Hy); [lia|]. by exists (S r), y.
Qed.

(** ** The engine of the specification *)

Lemma length_mark (n : nat) (s : Shape) (r : nat) : length (mark n s r) = n.
Proof. unfold mark. by rewrite length_fmap, length_seq. Qed.

Lemma lookup_mark (n : nat) (s : Shape) (r i : nat) :
  (i < n)%nat →
  mark n s r !! i
  = Some (if bool_decide (r ≤ i < r + width s)%nat then Z.pos (copies s) else 0).
Proof. intros Hi. unfold mark. by rewrite list_lookup_fmap, lookup_seq_lt. Qed.

Lemma width_pos (s : Shape) : (1 ≤ width s)%nat.
Proof. unfold width. destruct (contiguous s); lia. Qed.

Lemma representative_mono (v : convention) (s : Shape) (r r' : nat) :
  (r ≤ r')%nat → representative v s r ≤ representative v s r'.
Proof. destruct v; simpl; lia. Qed.

Lemma available_spec (hand : list Z) (s : Shape) (r : nat) :
  available hand s r = true ↔
  (r + width s ≤ length hand)%nat
  ∧ ∀ i, (r ≤ i < r + width s)%nat → Z.pos (copies s) ≤ count hand i.
Proof.
  unfold available. rewrite andb_true_iff, bool_decide_eq_true.
  rewrite <- Is_true_true, forallb_True, Forall_seq.
  split; intros [H1 H2]; (split; [done|]); intros i Hi; specialize (H2 i Hi).
  - apply Is_true_true in H2. lia.
  - apply Is_true_true. lia.
Qed.

Lemma outranks_spec (v : convention) (s : Shape) (lr : option Z) (r : nat) :
  outranks v s lr r = true ↔
  match lr with None => True | Some l => l < representative v s r end.
Proof. unfold outranks. destruct lr; [apply Z.ltb_lt | done]. Qed.

(** A legal choice starts at an available rank that outranks the leader. *)
Lemma legal_available (v : convention) (hand : list Z) (s : Shape) (lr : option Z)
    (r : nat) (c : list Z) :
  legal v hand s lr r c → available hand s r && outranks v s lr r = true.
Proof.
  intros ([Hr ->] & Hle & Hout). apply andb_true_iff. split.
  - apply available_spec. split; [done|]. intros i Hi.
    apply Forall2_same_length_lookup in Hle as [_ Hle].
    destruct (lookup_lt_is_Some_2 hand i) as [x Hx]; [lia|].
    rewrite (count_lookup _ _ _ Hx).
    assert (i < length hand)%nat as Hlt by lia.
    specialize (Hle i _ x (lookup_mark _ s r i Hlt) Hx).
    by rewrite bool_decide_true in Hle.
  - by apply outranks_spec.
Qed.

(** On a hand without negative counts an available rank gives a legal choice. *)
Lemma available_legal (v : convention) (hand : list Z) (s : Shape) (lr : option Z) (r : nat) :
  Forall (Z.le 0) hand →
  available hand s r && outranks v s lr r = true →
  legal v hand s lr r (mark (length hand) s r).
Proof.
  intros Hpos [Hav Hout]%andb_true_iff. apply available_spec in Hav as [Hr Hav].
  split; [done|]. split; [|by apply outranks_spec].
  apply Forall2_same_length_lookup. split; [by rewrite length_mark|].
  intros i c x Hc Hx. pose proof (lookup_lt_Some _ _ _ Hx) as Hi.
  rewrite lookup_mark in Hc by done. injection Hc as <-. case_bool_decide as Hin.
  - specialize (Hav i Hin). by rewrite (count_lookup _ _ _ Hx) in Hav.
  - rewrite Forall_lookup in Hpos. by eapply Hpos.
Qed.

(** What a successful search returns. *)
Lemma find_smallest_valid_choice_found (v : convention) (catalog : string → option Shape)
    (hand : list Z) (pattern : option string) (lr : option Z)
    (p : option string) (c : list Z) (rk : option Z) :
  find_smallest_valid_choice v catalog hand pattern lr = (true, p, c, rk) →
  ∃ s r, pattern ≫= catalog = Some s
    ∧ p = pattern ∧ c = mark (length hand) s r ∧ rk = Some (representative v s r)
    ∧ (r < length hand)%nat
    ∧ available hand s r && outranks v s lr r = true
    ∧ ∀ r', (r' < r)%nat → ¬ (available hand s r' && outranks v s lr r' = true).
Proof.
  unfold find_smallest_valid_choice. intros H.
  destruct (pattern ≫= catalog) as [s|]; [|discriminate].
  destruct (list_find _ _) as [[i r]|] eqn:Hfind; [|discriminate].
  injection H as <- <- <-. exists s, r.
  apply list_find_Some in Hfind as (Hi & HP & Hmin).
  apply lookup_seq in Hi as [-> Hi]. simpl in *.
  repeat split; try done.
  intros r' Hr'. apply (Hmin r' r'); [|done]. apply lookup_seq. lia.
Qed.

(** The search is complete: an available, outranking start is found. *)
Lemma find_smallest_valid_choice_complete (v : convention) (catalog : string → option Shape)
    (hand : list Z) (pattern : option string) (lr : option Z) (s : Shape) (r : nat) :
  pattern ≫= catalog = Some s →
  available hand s r && outranks v s lr r = true →
  (find_smallest_valid_choice v catalog hand pattern lr).1.1.1 = true.
Proof.
  intros Hs Hr. unfold find_smallest_valid_choice. rewrite Hs.
  destruct (list_find _ _) as [[i r']|] eqn:Hfind; [done|].
  apply list_find_None in Hfind. rewrite Forall_seq in Hfind.
  exfalso. apply (Hfind r); [|done].
  apply andb_true_iff in Hr as [Hav _]. apply available_spec in Hav as [Hav _].
  pose proof (width_pos s). lia.
Qed.

(** C1. Outrank correctness: when the search is given a leading rank [l]
    (not "none") and reports that it found a choice, the representative rank
    it returns is strictly greater than [l]. *)
Theorem outrank_correctness (v : convention) (catalog : string → option Shape)
    (hand : list Z) (pattern : option string) (l : Z)
    (p : option string) (c : list Z) (rk : option Z) :
  find_smallest_valid_choice v catalog hand pattern (Some l) = (true, p, c, rk) →
  ∃ k, rk = Some k ∧ l < k.
Proof.
  intros H. apply find_smallest_valid_choice_found in H
    as (s & r & _ & _ & _ & -> & _ & Hok & _).
  exists (representative v s r). split; [done|].
  apply andb_true_iff in Hok as [_ Hout]. by apply (outranks_spec v s (Some l)) in Hout.
Qed.

(** What is available in the hand is held by it. *)
Lemma available_held_by (hand : list Z) (s : Shape) (r : nat) :
  available hand s r = true → held_by hand (mark (length hand) s r).
Proof.
  intros Hav. apply available_spec in Hav as [Hr Hav].
  apply Forall2_same_length_lookup. split; [by rewrite length_mark|].
  intros i c x Hc Hx. pose proof (lookup_lt_Some _ _ _ Hx) as Hi.
  rewrite lookup_mark in Hc by done. injection Hc as <-. case_bool_decide as Hin.
  - right. specialize (Hav i Hin). by rewrite (count_lookup _ _ _ Hx) in Hav.
  - by left.
Qed.

(** C2. Minimality: when the search reports a choice, that choice is itself
    a choice in the hand: it realizes the pattern at some starting rank
    [r0], the hand holds the cards it takes, and it outranks the leading
    rank (on a hand without negative counts it is [legal]).  Among the
    legal choices it is the lowest: no smaller starting rank was
    acceptable (candidates are tried in ascending order), and every legal
    choice of the hand for this pattern and leading rank starts at [r0] or
    above and has a representative rank at least the returned one. *)
Theorem minimality (v : convention) (catalog : string → option Shape)
    (hand : list Z) (pattern : option string) (lr : option Z) (s : Shape)
    (p : option string) (c : list Z) (rk : option Z) :
  pattern ≫= catalog = Some s →
  find_smallest_valid_choice v catalog hand pattern lr = (true, p, c, rk) →
  ∃ r0, rk = Some (representative v s r0)
    ∧ c = mark (length hand) s r0
    ∧ realizes (length hand) s r0 c
    ∧ held_by hand c
    ∧ match lr with None => True | Some l => l < representative v s r0 end
    ∧ (Forall (Z.le 0) hand → legal v hand s lr r0 c)
    ∧ (∀ r, (r < r0)%nat → ¬ (available hand s r && outranks v s lr r = true))
    ∧ ∀ r c', legal v hand s lr r c' →
        (r0 ≤ r)%nat ∧ representative v s r0 ≤ representative v s r.
Proof.
  intros Hs H. apply find_smallest_valid_choice_found in H
    as (s' & r0 & Hs' & _ & -> & -> & _ & Hok & Hmin).
  rewrite Hs in Hs'. injection Hs' as <-.
  destruct (proj1 (andb_true_iff _ _) Hok) as [Hav Hout].
  exists r0. split_and!; try done.
  - split; [|done]. apply available_spec in Hav as [Hr _]. exact Hr.
  - by apply available_held_by.
  - by apply outranks_spec.
  - intros Hnn. by apply available_legal.
  - intros r c' Hl. assert (r0 ≤ r)%nat as Hle.
    { destruct (decide (r0 ≤ r)%nat) as [|Hlt]; [done|].
      exfalso. apply (Hmin r); [lia|]. by eapply legal_available. }
    split; [done|]. by apply representative_mono.
Qed.

(** ** The object store *)

Lemma alloc_all_spec (arrays : list (list Z)) (σ : list (list Z)) :
  alloc_all arrays σ = (seq (length σ) (length arrays), σ ++ arrays).
Proof.
  revert σ. induction arrays as [|a arrays IH]; intros σ; simpl.
  - by rewrite app_nil_r.
  - rewrite IH. rewrite length_app. simpl.
    rewrite Nat.add_1_r. by rewrite <- app_assoc.
Qed.

Lemma get_state_Ret (ps : list Player) (c : nat) (σ : list (list Z)) (s : State)
    (σ' : list (list Z)) :
  get_state ps c σ = Ret (s, σ') ↔
  ∃ p, ps !! c = Some p
    ∧ s = {| s_curr_player := c; s_hands := seq (length σ) (length ps); s_free := free p |}
    ∧ σ' = σ ++ (hand_of σ <$> ps).
Proof.
  unfold get_state, copy_hands. rewrite alloc_all_spec, length_fmap.
  destruct (ps !! c) as [p|]; split.
  - intros H. injection H as <- <-. by exists p.
  - intros (p' & Hp & -> & ->). by injection Hp as <-.
  - discriminate.
  - by intros (p' & Hp & _).
Qed.

Lemma deref_app (σ τ : list (list Z)) (l : nat) :
  (l < length σ)%nat → deref (σ ++ τ) l = deref σ l.
Proof. intros H. unfold deref. by rewrite lookup_total_app_l. Qed.

Lemma deref_insert_eq (σ : list (list Z)) (l : nat) (a : list Z) :
  (l < length σ)%nat → deref (<[l := a]> σ) l = a.
Proof. intros H. unfold deref. by rewrite list_lookup_total_insert_eq. Qed.

Lemma deref_insert_ne (σ : list (list Z)) (l l' : nat) (a : list Z) :
  l ≠ l' → deref (<[l := a]> σ) l' = deref σ l'.
Proof. intros H. unfold deref. by rewrite list_lookup_total_insert_ne. Qed.

(** ** The players' moves *)

Lemma play_choice_Ret (self : Player) (cp : bool) (ch : list Z) (w w' : World) :
  play_choice self cp ch w = Ret w' ↔
  if cp then ∃ a, isub (deref (store w) (hand self)) ch = Ret a
                ∧ w' = set_store (<[hand self := a]> (store w)) w
  else w' = w.
Proof.
  unfold play_choice, subtract_choice. destruct cp.
  - rewrite bind_Ret. split.
    + intros (a & Ha & H). injection H as <-. by exists a.
    + intros (a & Ha & ->). by exists a.
  - split; [by intros [= ->] | by intros ->].
Qed.

Lemma try_patterns_Ret (U : Utils) (h : list Z) (ms : list string) r :
  try_patterns U h ms = Ret r →
  ∃ q, q ∈ ms ∧ r = smallest_valid_choice U h (Some q) None
    ∧ (r.1.1.1 = false →
       ∀ q', q' ∈ ms → (smallest_valid_choice U h (Some q') None).1.1.1 = false).
Proof.
  induction ms as [|p ms IH]; simpl; [discriminate|].
  destruct (smallest_valid_choice U h (Some p) None).1.1.1 eqn:Hp.
  - intros [= <-]. exists p. split; [left|]. split; [done|]. congruence.
  - destruct ms as [|p' ms].
    + intros [= <-]. exists p. split; [left|]. split; [done|].
      intros _ q' Hq'. by apply list_elem_of_singleton in Hq' as ->.
    + intros H. destruct (IH H) as (q & Hq & -> & Hall).
      exists q. split; [by right|]. split; [done|].
      intros Hf q' Hq'. apply elem_of_cons in Hq' as [->|Hq']; [done|]. by apply Hall.
Qed.

Lemma try_patterns_returns (U : Utils) (h : list Z) (ms : list string) :
  ms ≠ [] → ∃ r, try_patterns U h ms = Ret r.
Proof.
  induction ms as [|p ms IH]; [done|]. intros _. simpl.
  destruct (smallest_valid_choice U h (Some p) None).1.1.1; [by eexists|].
  destruct ms as [|p' ms]; [by eexists|]. by apply IH.
Qed.

Lemma NaivePlayer_move_Ret (U : Utils) (self : Player) (w : World)
    (pat : option string) (pc : option (list Z)) (lr : option Z) cp pat' ch lr' rem self' w' :
  NaivePlayer_move U self w pat pc lr = Ret (cp, pat', ch, lr', rem, self', w') →
  let h := deref (store w) (hand self) in
  let w1 := if free self
            then set_moveset (shuffle (moveset w) (random w)).1
                   (set_random (shuffle (moveset w) (random w)).2 w)
            else w in
  self' = set_free false self
  ∧ (if free self
     then ∃ q, q ∈ moveset w1 ∧ smallest_valid_choice U h (Some q) None = (cp, pat', ch, lr')
          ∧ (cp = false → ∀ q', q' ∈ moveset w1 →
               (smallest_valid_choice U h (Some q') None).1.1.1 = false)
     else smallest_valid_choice U h pat lr = (cp, pat', ch, lr'))
  ∧ play_choice self cp ch w1 = Ret w'
  ∧ rem = np_sum (deref (store w') (hand self)).
Proof.
  unfold NaivePlayer_move. intros H. destruct self as [pol l fr]. simpl in *.
  destruct fr; simpl in *.
  - destruct (shuffle (moveset w) (random w)) as [ms g] eqn:Hsh. simpl in *.
    inv_outcome.
    apply try_patterns_Ret in E0 as (q & Hq & Hr & Hall).
    repeat split; try done. exists q. by rewrite <- Hr.
  - destruct (smallest_valid_choice U (deref (store w) l) pat lr) as [[[??]?]?] eqn:Hsvc.
    by inv_outcome.
Qed.

Lemma check_cards_inl (U : Utils) (K : Consts) (h : list Z) (pat : option string)
    (lr : option Z) (line : string) cp pat' ch ur :
  check_cards U K h pat lr line = inl (cp, pat', ch, ur) →
  read_user_cards U line pat lr h = (cp, pat', ch, ur, true).
Proof.
  unfold check_cards. destruct (known_cards K line); [|discriminate].
  destruct (read_user_cards U line pat lr h) as [[[[??]?]?] []]; [|discriminate].
  by intros [= -> -> -> ->].
Qed.

Lemma prompt_Ret (U : Utils) (K : Consts) (fr : bool) (ms : list string) (h : list Z)
    (lines : list string) : ∀ pat lr cp pat' ch ur lr' lines',
  prompt U K fr ms h pat lr lines = Ret (cp, pat', ch, ur, lr', lines') →
  lr' = (if fr then Some (-1) else lr)
  ∧ ∃ line pat0, read_user_cards U line pat0 lr' h = (cp, pat', ch, ur, true).
Proof.
  remember (S (length lines)) as n eqn:Hn.
  assert (length lines < n)%nat as Hlen by lia. clear Hn.
  revert lines Hlen. induction n as [|n IH]; intros lines Hlen; [lia|].
  intros pat lr cp pat' ch ur lr' lines' H.
  destruct lines as [|l1 lines1]; destruct fr; simpl in H; try discriminate.
  - case_bool_decide.
    + destruct lines1 as [|l2 lines2]; [discriminate|].
      destruct (check_cards U K h (Some l1) (Some (-1)) l2) as [[[[??]?]?]|pat1] eqn:Hc.
      * injection H as -> -> -> -> <- ->. split; [done|].
        eexists _, _. by eapply check_cards_inl.
      * apply IH in H as [-> H]; [done|simpl in *; lia].
    + apply IH in H as [-> H]; [done|simpl in *; lia].
  - destruct (check_cards U K h pat lr l1) as [[[[??]?]?]|pat1] eqn:Hc.
    + injection H as -> -> -> -> <- ->. split; [done|].
      eexists _, _. by eapply check_cards_inl.
    + apply IH in H as [-> H]; [done|simpl in *; lia].
Qed.

Lemma UserPlayer_move_Ret (U : Utils) (K : Consts) (self : Player) (w : World)
    (pat : option string) (pc : option (list Z)) (lr : option Z) cp pat' ch lr' rem self' w' :
  UserPlayer_move U K self w pat pc lr = Ret (cp, pat', ch, lr', rem, self', w') →
  self' = set_free false self
  ∧ (cp = true → ∃ line pat0 lr0,
       read_user_cards U line pat0 lr0 (deref (store w) (hand self))
       = (true, pat', ch, lr', true))
  ∧ (∃ lines, play_choice self cp ch (set_stdin lines w) = Ret w')
  ∧ rem = np_sum (deref (store w') (hand self)).
Proof.
  unfold UserPlayer_move. intros H. inv_outcome.
  apply prompt_Ret in E as [-> (line & pat0 & Hread)].
  repeat split; try done.
  - intros ->. by eexists _, _, _.
  - by eexists.
Qed.

Lemma move_Ret (U : Utils) (K : Consts) (self : Player) (w : World)
    (pat : option string) (pc : option (list Z)) (lr : option Z) cp pat' ch lr' rem self' w' :
  move U K self w pat pc lr = Ret (cp, pat', ch, lr', rem, self', w') →
  self' = set_free false self
  ∧ rem = np_sum (deref (store w') (hand self))
  ∧ (if cp then ∃ a, isub (deref (store w) (hand self)) ch = Ret a
                  ∧ store w' = <[hand self := a]> (store w)
     else store w' = store w)
  ∧ (cp = true → offered U (deref (store w) (hand self)) ch).
Proof.
  unfold move. destruct (policy_of self); intros H.
  - apply NaivePlayer_move_Ret in H as (-> & Heng & Hplay & ->).
    split; [done|]. split; [done|]. split.
    + apply play_choice_Ret in Hplay. destruct cp.
      * destruct Hplay as (a & Ha & ->). exists a. by destruct (free self).
      * subst w'. by destruct (free self).
    + intros ->. left. destruct (free self).
      * destruct Heng as (q & _ & Hq & _). by eexists _, _, _, _.
      * by eexists _, _, _, _.
  - apply UserPlayer_move_Ret in H as (-> & Heng & [lines Hplay] & ->).
    split; [done|]. split; [done|]. split.
    + apply play_choice_Ret in Hplay. destruct cp.
      * destruct Hplay as (a & Ha & ->). by exists a.
      * by subst w'.
    + intros ->. right. destruct Heng as (line & pat0 & lr0 & Hr); [done|].
      by eexists _, _, _, _, _.
Qed.

Lemma insert_alter_same {A} (f : A → A) (l : list A) (i : nat) (x : A) :
  <[i := x]> (alter f i l) = <[i := x]> l.
Proof.
  revert i. induction l as [|y l IH]; intros [|i]; simpl; try done.
  f_equal. apply IH.
Qed.

Lemma begin_turn_eq (G : Game) :
  begin_turn (env G) (vars G)
  = (if freed G
     then set_players (alter (set_free true) (curr_player (vars G)) (players (env G))) (env G)
     else env G,
     if freed G then O else skip_count (vars G)).
Proof. unfold begin_turn, freed. by case_decide; [rewrite bool_decide_true|rewrite bool_decide_false]. Qed.

Lemma card_name_Ret (K : Consts) (lr : option Z) (c : string) :
  card_name K lr = Ret c ↔ lr ≫= (CARDS K !!.) = Some c.
Proof.
  unfold card_name. destruct (lr ≫= _); split; intros H; try discriminate; congruence.
Qed.

Lemma turn_Ret (U : Utils) (K : Consts) (G : Game) (r : Game * bool) :
  turn U K G = Ret r ↔
  ∃ p m, players (env G) !! curr_player (vars G) = Some p
    ∧ move U K (mover G p) (set_store (snapshot (store (world G)) (players (env G))) (world G))
           (pattern (vars G)) (prev_choice (vars G)) (leading_rank (vars G)) = Ret m
    ∧ (m.1.1.1.1.1.1 = true → is_Some (m.1.1.1.2 ≫= (CARDS K !!.)))
    ∧ r = after_move G p m.
Proof.
  unfold turn. rewrite begin_turn_eq. split.
  - intros H. inv_outcome.
    apply get_state_Ret in E as (p & Hp & -> & ->).
    assert (a = mover G p) as ->.
    { unfold player_at, mover in *. destruct (freed G); simpl in *.
      - rewrite list_lookup_alter, decide_True, Hp in E0 by done. simpl in E0. congruence.
      - rewrite Hp in E0. congruence. }
    exists p. eexists. split; [done|]. split; [exact E1|]. simpl.
    apply get_state_Ret in E3 as (p2 & Hp2 & -> & ->).
    assert (p2 = p0) as ->.
    { destruct (freed G); simpl in *.
      - rewrite insert_alter_same, list_lookup_insert_eq in Hp2; [congruence|].
        by eapply lookup_lt_Some.
      - rewrite list_lookup_insert_eq in Hp2; [congruence|]. by eapply lookup_lt_Some. }
    split.
    { intros ->. apply card_name_Ret in E2. by rewrite E2. }
    unfold after_move, snapshot.
    destruct (freed G) eqn:Hfr; simpl in *;
      rewrite ?insert_alter_same, ?length_insert, ?length_alter in *;
      destruct (z <=? 0); by inv_outcome.
  - intros (p & m & Hp & Hm & Hcard & ->).
    destruct m as [[[[[[cp pat] ch] lr] rem] p'] w]. simpl in Hcard.
    pose proof (lookup_lt_Some _ _ _ Hp) as Hlt.
    rewrite (proj2 (get_state_Ret (players (env G)) (curr_player (vars G))
                      (store (world G)) _ _)
               (ex_intro _ p (conj Hp (conj eq_refl eq_refl)))). simpl.
    assert (player_at (players (if freed G
              then set_players (alter (set_free true) (curr_player (vars G))
                                  (players (env G))) (env G)
              else env G)) (curr_player (vars G)) = Ret (mover G p)) as ->.
    { unfold player_at, mover. destruct (freed G); simpl.
      - by rewrite list_lookup_alter, decide_True, Hp.
      - by rewrite Hp. }
    simpl. fold (snapshot (store (world G)) (players (env G))). rewrite Hm. simpl.
    assert ((if cp then card_name K lr else Ret EmptyString) ≫= (λ _, Ret tt) = Ret tt) as Hc.
    { destruct cp; [|done]. destruct Hcard as [c Hc]; [done|].
      apply card_name_Ret in Hc. by rewrite Hc. }
    apply bind_Ret in Hc as (c & -> & _). simpl.
    assert (players (if freed G
              then set_players (alter (set_free true) (curr_player (vars G))
                                  (players (env G))) (env G)
              else env G) = if freed G then alter (set_free true) (curr_player (vars G))
                                  (players (env G)) else players (env G)) as ->
      by by destruct (freed G).
    assert (<[curr_player (vars G) := p']>
              (if freed G then alter (set_free true) (curr_player (vars G))
                                  (players (env G)) else players (env G))
            = <[curr_player (vars G) := p']> (players (env G))) as ->
      by (destruct (freed G); [apply insert_alter_same|done]).
    rewrite (proj2 (get_state_Ret (<[curr_player (vars G) := p']> (players (env G)))
                      (curr_player (vars G)) (store w) _ _)
               (ex_intro _ p' (conj (list_lookup_insert_eq _ _ _ Hlt)
                                    (conj eq_refl eq_refl)))). simpl.
    unfold after_move, snapshot. rewrite length_insert.
    destruct (freed G), (rem <=? 0); reflexivity.
Qed.

(** ** One iteration of the loop, seen through the players' hands *)

Lemma hand_of_set_free (σ : list (list Z)) (b : bool) (p : Player) :
  hand_of σ (set_free b p) = hand_of σ p.
Proof. done. Qed.

Lemma hand_of_snapshot (σ : list (list Z)) (ps : list Player) (q : Player) :
  (hand q < length σ)%nat → hand_of (snapshot σ ps) q = hand_of σ q.
Proof. intros H. unfold hand_of, snapshot. by apply deref_app. Qed.

Lemma length_snapshot (σ : list (list Z)) (ps : list Player) :
  length (snapshot σ ps) = (length σ + length ps)%nat.
Proof. unfold snapshot. by rewrite length_app, length_fmap. Qed.

Lemma hand_insert_same (ps : list Player) (c : nat) (p : Player) (b : bool) :
  ps !! c = Some p → hand <$> <[c := set_free b p]> ps = hand <$> ps.
Proof.
  intros Hp. rewrite list_fmap_insert. simpl. apply list_insert_id.
  by rewrite list_lookup_fmap, Hp.
Qed.

Lemma hands_of_alt (G : Game) :
  hands_of G = deref (store (world G)) <$> (hand <$> players (env G)).
Proof. unfold hands_of. by rewrite <- list_fmap_compose. Qed.

Lemma deref_fmap_app (σ τ : list (list Z)) (ls : list nat) :
  Forall (λ l, l < length σ)%nat ls → deref (σ ++ τ) <$> ls = deref σ <$> ls.
Proof.
  intros H. apply Forall_fmap_ext_1. eapply Forall_impl; [exact H|].
  intros l Hl. by apply deref_app.
Qed.

Lemma deref_fmap_insert (σ : list (list Z)) (ls : list nat) (c l : nat) (a : list Z) :
  NoDup ls → ls !! c = Some l → (l < length σ)%nat →
  deref (<[l := a]> σ) <$> ls = <[c := a]> (deref σ <$> ls).
Proof.
  intros Hnd Hc Hl. apply list_eq. intros i.
  rewrite list_lookup_fmap. destruct (decide (i = c)) as [->|Hne].
  - rewrite list_lookup_insert_eq by (rewrite length_fmap; by eapply lookup_lt_Some).
    rewrite Hc. simpl. by rewrite deref_insert_eq.
  - rewrite list_lookup_insert_ne, list_lookup_fmap by done.
    destruct (ls !! i) as [l'|] eqn:Hi; [|done]. simpl. f_equal.
    apply deref_insert_ne. intros ->. apply Hne.
    by eapply NoDup_lookup.
Qed.

(** What an iteration does, for a well-formed game: the current player [p]
    moves; [cp], [ch] and [rem] are the move's [contains_pattern], [choice]
    and remaining hand size. *)
Lemma turn_hands (U : Utils) (K : Consts) (G G' : Game) (over : bool) :
  wf G → turn U K G = Ret (G', over) →
  ∃ p (cp : bool) pat ch lr rem e,
    let c := curr_player (vars G) in
    players (env G) !! c = Some p
    ∧ players (env G') = <[c := set_free false p]> (players (env G))
    ∧ num_players (env G') = num_players (env G)
    ∧ (if cp
       then ∃ a, isub (hand_of (store (world G)) p) ch = Ret a
               ∧ hands_of G' = <[c := a]> (hands_of G)
       else hands_of G' = hands_of G)
    ∧ (cp = true → offered U (hand_of (store (world G)) p) ch)
    ∧ (cp = true → is_Some (lr ≫= (CARDS K !!.)))
    ∧ hands_of G' !! c = Some (hand_of (store (world G')) p)
    ∧ rem = np_sum (hand_of (store (world G')) p)
    ∧ over = (rem <=? 0)
    ∧ history (env G') = history (env G) ++ [e]
    ∧ action e = {| a_player := c; a_contains_pattern := cp; a_pattern := pat;
                    a_choice := ch; a_leading_rank := lr |}
    ∧ reward e = calculate_reward c cp rem
    ∧ vars G' = {| curr_player := if over then c else ((c + 1) mod num_players (env G))%nat;
                   pattern := pat; prev_choice := Some ch; leading_rank := lr;
                   skip_count := if cp then O
                                 else S (if freed G then O else skip_count (vars G)) |}
    ∧ wf G'.
Proof.
  intros (Hnd & Hlt & Hlen & Hc) H.
  apply turn_Ret in H as (p & m & Hp & Hm & Hcard & HG).
  destruct m as [[[[[[cp pat] ch] lr] rem] p'] w]. simpl in Hcard.
  apply move_Ret in Hm as (-> & -> & Hst & Hoff).
  assert (hand (mover G p) = hand p) as Hh by (unfold mover; by destruct (freed G)).
  assert (set_free false (mover G p) = set_free false p) as Hsf
    by (unfold mover; by destruct (freed G)).
  rewrite Hh, Hsf in *. simpl in Hst, Hoff.
  set (σ0 := store (world G)) in *. set (ps := players (env G)) in *.
  set (c := curr_player (vars G)) in *.
  assert (hand p < length σ0)%nat as Hpl.
  { rewrite Forall_lookup in Hlt. by eapply Hlt. }
  assert (deref (snapshot σ0 ps) (hand p) = hand_of σ0 p) as Hd
    by (by apply hand_of_snapshot).
  rewrite Hd in *.
  assert (Forall (λ l, l < length σ0)%nat (hand <$> ps)) as Hlt'
    by (by apply Forall_fmap).
  assert ((hand <$> ps) !! c = Some (hand p)) as Hcl
    by (by rewrite list_lookup_fmap, Hp).
  assert (length (store w) = length (snapshot σ0 ps)) as Hlw.
  { destruct cp; [|by rewrite Hst]. destruct Hst as (a & _ & ->). by rewrite length_insert. }
  assert (Forall (λ l, l < length (store w))%nat (hand <$> ps)) as Hltw.
  { eapply Forall_impl; [exact Hlt'|]. intros l Hl. simpl in Hl.
    rewrite Hlw, length_snapshot. lia. }
  assert (hands_of G' = deref (store w) <$> (hand <$> ps)) as HhG'.
  { rewrite hands_of_alt. injection HG as -> _. simpl. fold ps c.
    rewrite (hand_insert_same _ _ _ _ Hp). unfold snapshot. by apply deref_fmap_app. }
  assert (hand_of (store (world G')) p = deref (store w) (hand p)) as HpG'.
  { injection HG as -> _. simpl. apply hand_of_snapshot. rewrite Forall_lookup in Hltw.
    by eapply Hltw. }
  exists p, cp, pat, ch, lr, (np_sum (deref (store w) (hand p))). eexists.
  injection HG as HG' ->. rewrite HpG'. simpl.
  split; [done|]. split; [by rewrite HG'|]. split; [by rewrite HG'|].
  split.
  { rewrite HhG', (hands_of_alt G). fold σ0 ps. destruct cp.
    - destruct Hst as (a & Ha & ->). exists a. split; [done|].
      unfold snapshot. rewrite deref_fmap_insert with (c := c); try done.
      + f_equal. by apply deref_fmap_app.
      + rewrite length_app. lia.
    - rewrite Hst. unfold snapshot. by apply deref_fmap_app. }
  split; [done|]. split; [done|]. split.
  { rewrite HhG', list_lookup_fmap, Hcl. done. }
  split; [done|]. split; [done|].
  rewrite HG'. simpl. split; [reflexivity|]. simpl. split; [done|]. split; [done|].
  split; [done|].
  repeat split; simpl.
  - fold ps c. by rewrite (hand_insert_same _ _ _ _ Hp).
  - fold ps c.
    assert (Forall (λ l, l < length (snapshot (store w) (<[c:=set_free false p]> ps)))%nat
                   (hand <$> <[c:=set_free false p]> ps)) as HH; [|by apply Forall_fmap in HH].
    rewrite (hand_insert_same _ _ _ _ Hp).
    eapply Forall_impl; [exact Hltw|]. intros l Hl. simpl in *.
    rewrite length_snapshot. lia.
  - fold ps. by rewrite length_insert.
  - fold c. destruct (_ <=? 0); [done|]. apply Nat.mod_upper_bound. lia.
Qed.

(** ** The free flag *)

(** C10. Every call of [UserPlayer.move] that returns leaves the player's
    [free] flag [False], whether or not the accepted input played a
    pattern. *)
Theorem user_move_clears_free (U : Utils) (K : Consts) (self : Player) (w : World)
    (pat : option string) (pc : option (list Z)) (lr : option Z)
    (cp : bool) (pat' : option string) (ch : list Z) (lr' : option Z) (rem : Z)
    (self' : Player) (w' : World) :
  UserPlayer_move U K self w pat pc lr = Ret (cp, pat', ch, lr', rem, self', w') →
  free self' = false.
Proof. intros H. by apply UserPlayer_move_Ret in H as (-> & _). Qed.

(** A free player's move does not depend on the pattern in force, the
    previous choice or the leading rank. *)
Lemma prompt_free (U : Utils) (K : Consts) (ms : list string) (h : list Z)
    (lines : list string) (pat pat2 : option string) (lr lr2 : option Z) :
  prompt U K true ms h pat lr lines = prompt U K true ms h pat2 lr2 lines.
Proof. by destruct lines. Qed.

Lemma move_free (U : Utils) (K : Consts) (p : Player) (w : World)
    (pat pat2 : option string) (pc pc2 : option (list Z)) (lr lr2 : option Z) :
  free p = true →
  move U K p w pat pc lr = move U K p w pat2 pc2 lr2.
Proof.
  intros Hf. unfold move, NaivePlayer_move, UserPlayer_move. rewrite Hf.
  destruct (policy_of p); [done|]. by rewrite (prompt_free _ _ _ _ _ pat pat2 lr lr2).
Qed.

(** ** Rewards and hands, turn by turn *)

Lemma hands_of_lookup (G : Game) (i : nat) (q : Player) :
  players (env G) !! i = Some q →
  hands_of G !! i = Some (hand_of (store (world G)) q).
Proof. intros H. unfold hands_of. by rewrite list_lookup_fmap, H. Qed.

Lemma calculate_reward_cases (c : nat) (cp : bool) (rem : Z) :
  (rem = 0 → calculate_reward c cp rem = 10%Q)
  ∧ (cp = true → rem ≠ 0 → calculate_reward c cp rem = 0.1%Q)
  ∧ (cp = false → rem ≠ 0 → calculate_reward c cp rem = (-0.1)%Q).
Proof.
  unfold calculate_reward. repeat split.
  - by intros ->.
  - intros -> Hr. by apply Z.eqb_neq in Hr as ->.
  - intros -> Hr. by apply Z.eqb_neq in Hr as ->.
Qed.

(** C7. In every iteration the reward recorded is [calculate_reward]'s on
    the mover's remaining hand sum: 10 when that sum is zero, 0.1 when a
    pattern was played and cards remain.  A skip leaves the hand as it was,
    so it is recorded with -0.1 when the player holds a card, and with 10
    when the player skips with a hand that is already empty: line 130 tests
    the remainder before line 134 looks at the skip. *)
Theorem reward_policy (U : Utils) (K : Consts) (G G' : Game) (over : bool) (p : Player) :
  wf G →
  players (env G) !! curr_player (vars G) = Some p →
  turn U K G = Ret (G', over) →
  ∃ e, last (history (env G')) = Some e
    ∧ let before := np_sum (hand_of (store (world G)) p) in
      let remainder := np_sum (hand_of (store (world G')) p) in
      reward e = calculate_reward (curr_player (vars G))
                   (a_contains_pattern (action e)) remainder
      ∧ (remainder = 0 → reward e = 10%Q)
      ∧ (a_contains_pattern (action e) = true → remainder ≠ 0 → reward e = 0.1%Q)
      ∧ (a_contains_pattern (action e) = false → remainder = before)
      ∧ (a_contains_pattern (action e) = false → before ≠ 0 → reward e = (-0.1)%Q)
      ∧ (a_contains_pattern (action e) = false → before = 0 → reward e = 10%Q).
Proof.
  intros Hwf Hp H.
  destruct (turn_hands _ _ _ _ _ Hwf H)
    as (p' & cp & pat & ch & lr & rem & e & Hp' & _ & _ & Hh & _ & _ & Hc & Hrem & _
        & Hhist & Hact & Hrew & _).
  simpl in *. rewrite Hp in Hp'. injection Hp' as <-.
  exists e. split; [by rewrite Hhist, last_snoc|]. simpl.
  rewrite Hact, Hrew, <- Hrem. simpl.
  destruct (calculate_reward_cases (curr_player (vars G)) cp rem) as (H0 & H1 & H2).
  assert (cp = false → rem = np_sum (hand_of (store (world G)) p)) as Hsame.
  { intros ->. rewrite Hrem.
    rewrite Hh, (hands_of_lookup _ _ _ Hp) in Hc. by injection Hc as <-. }
  split_and!; try done.
  - intros Hcp Hne. apply H2; [done|]. by rewrite (Hsame Hcp).
  - intros Hcp Hz. apply H0. by rewrite (Hsame Hcp).
Qed.

Lemma NaivePlayer_move_skip (U : Utils) (self : Player) (w : World)
    (pat : option string) (pc : option (list Z)) (lr : option Z)
    pat' ch lr' rem self' w' :
  NaivePlayer_move U self w pat pc lr = Ret (false, pat', ch, lr', rem, self', w') →
  store w' = store w.
Proof.
  intros H. apply NaivePlayer_move_Ret in H as (_ & _ & Hplay & _).
  apply play_choice_Ret in Hplay as ->. by destruct (free self).
Qed.

(** C8. In an iteration of the loop only the current player's hand can
    change: every other player keeps its array and the array's contents; the
    current player's hand is unchanged when it skipped and is the old hand
    minus the choice when it played.  A call of [NaivePlayer.move] that
    reports no pattern leaves the whole store as it was. *)
Theorem hand_ownership (U : Utils) (K : Consts) (G G' : Game) (over : bool) :
  wf G →
  turn U K G = Ret (G', over) →
  ∃ p e, players (env G) !! curr_player (vars G) = Some p
    ∧ last (history (env G')) = Some e
    ∧ (∀ i q, i ≠ curr_player (vars G) → players (env G) !! i = Some q →
         players (env G') !! i = Some q
         ∧ hand_of (store (world G')) q = hand_of (store (world G)) q)
    ∧ (a_contains_pattern (action e) = false →
         hand_of (store (world G')) p = hand_of (store (world G)) p)
    ∧ (a_contains_pattern (action e) = true →
         isub (hand_of (store (world G)) p) (a_choice (action e))
         = Ret (hand_of (store (world G')) p))
    ∧ (∀ self w pat pc lr pat' ch lr' rem self' w',
         NaivePlayer_move U self w pat pc lr = Ret (false, pat', ch, lr', rem, self', w') →
         store w' = store w).
Proof.
  intros Hwf H.
  destruct (turn_hands _ _ _ _ _ Hwf H)
    as (p & cp & pat & ch & lr & rem & e & Hp & Hps & _ & Hh & _ & _ & Hc & _ & _
        & Hhist & Hact & _).
  simpl in *. exists p, e. split; [done|]. split; [by rewrite Hhist, last_snoc|].
  pose proof (hands_of_lookup _ _ _ Hp) as HpG.
  rewrite Hact. simpl. split_and!.
  - intros i q Hi Hq.
    assert (players (env G') !! i = Some q) as Hq'
      by (rewrite Hps; by rewrite list_lookup_insert_ne).
    split; [done|].
    pose proof (hands_of_lookup _ _ _ Hq') as H1.
    pose proof (hands_of_lookup _ _ _ Hq) as H3.
    destruct cp.
    + destruct Hh as (a & _ & Hh). rewrite Hh, list_lookup_insert_ne in H1 by done.
      congruence.
    + rewrite Hh in H1. congruence.
  - intros ->. rewrite Hh in Hc. congruence.
  - intros ->. destruct Hh as (a & Ha & Hh). rewrite Ha. f_equal.
    rewrite Hh, list_lookup_insert_eq in Hc; [congruence|].
    by eapply lookup_lt_Some.
  - intros. by eapply NaivePlayer_move_skip.
Qed.

(** ** The history *)

Lemma deref_fmap_seq_app (σ τ : list (list Z)) :
  deref (σ ++ τ) <$> seq (length σ) (length τ) = τ.
Proof.
  apply list_eq. intros i. rewrite list_lookup_fmap.
  destruct (decide (i < length τ)%nat) as [Hi|Hi].
  - rewrite lookup_seq_lt by done. simpl. unfold deref.
    rewrite lookup_total_app_r by lia.
    replace (length σ + i - length σ)%nat with i by lia.
    symmetry. by apply list_lookup_lookup_total_lt.
  - rewrite lookup_seq_ge by lia. simpl. symmetry. apply lookup_ge_None. lia.
Qed.

Lemma deref_fmap_ext (σ τ : list (list Z)) (ls : list nat) :
  Forall (λ l, deref σ l = deref τ l) ls → deref σ <$> ls = deref τ <$> ls.
Proof. apply Forall_fmap_ext_1. Qed.

Lemma deref_snapshot_seq (σ : list (list Z)) (ps : list Player) :
  deref (snapshot σ ps) <$> seq (length σ) (length ps) = hand_of σ <$> ps.
Proof.
  unfold snapshot. rewrite <- (length_fmap (hand_of σ) ps). apply deref_fmap_seq_app.
Qed.

(** The store after an iteration: two snapshots were added, and of the
    arrays that were there only the current player's can have changed. *)
Lemma turn_store (U : Utils) (K : Consts) (G G' : Game) (over : bool) :
  wf G → turn U K G = Ret (G', over) →
  ∃ p e,
    let σ := store (world G) in
    let n := length (players (env G)) in
    players (env G) !! curr_player (vars G) = Some p
    ∧ hand <$> players (env G') = hand <$> players (env G)
    ∧ history (env G') = history (env G) ++ [e]
    ∧ s_hands (state e) = seq (length σ) n
    ∧ s_hands (new_state e) = seq (length σ + n) n
    ∧ length (store (world G')) = (length σ + n + n)%nat
    ∧ (∀ l, l ≠ hand p → (l < length σ)%nat → deref (store (world G')) l = deref σ l)
    ∧ deref (store (world G')) <$> s_hands (state e) = hands_of G
    ∧ deref (store (world G')) <$> s_hands (new_state e) = hands_of G'.
Proof.
  intros Hwf H. pose proof Hwf as (Hnd & Hlt & Hlen & Hc).
  apply turn_Ret in H as (p & m & Hp & Hm & Hcard & HG).
  destruct m as [[[[[[cp pat] ch] lr] rem] p'] w]. simpl in Hcard.
  apply move_Ret in Hm as (-> & -> & Hst & Hoff).
  assert (hand (mover G p) = hand p) as Hh by (unfold mover; by destruct (freed G)).
  assert (set_free false (mover G p) = set_free false p) as Hsf
    by (unfold mover; by destruct (freed G)).
  rewrite Hh, Hsf in *. simpl in Hst.
  set (σ0 := store (world G)) in *. set (ps := players (env G)) in *.
  set (c := curr_player (vars G)) in *.
  assert (hand p < length σ0)%nat as Hpl.
  { rewrite Forall_lookup in Hlt. by eapply Hlt. }
  assert (length (store w) = (length σ0 + length ps)%nat) as Hlw.
  { rewrite <- length_snapshot. destruct cp; [|by rewrite Hst].
    destruct Hst as (a & _ & ->). by rewrite length_insert. }
  assert (∀ l, l ≠ hand p → deref (store w) l = deref (snapshot σ0 ps) l) as Hw.
  { intros l Hl. destruct cp; [|by rewrite Hst].
    destruct Hst as (a & _ & ->). by apply deref_insert_ne. }
  injection HG as -> ->. exists p. eexists. simpl. fold σ0 ps c.
  split; [done|]. split; [by apply hand_insert_same|]. split; [reflexivity|]. simpl.
  split; [done|]. split; [by rewrite Hlw|].
  split; [by rewrite length_snapshot, Hlw, length_insert|].
  split.
  { intros l Hl Hl0. unfold snapshot at 1. rewrite deref_app by lia.
    rewrite Hw by done. unfold snapshot. by apply deref_app. }
  split.
  - unfold snapshot at 1.
    rewrite deref_fmap_app by (apply Forall_seq; intros; lia).
    transitivity (deref (snapshot σ0 ps) <$> seq (length σ0) (length ps)).
    + apply deref_fmap_ext, Forall_seq. intros l Hl. apply Hw. lia.
    + apply deref_snapshot_seq.
  - rewrite <- (length_insert ps c (set_free false p)).
    rewrite deref_snapshot_seq. unfold hands_of. simpl.
    apply Forall_fmap_ext_1, Forall_forall. intros q Hq. symmetry.
    apply hand_of_snapshot.
    assert (hand q ∈ hand <$> ps) as Hin.
    { rewrite <- (hand_insert_same ps c p false Hp). by apply list_elem_of_fmap_2. }
    apply list_elem_of_fmap in Hin as (q' & -> & Hq').
    rewrite Forall_forall in Hlt. specialize (Hlt q' Hq'). simpl in Hlt. lia.
Qed.

Lemma wf_turn (U : Utils) (K : Consts) (G G' : Game) (over : bool) :
  wf G → turn U K G = Ret (G', over) → wf G'.
Proof.
  intros Hwf H. destruct (turn_hands _ _ _ _ _ Hwf H)
    as (? & ? & ? & ? & ? & ? & ? & ? & ? & ? & ? & ? & ? & ? & ? & ? & ? & ? & ? & ? & Hwf').
  exact Hwf'.
Qed.

Lemma read_entry_ext (σ τ : list (list Z)) (e : Step) :
  Forall (λ l, deref σ l = deref τ l) (s_hands (state e) ++ s_hands (new_state e)) →
  read_entry σ e = read_entry τ e.
Proof.
  intros [H1 H2]%Forall_app. unfold read_entry, read_state.
  by rewrite (deref_fmap_ext _ _ _ H1), (deref_fmap_ext _ _ _ H2).
Qed.

(** An iteration keeps the entries recorded so far and what they hold. *)
Lemma turn_keeps_history (U : Utils) (K : Consts) (G G' : Game) (over : bool) :
  wf G → history_apart G → turn U K G = Ret (G', over) →
  history_apart G'
  ∧ history (env G) `prefix_of` history (env G')
  ∧ ∀ e, e ∈ history (env G) →
      read_entry (store (world G')) e = read_entry (store (world G)) e.
Proof.
  intros Hwf Hap H. pose proof Hwf as (Hnd & Hlt & Hlen & Hc).
  destruct (turn_store _ _ _ _ _ Hwf H)
    as (p & e & Hp & Hhands & Hhist & Hs1 & Hs2 & Hlen' & Hkeep & _ & _).
  simpl in *.
  assert (∀ l, l ∈ hand <$> players (env G) → (l < length (store (world G)))%nat) as Hpl.
  { intros l (q & -> & Hq)%list_elem_of_fmap. rewrite Forall_forall in Hlt. by apply Hlt. }
  split_and!.
  - unfold history_apart. rewrite Hhist, Hhands, Hlen'. apply Forall_app. split.
    + eapply Forall_impl; [exact Hap|]. intros e' He'. simpl in He'.
      eapply Forall_impl; [exact He'|]. intros l [Hl Hnl]. simpl in *. split; [lia|done].
    + apply Forall_singleton. rewrite Hs1, Hs2. apply Forall_app.
      split; apply Forall_seq; intros l Hl; (split; [lia|]);
        intros Hin%Hpl; lia.
  - rewrite Hhist. by apply prefix_app_r.
  - intros e' He'. apply read_entry_ext.
    unfold history_apart in Hap. rewrite Forall_forall in Hap. specialize (Hap e' He').
    eapply Forall_impl; [exact Hap|]. intros l [Hl Hnl]. simpl in *.
    apply Hkeep; [|done]. intros ->. apply Hnl.
    apply list_elem_of_fmap. exists p. split; [done|]. by eapply list_elem_of_lookup_2.
Qed.

Lemma runs_keeps_history (U : Utils) (K : Consts) (G G' : Game) :
  runs U K G G' → wf G → history_apart G →
  wf G' ∧ history_apart G'
  ∧ history (env G) `prefix_of` history (env G')
  ∧ ∀ e, e ∈ history (env G) →
      read_entry (store (world G')) e = read_entry (store (world G)) e.
Proof.
  induction 1 as [G|G G1 G2 [over Hturn] _ IH]; intros Hwf Hap.
  - done.
  - destruct (turn_keeps_history _ _ _ _ _ Hwf Hap Hturn) as (Hap1 & Hpre1 & Hread1).
    destruct (IH (wf_turn _ _ _ _ _ Hwf Hturn) Hap1) as (Hwf2 & Hap2 & Hpre2 & Hread2).
    split_and!; try done.
    + by etrans.
    + intros e He. rewrite Hread2; [by apply Hread1|].
      by eapply elem_of_prefix.
Qed.

(** C9. Each iteration appends exactly one entry, for the current player,
    and the next iteration is the next seat's; the entry's two snapshots are
    copies that hold the hands before and after the move.  Whatever the game
    does afterwards, every entry recorded so far stays in the history, in
    place, and reads the same: later moves write to the players' arrays and
    never to the arrays of an entry. *)
Theorem history_immutable (U : Utils) (K : Consts) (G G1 G2 : Game) (over : bool) :
  wf G → history_apart G →
  turn U K G = Ret (G1, over) →
  runs U K G1 G2 →
  ∃ e, history (env G1) = history (env G) ++ [e]
    ∧ a_player (action e) = curr_player (vars G)
    ∧ (over = false →
       curr_player (vars G1)
       = ((curr_player (vars G) + 1) mod num_players (env G))%nat)
    ∧ deref (store (world G1)) <$> s_hands (state e) = hands_of G
    ∧ deref (store (world G1)) <$> s_hands (new_state e) = hands_of G1
    ∧ history (env G1) `prefix_of` history (env G2)
    ∧ ∀ e', e' ∈ history (env G1) →
        read_entry (store (world G2)) e' = read_entry (store (world G1)) e'.
Proof.
  intros Hwf Hap Hturn Hruns.
  destruct (turn_store _ _ _ _ _ Hwf Hturn)
    as (p & e & Hp & _ & Hhist & _ & _ & _ & _ & Hold & Hnew).
  destruct (turn_hands _ _ _ _ _ Hwf Hturn)
    as (? & ? & ? & ? & ? & ? & e0 & ? & ? & ? & ? & ? & ? & ? & ? & Hover & Hhist0
        & Hact & ? & Hvars & Hwf1).
  simpl in *. rewrite Hhist in Hhist0. apply app_inj_tail in Hhist0 as [_ <-].
  destruct (turn_keeps_history _ _ _ _ _ Hwf Hap Hturn) as (Hap1 & _ & _).
  destruct (runs_keeps_history _ _ _ _ Hruns Hwf1 Hap1) as (_ & _ & Hpre & Hread).
  exists e. split_and!; try done.
  - by rewrite Hact.
  - intros ->. by rewrite Hvars.
Qed.

(** ** Hands stay legal *)


Lemma offered_choices (U : Utils) (P : list Z → list Z → Prop) (h c : list Z) :
  choices U P → offered U h c → P h c.
Proof.
  intros [H1 H2] [(pat & lr & p & rk & H)|(line & pat & lr & p & rk & H)].
  - by eapply H1.
  - by eapply H2.
Qed.

Lemma within_hand_length (h c : list Z) :
  Forall2 (λ ci hi, 0 ≤ ci ≤ hi) c h → length c = length h.
Proof. apply Forall2_length. Qed.

Lemma isub_within (h c a : list Z) :
  Forall2 (λ ci hi, 0 ≤ ci ≤ hi) c h → isub h c = Ret a →
  Forall (Z.le 0) a ∧ np_sum a = np_sum h - np_sum c ∧ 0 ≤ np_sum c.
Proof.
  intros Hw Ha. pose proof (within_hand_length _ _ Hw) as Hlen.
  rewrite isub_same_shape in Ha by done. injection Ha as <-.
  split_and!.
  - clear Hlen. induction Hw as [|ci hi c h Hi Hw IH]; simpl; constructor; [lia|done].
  - by apply np_sum_zip_sub.
  - apply np_sum_nonneg. clear Hlen. induction Hw; constructor; [lia|done].
Qed.





(** ** Termination *)

Lemma swap_perm {A} (i j : nat) (x : list A) : swap i j x ≡ₚ x.
Proof.
  unfold swap. destruct (x !! i) as [a|] eqn:Hi; [|done].
  destruct (x !! j) as [b|] eqn:Hj; [|done].
  by apply Permutation_insert_swap.
Qed.

Lemma shuffle_from_perm {A} (i : nat) (x : list A) (g : Rng) :
  (shuffle_from i x g).1 ≡ₚ x.
Proof.
  revert x g. induction i as [|i IH]; intros x g; simpl; [done|].
  rewrite IH. apply swap_perm.
Qed.

(** [random.shuffle] permutes the list. *)
Lemma shuffle_perm {A} (x : list A) (g : Rng) : (shuffle x g).1 ≡ₚ x.
Proof. apply shuffle_from_perm. Qed.

Lemma np_sum_insert (l : list Z) (i : nat) (x y : Z) :
  l !! i = Some x → np_sum (<[i := y]> l) = np_sum l - x + y.
Proof.
  unfold np_sum. revert i. induction l as [|z l IH]; intros [|i] H; simpl in *;
    try discriminate.
  - injection H as ->. lia.
  - rewrite (IH _ H). lia.
Qed.

Lemma total_nonneg (G : Game) : hands_nonneg G → 0 ≤ total G.
Proof.
  intros H. unfold total. apply np_sum_nonneg. apply Forall_fmap.
  eapply Forall_impl; [exact H|]. intros a Ha. by apply np_sum_nonneg.
Qed.

(** A call of [NaivePlayer.move] returns when the moveset is not empty and
    the engine's choices have the hand's shape. *)
Lemma NaivePlayer_move_returns (U : Utils) (self : Player) (w : World)
    (pat : option string) (pc : option (list Z)) (lr : option Z) :
  moveset w ≠ [] →
  (∀ pat lr p c rk,
     smallest_valid_choice U (deref (store w) (hand self)) pat lr = (true, p, c, rk) →
     length c = length (deref (store w) (hand self))) →
  ∃ m, NaivePlayer_move U self w pat pc lr = Ret m.
Proof.
  intros Hms Hlen. unfold NaivePlayer_move. destruct (free self).
  - destruct (shuffle (moveset w) (random w)) as [ms g] eqn:Hsh. simpl.
    assert (ms ≠ []) as Hms'.
    { intros ->. pose proof (shuffle_perm (moveset w) (random w)) as Hp.
      rewrite Hsh in Hp. simpl in Hp. symmetry in Hp.
      by apply Permutation_nil_r in Hp. }
    destruct (try_patterns_returns U (deref (store w) (hand self)) ms Hms') as [r Hr].
    rewrite Hr. simpl. destruct r as [[[cp p] c] rk].
    apply try_patterns_Ret in Hr as (q & _ & Hr & _).
    destruct cp; simpl; [|by eexists].
    unfold subtract_choice. simpl.
    rewrite isub_same_shape by (by eapply Hlen). simpl. by eexists.
  - simpl.
    destruct (smallest_valid_choice U (deref (store w) (hand self)) pat lr)
      as [[[cp p] c] rk] eqn:Hr.
    destruct cp; simpl; [|by eexists].
    unfold subtract_choice.
    rewrite isub_same_shape by (by eapply Hlen). simpl. by eexists.
Qed.

Lemma play_choice_moveset (self : Player) (cp : bool) (ch : list Z) (w w' : World) :
  play_choice self cp ch w = Ret w' → moveset w' = moveset w.
Proof.
  intros H. apply play_choice_Ret in H. destruct cp; [|by subst].
  by destruct H as (a & _ & ->).
Qed.

(** An iteration of a game of automatic players returns, and this is what
    it does; [h] is the mover's hand. *)
Lemma naive_turn_run (U : Utils) (K : Consts) (G : Game) :
  engine_ok U K →
  wf G → all_naive G → hands_nonneg G → hands_ranked K G →
  moveset (world G) ≠ [] →
  ∃ G' over p (cp : bool) pat ch lr,
    let c := curr_player (vars G) in
    let h := hand_of (store (world G)) p in
    turn U K G = Ret (G', over)
    ∧ players (env G) !! c = Some p
    ∧ (if free (mover G p)
       then ∃ q, q ∈ moveset (world G')
              ∧ smallest_valid_choice U h (Some q) None = (cp, pat, ch, lr)
              ∧ (cp = false → ∀ q', q' ∈ moveset (world G') →
                   (smallest_valid_choice U h (Some q') None).1.1.1 = false)
       else smallest_valid_choice U h (pattern (vars G)) (leading_rank (vars G))
            = (cp, pat, ch, lr))
    ∧ moveset (world G') ≡ₚ moveset (world G)
    ∧ (if cp then ∃ a, hands_of G' = <[c := a]> (hands_of G)
                     ∧ Forall (Z.le 0) a ∧ length a = length h
                     ∧ np_sum a = np_sum h - np_sum ch ∧ 0 < np_sum ch
       else hands_of G' = hands_of G)
    ∧ hands_of G' !! c = Some (hand_of (store (world G')) p)
    ∧ over = (np_sum (hand_of (store (world G')) p) <=? 0)
    ∧ (∃ e, last (history (env G')) = Some e ∧ a_contains_pattern (action e) = cp)
    ∧ vars G' = {| curr_player := if over then c else ((c + 1) mod num_players (env G))%nat;
                   pattern := pat; prev_choice := Some ch; leading_rank := lr;
                   skip_count := if cp then O
                                 else S (if freed G then O else skip_count (vars G)) |}
    ∧ players (env G') = <[c := set_free false p]> (players (env G))
    ∧ num_players (env G') = num_players (env G)
    ∧ wf G'.
Proof.
  intros Hok Hwf Hnaive Hnn Hrk Hq.
  pose proof Hwf as (Hnd & Hlt & Hlen & Hc).
  destruct (lookup_lt_is_Some_2 (players (env G)) (curr_player (vars G))) as [p Hp];
    [lia|].
  set (h := hand_of (store (world G)) p).
  assert (policy_of p = NaivePlayer) as Hpol.
  { unfold all_naive in Hnaive. rewrite Forall_lookup in Hnaive. by eapply Hnaive. }
  assert (Forall (Z.le 0) h) as Hhn.
  { unfold hands_nonneg in Hnn. rewrite Forall_lookup in Hnn. eapply Hnn.
    by apply hands_of_lookup. }
  assert (length h = NUM_RANKS K) as Hhl.
  { unfold hands_ranked in Hrk. rewrite Forall_lookup in Hrk.
    eapply (Hrk _ _ (hands_of_lookup _ _ _ Hp)). }
  assert (hand p < length (store (world G)))%nat as Hpl.
  { rewrite Forall_lookup in Hlt. by eapply Hlt. }
  assert (hand (mover G p) = hand p) as Hh by (unfold mover; by destruct (freed G)).
  assert (policy_of (mover G p) = NaivePlayer) as Hpol'
    by (unfold mover; by destruct (freed G)).
  set (w1 := set_store (snapshot (store (world G)) (players (env G))) (world G)).
  assert (deref (store w1) (hand (mover G p)) = h) as Hd.
  { rewrite Hh. by apply hand_of_snapshot. }
  destruct (NaivePlayer_move_returns U (mover G p) w1 (pattern (vars G))
              (prev_choice (vars G)) (leading_rank (vars G))) as [m Hm].
  { done. }
  { rewrite Hd. intros pat lr p0 c rk E.
    destruct (Hok _ _ _ _ _ _ Hhn Hhl E) as (Hw & _). by eapply Forall2_length. }
  destruct m as [[[[[[cp pat] ch] lr] rem] p'] w'].
  pose proof (NaivePlayer_move_Ret _ _ _ _ _ _ _ _ _ _ _ _ _ Hm)
    as (Hp' & Heng & Hplay & Hrem).
  rewrite Hd in Heng. simpl in Heng.
  assert (∃ pat0 lr0, smallest_valid_choice U h pat0 lr0 = (cp, pat, ch, lr)) as Heng'.
  { destruct (free (mover G p)).
    - destruct Heng as (q' & _ & E & _). by eexists _, _.
    - by eexists _, _. }
  assert (turn U K G = Ret (after_move G p (cp, pat, ch, lr, rem, p', w'))) as Hturn.
  { apply turn_Ret. exists p. eexists. split; [done|]. split.
    - unfold move. rewrite Hpol'. exact Hm.
    - split; [|done]. simpl. intros ->. destruct Heng' as (pat0 & lr0 & E).
      by destruct (Hok _ _ _ _ _ _ Hhn Hhl E) as (_ & _ & Hcard). }
  destruct (after_move G p (cp, pat, ch, lr, rem, p', w')) as [G' over] eqn:HG'.
  destruct (turn_hands _ _ _ _ _ Hwf Hturn)
    as (p0 & cp0 & pat0 & ch0 & lr0 & rem0 & e & Hp0 & Hps & Hnum & Hhands & _ & _
        & Hc' & Hrem0 & Hover & Hhist & Hact & _ & Hvars & Hwf').
  simpl in *. rewrite Hp in Hp0. injection Hp0 as <-.
  assert (moveset (world G')
          = (if free (mover G p)
             then (shuffle (moveset (world G)) (random (world G))).1
             else moveset (world G))
          ∧ cp0 = cp ∧ ch0 = ch ∧ pat0 = pat ∧ lr0 = lr) as (Hms & -> & -> & -> & ->).
  { unfold after_move in HG'. injection HG' as <- _. simpl in *.
    rewrite app_inj_tail_iff in Hhist. destruct Hhist as [_ <-]. simpl in Hact.
    injection Hact as <- <- <- <-. split; [|done].
    rewrite (play_choice_moveset _ _ _ _ _ Hplay).
    by destruct (free (mover G p)). }
  fold h in Hhands.
  exists G', over, p, cp, pat, ch, lr. split; [done|]. split; [done|]. split.
  { destruct (free (mover G p)); [|done]. by rewrite Hms. }
  split.
  { rewrite Hms. destruct (free (mover G p)); [|done]. apply shuffle_perm. }
  split.
  { destruct cp; [|done]. destruct Hhands as (a & Ha & Hh').
    destruct Heng' as (pat1 & lr1 & E).
    destruct (Hok _ _ _ _ _ _ Hhn Hhl E) as (Hw & Hpos & _).
    destruct (isub_within _ _ _ Hw Ha) as (Han & Hsum & _).
    exists a. split_and!; try done.
    rewrite isub_same_shape in Ha by (by eapply Forall2_length).
    injection Ha as <-. rewrite length_zip_with. apply Forall2_length in Hw. subst h. lia. }
  split; [done|]. split; [by rewrite <- Hrem0|]. split.
  { exists e. split; [by rewrite Hhist, last_snoc|]. by rewrite Hact. }
  done.
Qed.

Lemma naive_turn (U : Utils) (K : Consts) (q : string) (G : Game) :
  engine_ok U K → opening U q → naive_inv K q G →
  ∃ G' over e,
    turn U K G = Ret (G', over)
    ∧ last (history (env G')) = Some e
    ∧ (a_contains_pattern (action e) = true → total G' < total G)
    ∧ (over = false → naive_inv K q G' ∧ (measure G' < measure G)%nat).
Proof.
  intros Hok Hopen (Hwf & Hnaive & Hnn & Hrk & Hq & Hskip).
  destruct (naive_turn_run U K G Hok Hwf Hnaive Hnn Hrk)
    as (G' & over & p & cp & pat & ch & lr & Hturn & Hp & Heng & Hms & Hhands' & Hc'
        & Hover & (e & Hlast & Hcp) & Hvars & Hps & Hnum & Hwf').
  { intros E. rewrite E in Hq. by apply elem_of_nil in Hq. }
  simpl in *. set (h := hand_of (store (world G)) p) in *.
  assert (policy_of p = NaivePlayer) as Hpol.
  { unfold all_naive in Hnaive. rewrite Forall_lookup in Hnaive. by eapply Hnaive. }
  assert (Forall (Z.le 0) h) as Hhn.
  { unfold hands_nonneg in Hnn. rewrite Forall_lookup in Hnn. eapply Hnn.
    by apply hands_of_lookup. }
  assert (hands_of G !! curr_player (vars G) = Some h) as Hhc
    by (by apply hands_of_lookup).
  assert (0 ≤ total G) as Htot by (by apply total_nonneg).
  assert (total G' = total G - (if cp then np_sum ch else 0)) as Htot'.
  { unfold total. destruct cp; [|rewrite Hhands'; lia].
    destruct Hhands' as (a & -> & _ & _ & Hsum & _).
    rewrite list_fmap_insert.
    rewrite (np_sum_insert _ _ (np_sum h)) by (by rewrite list_lookup_fmap, Hhc).
    lia. }
  exists G', over, e. split; [done|]. split; [done|].
  rewrite Hcp. split.
  { intros ->. destruct Hhands' as (a & _ & _ & _ & _ & Hpos). lia. }
  intros ->. symmetry in Hover. apply Z.leb_gt in Hover.
  assert (cp = false → 0 < np_sum h) as Hskipped.
  { intros ->. rewrite Hhands', Hhc in Hc'. by injection Hc' as ->. }
  assert (cp = false → freed G = false) as Hnotfree.
  { intros ->. destruct (freed G) eqn:Hfr; [|done]. exfalso.
    unfold mover in Heng. rewrite Hfr in Heng. simpl in Heng.
    destruct Heng as (q' & _ & _ & Hall).
    assert ((smallest_valid_choice U h (Some q) None).1.1.1 = true) as Hf
      by (apply Hopen; [done|by apply Hskipped]).
    rewrite (Hall eq_refl q) in Hf; [discriminate|]. by rewrite Hms. }
  assert (hands_nonneg G') as Hnn'.
  { unfold hands_nonneg. destruct cp; [|by rewrite Hhands'].
    destruct Hhands' as (a & -> & Han & _). by apply Forall_insert. }
  pose proof (total_nonneg _ Hnn') as Htotge.
  split.
  - split; [done|]. split_and!.
    + unfold all_naive. rewrite Hps. apply Forall_insert; [done|]. done.
    + done.
    + unfold hands_ranked. destruct cp; [|by rewrite Hhands'].
      destruct Hhands' as (a & -> & _ & Hal & _). apply Forall_insert; [done|].
      unfold hands_ranked in Hrk. rewrite Forall_lookup in Hrk.
      specialize (Hrk _ _ Hhc). lia.
    + by rewrite Hms.
    + rewrite Hvars, Hnum. simpl. destruct cp; [lia|].
      rewrite Hnotfree by done. unfold freed in Hnotfree.
      specialize (Hnotfree eq_refl). apply bool_decide_eq_false in Hnotfree. lia.
  - unfold measure. rewrite Hvars, Hnum. simpl. destruct cp.
    + destruct Hhands' as (a & _ & _ & _ & _ & Hpos).
      assert (Z.to_nat (total G') + 1 ≤ Z.to_nat (total G))%nat as Ht by lia.
      nia.
    + rewrite Hnotfree by done. unfold freed in Hnotfree.
      specialize (Hnotfree eq_refl). apply bool_decide_eq_false in Hnotfree.
      replace (total G') with (total G) by lia. lia.
Qed.

Lemma naive_inv_reaches (U : Utils) (K : Consts) (q : string) (G G' : Game) :
  engine_ok U K → opening U q → reaches U K G G' →
  naive_inv K q G → naive_inv K q G'.
Proof.
  intros Hok Hopen. induction 1 as [G|G G1 G2 Hturn _ IH]; intros Hinv; [done|].
  apply IH. destruct (naive_turn _ _ _ _ Hok Hopen Hinv) as (G' & over & e & Ht & _ & _ & Hnext).
  unfold continues in Hturn. rewrite Hturn in Ht. injection Ht as <- <-.
  by apply Hnext.
Qed.

Lemma play_loop_terminates (U : Utils) (K : Consts) (q : string) (k : nat) :
  engine_ok U K → opening U q →
  ∀ G, naive_inv K q G → (measure G ≤ k)%nat →
       ∃ Gf, play_loop (S k) U K G = Ret Gf.
Proof.
  intros Hok Hopen. induction k as [|k IH]; intros G Hinv Hk.
  - destruct (naive_turn _ _ _ _ Hok Hopen Hinv) as (G' & over & e & Ht & _ & _ & Hnext).
    simpl. rewrite Ht. simpl. destruct over; [by eexists|].
    destruct (Hnext eq_refl) as [_ Hlt]. lia.
  - destruct (naive_turn _ _ _ _ Hok Hopen Hinv) as (G' & over & e & Ht & _ & _ & Hnext).
    change (play_loop (S (S k)) U K G)
      with (turn U K G ≫= λ '(G, over), if (over : bool) then Ret G
                                        else play_loop (S k) U K G).
    rewrite Ht. simpl. destruct over; [by eexists|].
    destruct (Hnext eq_refl) as [Hinv' Hlt]. apply IH; [done|lia].
Qed.

Lemma start_Ret (self : GameEnv) (w : World) (G0 : Game) :
  start self w = Ret G0 →
  moveset (world G0) = moveset w ∧ skip_count (vars G0) = O
  ∧ store (world G0) = store w ∧ history (env G0) = history self.
Proof.
  unfold start. intros H. inv_outcome. unfold randint in E.
  destruct (_ <? _); [discriminate|]. by inv_outcome.
Qed.

(** C3, as amended.  A game of automatic players whose moveset holds a
    pattern that every hand with a card can open with, and whose engine
    returns choices that lie within the hand, play at least one card and
    have a rank [CARDS] names, ends within [num_players * (cards + 1)]
    iterations of the loop, whatever the random generator produces; every
    iteration in which a pattern is played lowers the number of cards in the
    hands. *)
Theorem play_game_terminates (U : Utils) (K : Consts) (q : string) (self : GameEnv)
    (w : World) (G0 : Game) :
  engine_ok U K → opening U q → q ∈ moveset w →
  start self w = Ret G0 →
  wf G0 → all_naive G0 → hands_nonneg G0 → hands_ranked K G0 →
  (∃ hist Gf, play_game (bound G0) U K self w = Ret (hist, Gf))
  ∧ ∀ G G' over e,
      reaches U K G0 G → turn U K G = Ret (G', over) →
      last (history (env G')) = Some e → a_contains_pattern (action e) = true →
      total G' < total G.
Proof.
  intros Hok Hopen Hq Hstart Hwf Hnaive Hnn Hrk.
  destruct (start_Ret _ _ _ Hstart) as (Hms & Hskip & _).
  assert (naive_inv K q G0) as Hinv.
  { split_and!; try done; [by rewrite Hms|]. rewrite Hskip. destruct Hwf as (_ & _ & _ & Hc). lia. }
  split.
  - unfold play_game. rewrite Hstart. simpl.
    assert (bound G0 = S (measure G0)) as ->.
    { unfold bound, measure. rewrite Hskip. destruct Hwf as (_ & _ & _ & Hc). lia. }
    destruct (play_loop_terminates U K q (measure G0) Hok Hopen G0 Hinv) as [Gf HGf]; [done|].
    rewrite HGf. simpl. by eexists _, _.
  - intros G G' over e Hreach Hturn Hlast Hcp.
    pose proof (naive_inv_reaches _ _ _ _ _ Hok Hopen Hreach Hinv) as HinvG.
    destruct (naive_turn _ _ _ _ Hok Hopen HinvG) as (G1 & over1 & e1 & Ht & Hl & Hdec & _).
    rewrite Hturn in Ht. injection Ht as <- <-. rewrite Hlast in Hl. injection Hl as <-.
    by apply Hdec.
Qed.

(** ** Dealing *)

Lemma count_insert (a : list Z) (i r : nat) (x y : Z) :
  a !! i = Some x →
  count (<[i := y]> a) r = if decide (r = i) then y else count a r.
Proof.
  intros Hi. unfold count. case_decide as Hr.
  - subst. by rewrite list_lookup_insert_eq by (by eapply lookup_lt_Some).
  - by rewrite list_lookup_insert_ne.
Qed.

Lemma dealt_refl (cf hp : nat) (σ : list (list Z)) : dealt cf hp σ σ.
Proof. by repeat split. Qed.

Lemma dealt_trans (cf hp : nat) (σ1 σ2 σ3 : list (list Z)) :
  dealt cf hp σ1 σ2 → dealt cf hp σ2 σ3 → dealt cf hp σ1 σ3.
Proof.
  intros (L1 & O1 & S1 & A1 & B1) (L2 & O2 & S2 & A2 & B2). split_and!.
  - congruence.
  - intros l H1 H2. by rewrite O2, O1.
  - intros r. by rewrite S2, S1.
  - congruence.
  - congruence.
Qed.

Lemma deal_card_dealt (fuel : nat) (K : Consts) (cf hp : nat) (σ σ' : list (list Z))
    (g g' : Rng) :
  cf ≠ hp → (cf < length σ)%nat → (hp < length σ)%nat →
  deal_card fuel K cf hp σ g = Ret (σ', g') → dealt cf hp σ σ'.
Proof.
  intros Hne Hcf Hhp. revert g. induction fuel as [|fuel IH]; intros g H; simpl in H;
    [discriminate|].
  inv_outcome.
  destruct (deref σ cf !! Z.to_nat z) as [c|] eqn:Hc; [|discriminate].
  destruct (0 <? c); [|by eapply IH].
  rewrite deref_insert_ne in H by done.
  destruct (deref σ hp !! Z.to_nat z) as [x|] eqn:Hx; [|discriminate].
  injection H as <- <-. split_and!.
  - by rewrite !length_insert.
  - intros l H1 H2. by rewrite !deref_insert_ne.
  - intros rk. rewrite deref_insert_ne, !deref_insert_eq by (rewrite ?length_insert; done).
    rewrite (count_insert _ _ _ _ _ Hc), (count_insert _ _ _ _ _ Hx).
    case_decide as Hr; [|done]. subst.
    rewrite (count_lookup _ _ _ Hc), (count_lookup _ _ _ Hx). lia.
  - rewrite deref_insert_ne, deref_insert_eq by done. by rewrite length_insert.
  - rewrite deref_insert_eq by (by rewrite length_insert). by rewrite length_insert.
Qed.

Lemma deal_hand_dealt (fuel : nat) (K : Consts) (k : nat) (cf hp : nat)
    (σ σ' : list (list Z)) (g g' : Rng) :
  cf ≠ hp → (cf < length σ)%nat → (hp < length σ)%nat →
  deal_hand fuel K k cf hp σ g = Ret (σ', g') → dealt cf hp σ σ'.
Proof.
  intros Hne. revert σ g. induction k as [|k IH]; intros σ g Hcf Hhp H; simpl in H.
  - injection H as <- <-. apply dealt_refl.
  - inv_outcome. pose proof (deal_card_dealt _ _ _ _ _ _ _ _ Hne Hcf Hhp E) as Hd.
    eapply dealt_trans; [exact Hd|]. destruct Hd as (HL & _).
    eapply IH; [lia..|done].
Qed.

Lemma np_sum_perm (l l' : list Z) : l ≡ₚ l' → np_sum l = np_sum l'.
Proof. unfold np_sum. induction 1; simpl; lia. Qed.

Lemma rotate_perm {A} (o : nat) (l : list A) : drop o l ++ take o l ≡ₚ l.
Proof. rewrite Permutation_app_comm. by rewrite take_drop. Qed.

Lemma hand_make_players (b : bool) (hs : list nat) :
  length hs = 4%nat → hand <$> make_players b 4 hs = hs.
Proof.
  intros Hlen. unfold make_players. destruct b.
  - rewrite fmap_app, <- !list_fmap_compose, Hlen. simpl.
    rewrite !list_fmap_id. apply take_drop.
  - rewrite <- list_fmap_compose. simpl. rewrite list_fmap_id.
    apply take_ge. lia.
Qed.

Lemma count_replicate_0 (n r : nat) : count (replicate n 0) r = 0.
Proof.
  unfold count. destruct (replicate n 0 !! r) as [x|] eqn:H; [|done].
  by apply lookup_replicate in H as [-> _].
Qed.

Lemma count_scaled (a : list Z) (d : Z) (r : nat) :
  count ((λ x, x * d) <$> a) r = count a r * d.
Proof. unfold count. rewrite list_lookup_fmap. by destruct (a !! r). Qed.

(** Dealing to the first three hands moves cards out of the deck array and
    leaves every other array alone. *)
Lemma deal_Ret (fuel : nat) (K : Consts) (cpp : list nat) (cf h0 h1 h2 h3 : nat)
    (σ σ' : list (list Z)) (g g' : Rng) :
  NoDup [cf; h0; h1; h2] →
  Forall (λ l, l < length σ)%nat [cf; h0; h1; h2] →
  deal fuel K [0; 1; 2]%nat cpp [h0; h1; h2; h3] cf σ g = Ret (σ', g') →
  length σ' = length σ
  ∧ ∀ r, count (deref σ' cf) r + count (deref σ' h0) r
         + count (deref σ' h1) r + count (deref σ' h2) r
         = count (deref σ cf) r + count (deref σ h0) r
           + count (deref σ h1) r + count (deref σ h2) r.
Proof.
  intros Hnd Hlt H. simpl in H.
  inversion_clear Hnd as [|? ? Hcf Hnd']. inversion_clear Hnd' as [|? ? H0 Hnd''].
  inversion_clear Hnd'' as [|? ? H1 _].
  rewrite !not_elem_of_cons in Hcf. rewrite !not_elem_of_cons in H0.
  rewrite !not_elem_of_cons in H1.
  destruct Hcf as (? & ? & ? & _), H0 as (? & ? & _), H1 as (? & _).
  rewrite !Forall_cons in Hlt. destruct Hlt as (? & ? & ? & ? & _).
  destruct (cpp !! 0%nat) as [k0|]; [|discriminate].
  apply bind_Ret in H as ([σ1 g1] & E0 & H).
  destruct (cpp !! 1%nat) as [k1|]; [|discriminate].
  apply bind_Ret in H as ([σ2 g2] & E1 & H).
  destruct (cpp !! 2%nat) as [k2|]; [|discriminate].
  apply bind_Ret in H as ([σ3 g3] & E2 & H). injection H as <- <-.
  apply deal_hand_dealt in E0 as (L0 & O0 & S0 & _); [|done..].
  apply deal_hand_dealt in E1 as (L1 & O1 & S1 & _); [|congruence..].
  apply deal_hand_dealt in E2 as (L2 & O2 & S2 & _); [|congruence..].
  split; [congruence|]. intros r.
  specialize (S0 r). specialize (S1 r). specialize (S2 r).
  rewrite (O2 h0), (O2 h1), (O1 h0) by done.
  rewrite (O1 h2), (O0 h1), (O0 h2) in * by done. lia.
Qed.

Arguments deal : simpl never.

(** What [reset] leaves behind: four players whose hands are the deck array
    and the first three of the arrays created for the hands, in some
    rotation; together they hold the deck. *)
Lemma reset_Ret (fuel : nat) (K : Consts) (seed : option (nat → nat))
    (self self' : GameEnv) (w w' : World) :
  reset fuel K seed self w = Ret (self', w') →
  let L := length (store w) in
  num_players self = 4%nat
  ∧ num_players self' = 4%nat
  ∧ history self' = history self
  ∧ moveset w' = moveset w
  ∧ hand <$> players self' = hands self'
  ∧ hands self' ≡ₚ [S L; S (S L); S (S (S L)); L]
  ∧ length (store w') = (L + 5)%nat
  ∧ ∀ r, np_sum ((λ l, count (deref (store w') l) r) <$> hands self')
         = deck K (num_decks self) r.
Proof.
  unfold reset. intros H. simpl in H.
  destruct (CARDS_PER_PLAYER K !! _) as [cpp|]; [|discriminate].
  case_decide as Hn; [|by apply bind_Ret in H as (? & _ & ?)]. rewrite Hn in H. simpl in H.
  rewrite !length_app in H. simpl in H.
  set (L := length (store w)) in *.
  apply bind_Ret in H as ([σ1 g1] & Hdeal & H).
  set (o := Z.to_nat _) in H.
  injection H as <- <-. simpl.
  replace (L + 1)%nat with (S L) in * by lia.
  replace (S L + 1)%nat with (S (S L)) in * by lia.
  replace (S (S L) + 1)%nat with (S (S (S L))) in * by lia.
  set (hs := [S L; S (S L); S (S (S L)); L]).
  assert (drop o hs ++ take o hs ≡ₚ hs) as Hrot
    by apply rotate_perm.
  apply deal_Ret in Hdeal as [Hlen Hsum].
  2:{ repeat constructor; rewrite ?not_elem_of_cons; repeat split; try lia;
        apply not_elem_of_nil. }
  2:{ rewrite !length_app. simpl. repeat constructor; lia. }
  rewrite !length_app in Hlen. simpl in Hlen.
  split; [done|]. split; [done|]. split; [done|]. split; [done|]. split.
  { apply hand_make_players. rewrite (Permutation_length Hrot). done. }
  split; [done|]. split; [fold L; lia|].
  intros r. rewrite (np_sum_perm _ _ (fmap_Permutation _ _ _ Hrot)).
  unfold hs. simpl. specialize (Hsum r). unfold np_sum. simpl.
  rewrite <- !app_assoc in Hsum. simpl in Hsum.
  assert (∀ τ i, deref (store w ++ τ) (L + i) = τ !!! i) as Hd.
  { intros τ i. unfold deref, L. rewrite lookup_total_app_r by lia. f_equal. lia. }
  pose proof (Hd [(λ x : Z, x * Z.of_nat (num_decks self)) <$> CARD_FREQ K;
                  replicate (NUM_RANKS K) 0; replicate (NUM_RANKS K) 0;
                  replicate (NUM_RANKS K) 0; replicate (NUM_RANKS K) 0]) as Hd'.
  pose proof (Hd' 0%nat) as D0. pose proof (Hd' 1%nat) as D1.
  pose proof (Hd' 2%nat) as D2. pose proof (Hd' 3%nat) as D3. simpl in D0, D1, D2, D3.
  replace (L + 0)%nat with L in D0 by lia.
  replace (L + 1)%nat with (S L) in D1 by lia.
  replace (L + 2)%nat with (S (S L)) in D2 by lia.
  replace (L + 3)%nat with (S (S (S L))) in D3 by lia.
  rewrite D0, D1, D2, D3 in Hsum.
  rewrite !count_replicate_0, count_scaled in Hsum. unfold deck. lia.
Qed.

Lemma start_players (self : GameEnv) (w : World) (G0 : Game) :
  start self w = Ret G0 →
  hand <$> players (env G0) = hand <$> players self
  ∧ num_players (env G0) = num_players self
  ∧ (curr_player (vars G0) < length (players self))%nat.
Proof.
  unfold start. intros H. apply bind_Ret in H as ([c g] & _ & H).
  apply bind_Ret in H as (p & Hp & H). injection H as <-. simpl.
  unfold player_at in Hp. destruct (players self !! Z.to_nat c) as [p'|] eqn:Hc;
    [|discriminate]. injection Hp as ->.
  split; [by apply hand_insert_same|]. split; [done|]. by eapply lookup_lt_Some.
Qed.

(** A game that starts from [reset] is well formed and holds the deck. *)
Lemma reset_start_wf (fuel : nat) (K : Consts) (seed : option (nat → nat))
    (self self' : GameEnv) (w w' : World) (G0 : Game) :
  reset fuel K seed self w = Ret (self', w') →
  start self' w' = Ret G0 →
  wf G0 ∧ history (env G0) = history self
  ∧ ∀ r, held G0 r = deck K (num_decks self) r.
Proof.
  intros Hreset Hstart.
  destruct (reset_Ret _ _ _ _ _ _ _ Hreset)
    as (_ & Hn & Hhist & _ & Hhand & Hperm & Hlen & Hsum).
  destruct (start_Ret _ _ _ Hstart) as (_ & _ & Hstore & Hhist0).
  destruct (start_players _ _ _ Hstart) as (Hhand0 & Hn0 & Hc).
  assert (length (players self') = 4%nat) as Hlp.
  { rewrite <- (length_fmap hand), Hhand, (Permutation_length Hperm). done. }
  split_and!.
  - split_and!.
    + rewrite Hhand0, Hhand, Hperm.
      repeat constructor; rewrite ?not_elem_of_cons; repeat split; try lia;
        apply not_elem_of_nil.
    + assert (Forall (λ l, l < length (store (world G0)))%nat
                     (hand <$> players (env G0))) as HH; [|by apply Forall_fmap in HH].
      rewrite Hhand0, Hhand, Hperm, Hstore, Hlen. repeat constructor; lia.
    + rewrite <- (length_fmap hand), Hhand0, length_fmap. congruence.
    + congruence.
  - congruence.
  - intros r. rewrite <- Hsum. unfold held. rewrite hands_of_alt, Hhand0, Hhand, Hstore.
    by rewrite <- list_fmap_compose.
Qed.

Lemma played_in_snoc (h : list Step) (e : Step) (r : nat) :
  played_in (h ++ [e]) r
  = played_in h r + (if a_contains_pattern (action e)
                     then count (a_choice (action e)) r else 0).
Proof. unfold played_in. rewrite fmap_app, np_sum_app. unfold np_sum. simpl. lia. Qed.

(** An iteration moves cards from a hand to the history and changes nothing
    else. *)
Lemma conservation_turn (U : Utils) (K : Consts) (G G' : Game) (over : bool) (r : nat) :
  choices U same_shape → wf G → turn U K G = Ret (G', over) →
  held G' r + played G' r = held G r + played G r.
Proof.
  intros HU Hwf H.
  destruct (turn_hands _ _ _ _ _ Hwf H)
    as (p & cp & pat & ch & lr & rem & e & Hp & _ & _ & Hh & Hoff & _ & _ & _ & _
        & Hhist & Hact & _).
  simpl in *. unfold played. rewrite Hhist, played_in_snoc, Hact. simpl.
  destruct cp.
  - destruct Hh as (a & Ha & Hh). unfold held. rewrite Hh, list_fmap_insert.
    pose proof (offered_choices _ _ _ _ HU (Hoff eq_refl)) as Hshape.
    unfold same_shape in Hshape. rewrite isub_same_shape in Ha by done.
    injection Ha as <-.
    rewrite (np_sum_insert _ _ (count (hand_of (store (world G)) p) r)).
    + rewrite count_zip_sub by done. lia.
    + by rewrite list_lookup_fmap, (hands_of_lookup _ _ _ Hp).
  - unfold held. rewrite Hh. lia.
Qed.

(** C4. Conservation.  Right after [reset] (which needs four players) the
    four dealt hands together hold, at every rank, the deck's copy count
    [CARD_FREQ * num_decks]; and at every point of the game that follows,
    the counts of a rank in the players' hands plus its counts in the
    choices played in this game (the entries added to the history the
    environment had at [reset]) equal that copy count. *)
Theorem conservation (U : Utils) (K : Consts) (fuel : nat) (seed : option (nat → nat))
    (self0 : GameEnv) (w : World) (self : GameEnv) (w' : World) (G0 G : Game) (r : nat) :
  choices U same_shape →
  reset fuel K seed self0 w = Ret (self, w') →
  start self w' = Ret G0 →
  runs U K G0 G →
  num_players self0 = 4%nat
  ∧ length (hands self) = 4%nat
  ∧ np_sum ((λ l, count (deref (store w') l) r) <$> hands self)
    = deck K (num_decks self0) r
  ∧ held G r + (played G r - played_in (history self0) r) = deck K (num_decks self0) r.
Proof.
  intros HU Hinit Hstart Hruns.
  destruct (reset_Ret _ _ _ _ _ _ _ Hinit) as (Hn & _ & _ & _ & _ & Hperm & _ & Hsum).
  destruct (reset_start_wf _ _ _ _ _ _ _ _ Hinit Hstart) as (Hwf & Hhist & Hheld).
  simpl in *. split; [done|]. split; [by rewrite (Permutation_length Hperm)|].
  split; [done|].
  assert (held G0 r + played G0 r
          = deck K (num_decks self0) r + played_in (history self0) r) as H0.
  { unfold played. by rewrite Hhist, Hheld. }
  assert (held G r + played G r = held G0 r + played G0 r) as HG; [|lia].
  clear Hstart Hhist Hheld Hinit H0. revert Hwf.
  induction Hruns as [G|G G1 G2 [over Hturn] _ IH]; intros Hwf; [done|].
  rewrite IH by (by eapply wf_turn).
  by apply (conservation_turn _ _ _ _ _ _ HU Hwf Hturn).
Qed.

(** ** The piles dealt *)

Lemma Forall_nonneg_insert (a : list Z) (i : nat) (y : Z) :
  0 ≤ y → Forall (Z.le 0) a → Forall (Z.le 0) (<[i := y]> a).
Proof. intros Hy Ha. by apply Forall_insert. Qed.

Lemma deal_card_moved (fuel : nat) (K : Consts) (cf hp : nat) (σ σ' : list (list Z))
    (g g' : Rng) :
  cf ≠ hp → (cf < length σ)%nat → (hp < length σ)%nat →
  deal_card fuel K cf hp σ g = Ret (σ', g') → moved 1 cf hp σ σ'.
Proof.
  intros Hne Hcf Hhp H. split; [by eapply deal_card_dealt|].
  revert g H. induction fuel as [|fuel IH]; intros g H; simpl in H; [discriminate|].
  inv_outcome.
  destruct (deref σ cf !! Z.to_nat z) as [c|] eqn:Hc; [|discriminate].
  destruct (0 <? c) eqn:Hpos; [|by eapply IH].
  apply Z.ltb_lt in Hpos.
  rewrite deref_insert_ne in H by done.
  destruct (deref σ hp !! Z.to_nat z) as [x|] eqn:Hx; [|discriminate].
  injection H as <- <-.
  rewrite deref_insert_eq by (by rewrite length_insert).
  rewrite deref_insert_ne, deref_insert_eq by done.
  rewrite (np_sum_insert _ _ _ _ Hx), (np_sum_insert _ _ _ _ Hc).
  split_and!; [lia|lia|..].
  - intros Ha. apply Forall_nonneg_insert; [lia|done].
  - intros Ha. apply Forall_nonneg_insert; [|done].
    rewrite Forall_lookup in Ha. specialize (Ha _ _ Hx). simpl in Ha. lia.
Qed.

Lemma moved_trans (j k : nat) (cf hp : nat) (σ1 σ2 σ3 : list (list Z)) :
  moved j cf hp σ1 σ2 → moved k cf hp σ2 σ3 → moved (j + k) cf hp σ1 σ3.
Proof.
  intros (D1 & A1 & B1 & C1 & E1) (D2 & A2 & B2 & C2 & E2).
  split; [by eapply dealt_trans|]. split_and!; [lia|lia|tauto|tauto].
Qed.

Lemma deal_hand_moved (fuel : nat) (K : Consts) (k : nat) (cf hp : nat)
    (σ σ' : list (list Z)) (g g' : Rng) :
  cf ≠ hp → (cf < length σ)%nat → (hp < length σ)%nat →
  deal_hand fuel K k cf hp σ g = Ret (σ', g') → moved k cf hp σ σ'.
Proof.
  intros Hne. revert σ g. induction k as [|k IH]; intros σ g Hcf Hhp H; simpl in H.
  - injection H as <- <-. split; [apply dealt_refl|]. split_and!; [lia|lia|done|done].
  - inv_outcome. pose proof (deal_card_moved _ _ _ _ _ _ _ _ Hne Hcf Hhp E) as Hd.
    change (S k) with (1 + k)%nat. eapply moved_trans; [exact Hd|].
    destruct Hd as ((HL & _) & _).
    eapply IH; [lia..|done].
Qed.

Lemma moved_other (k : nat) (cf hp l : nat) (σ σ' : list (list Z)) :
  moved k cf hp σ σ' → l ≠ cf → l ≠ hp → deref σ' l = deref σ l.
Proof. intros ((_ & O & _) & _) ? ?. by apply O. Qed.

Lemma moved_keeps (k : nat) (cf hp l : nat) (σ σ' : list (list Z)) :
  moved k cf hp σ σ' →
  length (deref σ' l) = length (deref σ l)
  ∧ (Forall (Z.le 0) (deref σ l) → Forall (Z.le 0) (deref σ' l)).
Proof.
  intros ((_ & O & _ & Lc & Lh) & _ & _ & Nc & Nh).
  destruct (decide (l = cf)) as [->|Hc]; [done|].
  destruct (decide (l = hp)) as [->|Hh]; [done|].
  by rewrite O.
Qed.

(** Dealing to the first three hands: each receives the number of cards the
    table gives it, the deck array loses as many. *)
Lemma deal_piles (fuel : nat) (K : Consts) (cpp : list nat) (cf h0 h1 h2 h3 : nat)
    (σ σ' : list (list Z)) (g g' : Rng) :
  NoDup [cf; h0; h1; h2] →
  Forall (λ l, l < length σ)%nat [cf; h0; h1; h2] →
  deal fuel K [0; 1; 2]%nat cpp [h0; h1; h2; h3] cf σ g = Ret (σ', g') →
  ∃ k0 k1 k2,
    cpp !! 0%nat = Some k0 ∧ cpp !! 1%nat = Some k1 ∧ cpp !! 2%nat = Some k2
    ∧ np_sum (deref σ' h0) = np_sum (deref σ h0) + Z.of_nat k0
    ∧ np_sum (deref σ' h1) = np_sum (deref σ h1) + Z.of_nat k1
    ∧ np_sum (deref σ' h2) = np_sum (deref σ h2) + Z.of_nat k2
    ∧ np_sum (deref σ' cf) = np_sum (deref σ cf) - Z.of_nat (k0 + k1 + k2)
    ∧ ∀ l, length (deref σ' l) = length (deref σ l)
           ∧ (Forall (Z.le 0) (deref σ l) → Forall (Z.le 0) (deref σ' l)).
Proof.
  intros Hnd Hlt H. unfold deal in H.
  inversion_clear Hnd as [|? ? Hcf Hnd']. inversion_clear Hnd' as [|? ? H0 Hnd''].
  inversion_clear Hnd'' as [|? ? H1 _].
  rewrite !not_elem_of_cons in Hcf. rewrite !not_elem_of_cons in H0.
  rewrite !not_elem_of_cons in H1.
  destruct Hcf as (? & ? & ? & _), H0 as (? & ? & _), H1 as (? & _).
  rewrite !Forall_cons in Hlt. destruct Hlt as (? & ? & ? & ? & _).
  simpl in H.
  destruct (cpp !! 0%nat) as [k0|]; [|discriminate].
  apply bind_Ret in H as ([σ1 g1] & E0 & H).
  destruct (cpp !! 1%nat) as [k1|]; [|discriminate].
  apply bind_Ret in H as ([σ2 g2] & E1 & H).
  destruct (cpp !! 2%nat) as [k2|]; [|discriminate].
  apply bind_Ret in H as ([σ3 g3] & E2 & H). injection H as <- <-.
  apply deal_hand_moved in E0 as M0; [|done..].
  assert (length σ1 = length σ) as L1 by apply M0.
  apply deal_hand_moved in E1 as M1; [|congruence..].
  assert (length σ2 = length σ1) as L2 by apply M1.
  apply deal_hand_moved in E2 as M2; [|congruence..].
  exists k0, k1, k2. split_and!; try done.
  - rewrite (moved_other _ _ _ h0 _ _ M2), (moved_other _ _ _ h0 _ _ M1) by done.
    apply M0.
  - rewrite (moved_other _ _ _ h1 _ _ M2) by done.
    destruct M1 as (_ & -> & _). by rewrite (moved_other _ _ _ h1 _ _ M0).
  - destruct M2 as (_ & -> & _).
    by rewrite (moved_other _ _ _ h2 _ _ M1), (moved_other _ _ _ h2 _ _ M0).
  - destruct M2 as (_ & _ & -> & _), M1 as (_ & _ & -> & _), M0 as (_ & _ & -> & _). lia.
  - intros l.
    destruct (moved_keeps _ _ _ l _ _ M0) as [A0 B0].
    destruct (moved_keeps _ _ _ l _ _ M1) as [A1 B1].
    destruct (moved_keeps _ _ _ l _ _ M2) as [A2 B2].
    split; [congruence|tauto].
Qed.

Lemma np_sum_scaled (a : list Z) (d : Z) : np_sum ((λ x, x * d) <$> a) = np_sum a * d.
Proof.
  unfold np_sum. induction a as [|x a IH]; [done|].
  rewrite fmap_cons. simpl. rewrite IH. lia.
Qed.

Lemma Forall_nonneg_scaled (a : list Z) (d : nat) :
  Forall (Z.le 0) a → Forall (Z.le 0) ((λ x, x * Z.of_nat d) <$> a).
Proof. intros H. apply Forall_fmap. eapply Forall_impl; [exact H|]. simpl. intros; nia. Qed.

(** The four piles [reset] leaves in the store: the arrays created for the
    first three hands, each with the number of cards the table gives it, and
    the deck array with the cards that are left. *)
Lemma reset_piles (fuel : nat) (K : Consts) (seed : option (nat → nat))
    (self self' : GameEnv) (w w' : World) :
  reset fuel K seed self w = Ret (self', w') →
  ∃ cpp k0 k1 k2,
    let L := length (store w) in
    let σ' := store w' in
    let piles := [S L; S (S L); S (S (S L)); L] in
    CARDS_PER_PLAYER K !! (pretty (num_players self) +:+ "_" +:+ pretty (num_decks self))
      = Some cpp
    ∧ cpp !! 0%nat = Some k0 ∧ cpp !! 1%nat = Some k1 ∧ cpp !! 2%nat = Some k2
    ∧ (order self' < 4)%nat
    ∧ hands self' = drop (order self') piles ++ take (order self') piles
    ∧ players self' = make_players (has_user self) 4 (hands self')
    ∧ has_user self' = has_user self
    ∧ np_sum <$> (deref σ' <$> piles)
      = [Z.of_nat k0; Z.of_nat k1; Z.of_nat k2;
         np_sum (CARD_FREQ K) * Z.of_nat (num_decks self) - Z.of_nat (k0 + k1 + k2)]
    ∧ length <$> (deref σ' <$> piles)
      = [NUM_RANKS K; NUM_RANKS K; NUM_RANKS K; length (CARD_FREQ K)]
    ∧ (Forall (Z.le 0) (CARD_FREQ K) → Forall (Forall (Z.le 0)) (deref σ' <$> piles)).
Proof.
  unfold reset. intros H. simpl in H.
  destruct (CARDS_PER_PLAYER K !! _) as [cpp|]; [|discriminate].
  case_decide as Hn; [|by apply bind_Ret in H as (? & _ & ?)]. rewrite Hn in H. simpl in H.
  rewrite !length_app in H. simpl in H.
  set (L := length (store w)) in *.
  apply bind_Ret in H as ([σ1 g1] & Hdeal & H).
  set (o := Z.to_nat _) in H.
  assert (o < 4)%nat as Ho by (subst o; lia).
  injection H as <- <-. simpl.
  replace (L + 1)%nat with (S L) in * by lia.
  replace (S L + 1)%nat with (S (S L)) in * by lia.
  replace (S (S L) + 1)%nat with (S (S (S L))) in * by lia.
  apply deal_piles in Hdeal as (k0 & k1 & k2 & C0 & C1 & C2 & S0 & S1 & S2 & Sc & Hk).
  2:{ repeat constructor; rewrite ?not_elem_of_cons; repeat split; try lia;
        apply not_elem_of_nil. }
  2:{ rewrite !length_app. simpl. repeat constructor; lia. }
  exists cpp, k0, k1, k2.
  rewrite <- !app_assoc in *. simpl in *.
  assert (∀ τ i, deref (store w ++ τ) (L + i) = τ !!! i) as Hd.
  { intros τ i. unfold deref, L. rewrite lookup_total_app_r by lia. f_equal. lia. }
  pose proof (Hd [(λ x : Z, x * Z.of_nat (num_decks self)) <$> CARD_FREQ K;
                  replicate (NUM_RANKS K) 0; replicate (NUM_RANKS K) 0;
                  replicate (NUM_RANKS K) 0; replicate (NUM_RANKS K) 0]) as Hd'.
  pose proof (Hd' 0%nat) as D0. pose proof (Hd' 1%nat) as D1.
  pose proof (Hd' 2%nat) as D2. pose proof (Hd' 3%nat) as D3. simpl in D0, D1, D2, D3.
  replace (L + 0)%nat with L in D0 by lia.
  replace (L + 1)%nat with (S L) in D1 by lia.
  replace (L + 2)%nat with (S (S L)) in D2 by lia.
  replace (L + 3)%nat with (S (S (S L))) in D3 by lia.
  rewrite D0 in Sc. rewrite D1 in S0. rewrite D2 in S1. rewrite D3 in S2.
  rewrite np_sum_replicate_0 in S0, S1, S2. rewrite np_sum_scaled in Sc.
  pose proof (Hk L) as [LL NL]. pose proof (Hk (S L)) as [L0 N0].
  pose proof (Hk (S (S L))) as [L1 N1]. pose proof (Hk (S (S (S L)))) as [L2 N2].
  rewrite D0 in LL, NL. rewrite D1 in L0, N0. rewrite D2 in L1, N1. rewrite D3 in L2, N2.
  rewrite length_fmap in LL. rewrite length_replicate in L0, L1, L2.
  split_and!; try done.
  - by rewrite S0, S1, S2, Sc.
  - by rewrite LL, L0, L1, L2.
  - intros Hnn. pose proof (Forall_replicate (Z.le 0) (NUM_RANKS K) 0 (Z.le_refl 0)) as Hz.
    repeat constructor; auto using Forall_nonneg_scaled.
Qed.

Lemma fmap_rotate {A B} (f : A → B) (o : nat) (l : list A) :
  f <$> (drop o l ++ take o l) = drop o (f <$> l) ++ take o (f <$> l).
Proof. by rewrite fmap_app, fmap_drop, fmap_take. Qed.

Lemma Forall_rotate {A} (P : A → Prop) (o : nat) (l : list A) :
  Forall P l → Forall P (drop o l ++ take o l).
Proof. intros H. by rewrite rotate_perm. Qed.

(** The game [play_game] starts on what [reset] has dealt from a deck
    without negative counts: the hands are non-negative, and their sizes add
    up to the deck. *)
Lemma reset_start_hands (fuel : nat) (K : Consts) (seed : option (nat → nat))
    (self self' : GameEnv) (w w' : World) (G0 : Game) :
  reset fuel K seed self w = Ret (self', w') →
  start self' w' = Ret G0 →
  total G0 = np_sum (CARD_FREQ K) * Z.of_nat (num_decks self)
  ∧ (Forall (Z.le 0) (CARD_FREQ K) → hands_nonneg G0)
  ∧ (length (CARD_FREQ K) = NUM_RANKS K → hands_ranked K G0)
  ∧ (has_user self = false → all_naive G0).
Proof.
  intros Hreset Hstart.
  destruct (reset_piles _ _ _ _ _ _ _ Hreset)
    as (cpp & k0 & k1 & k2 & _ & _ & _ & _ & Ho & Hh & Hp & _ & Hs & Hl & Hnn).
  destruct (reset_Ret _ _ _ _ _ _ _ Hreset) as (_ & _ & _ & _ & Hhand & _).
  destruct (start_Ret _ _ _ Hstart) as (_ & _ & Hstore & _).
  destruct (start_players _ _ _ Hstart) as (Hhand0 & _ & _).
  assert (hands_of G0
          = deref (store w') <$> (drop (order self') [S (length (store w));
               S (S (length (store w))); S (S (S (length (store w)))); length (store w)]
             ++ take (order self') [S (length (store w));
               S (S (length (store w))); S (S (S (length (store w)))); length (store w)]))
    as Hhands.
  { by rewrite hands_of_alt, Hhand0, Hhand, Hstore, Hh. }
  split_and!.
  - unfold total. rewrite Hhands, !fmap_rotate, (np_sum_perm _ _ (rotate_perm _ _)), Hs.
    unfold np_sum. simpl. lia.
  - intros HF. unfold hands_nonneg. rewrite Hhands, fmap_rotate.
    by apply Forall_rotate, Hnn.
  - intros HL. unfold hands_ranked. rewrite Hhands, fmap_rotate.
    apply Forall_rotate. simpl in Hl |- *. injection Hl as E1 E2 E3 E4.
    repeat constructor; congruence.
  - intros Hu. unfold all_naive.
    unfold start in Hstart. apply bind_Ret in Hstart as ([c g] & _ & Hstart).
    apply bind_Ret in Hstart as (p & Hpl & Hstart). injection Hstart as <-. simpl.
    unfold player_at in Hpl.
    destruct (players self' !! Z.to_nat c) as [p'|] eqn:Hc; [|discriminate].
    injection Hpl as ->.
    assert (Forall (λ p, policy_of p = NaivePlayer) (players self')) as Hall.
    { rewrite Hp, Hu. unfold make_players. apply Forall_fmap. by apply Forall_true. }
    apply Forall_insert; [done|]. simpl.
    rewrite Forall_lookup in Hall. by apply (Hall _ _ Hc).
Qed.

(** ** The end of the game *)




(** ** The free player after the skips *)

Lemma skip_turn_count (U : Utils) (K : Consts) (G G' : Game) :
  skip_turn U K G G' →
  (S (skip_count (vars G)) < num_players (env G))%nat →
  skip_count (vars G') = S (skip_count (vars G))
  ∧ num_players (env G') = num_players (env G).
Proof.
  intros [Ht Hs] Hlt. apply turn_Ret in Ht as (p & m & Hp & Hm & _ & Hr).
  destruct m as [[[[[[cp pat] ch] lr] rem] p'] w'].
  unfold after_move in Hr. injection Hr as -> _.
  unfold skipped in Hs. simpl in Hs. rewrite last_snoc in Hs. simpl in Hs.
  apply negb_true_iff in Hs as ->. simpl.
  unfold freed. rewrite bool_decide_false by lia. done.
Qed.

Lemma skip_turns_count (U : Utils) (K : Consts) (k : nat) (G0 G : Game) :
  nsteps (skip_turn U K) k G0 G →
  (S (skip_count (vars G0) + k) ≤ num_players (env G0))%nat →
  skip_count (vars G) = (skip_count (vars G0) + k)%nat
  ∧ num_players (env G) = num_players (env G0).
Proof.
  induction 1 as [G|k G0 G1 G Hstep Hrest IH]; intros Hle.
  - split; [lia|done].
  - destruct (skip_turn_count _ _ _ _ Hstep) as [Hs Hn]; [lia|].
    destruct IH as [Hs' Hn']; [rewrite Hs, Hn; lia|].
    split; [lia|congruence].
Qed.

Lemma after_move_in_force (G : Game) (p : Player) m pat pc lr :
  after_move (in_force pat pc lr G) p m = after_move G p m.
Proof. by destruct m as [[[[[[cp pat' ] ch] lr'] rem] p'] w']. Qed.

(** C5. When the loop comes to a head with [skip_count] at
    [num_players - 1], as it does after [k] consecutive skips from a head
    with [skip_count] at [num_players - 1 - k], the iteration that follows
    marks the current player free and makes that player's move as a free
    one: [move] is called on the player with [free] set, and the iteration
    ends the same whatever pattern, previous choice and leading rank were in
    force (the automatic policy calls the engine without a leading rank, the
    interactive one validates against the cleared leading rank -1).
    [skip_count] restarts from 0: it is 0 after a play and 1 after a skip of
    the free player, and the move has used up the flag. *)
Theorem free_after_skips (U : Utils) (K : Consts) (k : nat) (G0 G G' : Game) (over : bool) :
  S (skip_count (vars G0) + k) = num_players (env G0) →
  nsteps (skip_turn U K) k G0 G →
  turn U K G = Ret (G', over) →
  ∃ p (cp : bool) pat ch lr rem p' w' e,
    let c := curr_player (vars G) in
    let w := set_store (snapshot (store (world G)) (players (env G))) (world G) in
    S (skip_count (vars G)) = num_players (env G)
    ∧ players (env G) !! c = Some p
    ∧ move U K (set_free true p) w (pattern (vars G)) (prev_choice (vars G))
           (leading_rank (vars G)) = Ret (cp, pat, ch, lr, rem, p', w')
    ∧ (∀ pat2 pc2 lr2, turn U K (in_force pat2 pc2 lr2 G) = Ret (G', over))
    ∧ skip_count (vars G') = (if cp then 0 else 1)%nat
    ∧ pattern (vars G') = pat ∧ leading_rank (vars G') = lr
    ∧ players (env G') !! c = Some (set_free false p)
    ∧ last (history (env G')) = Some e
    ∧ action e = {| a_player := c; a_contains_pattern := cp; a_pattern := pat;
                    a_choice := ch; a_leading_rank := lr |}
    ∧ (cp = true →
       match policy_of p with
       | NaivePlayer =>
           ∃ q, q ∈ moveset w'
              ∧ smallest_valid_choice U (hand_of (store w) p) (Some q) None
                = (true, pat, ch, lr)
       | UserPlayer =>
           ∃ line pat0, read_user_cards U line pat0 (Some (-1)) (hand_of (store w) p)
                        = (true, pat, ch, lr, true)
       end).
Proof.
  intros Hk Hsteps Ht.
  destruct (skip_turns_count _ _ _ _ _ Hsteps) as [Hs Hn]; [lia|].
  assert (freed G = true) as Hfr.
  { unfold freed. apply bool_decide_eq_true. lia. }
  pose proof Ht as Ht0.
  apply turn_Ret in Ht as (p & m & Hp & Hm & Hname & Hr).
  unfold mover in Hm. rewrite Hfr in Hm.
  destruct m as [[[[[[cp pat] ch] lr] rem] p'] w'].
  pose proof Hr as Hr0. unfold after_move in Hr. injection Hr as -> ->.
  eexists p, cp, pat, ch, lr, rem, p', w', _. simpl.
  split_and!.
  - lia.
  - done.
  - exact Hm.
  - intros pat2 pc2 lr2. apply turn_Ret. exists p, (cp, pat, ch, lr, rem, p', w').
    split; [done|]. split.
    { unfold mover. simpl. change (freed (in_force pat2 pc2 lr2 G)) with (freed G).
      rewrite Hfr. rewrite <- Hm. by apply move_free. }
    split; [done|]. by rewrite after_move_in_force.
  - by rewrite Hfr.
  - done.
  - done.
  - apply move_Ret in Hm as (-> & _). rewrite list_lookup_insert_eq; [done|].
    by eapply lookup_lt_Some.
  - by rewrite last_snoc.
  - done.
  - intros ->. unfold move in Hm. simpl in Hm. destruct (policy_of p) eqn:Hpol.
    + apply NaivePlayer_move_Ret in Hm as (_ & (q & Hq & Heng & _) & Hplay & _).
      apply play_choice_moveset in Hplay. simpl in *. exists q.
      split; [by rewrite Hplay|done].
    + unfold UserPlayer_move in Hm. inv_outcome.
      apply prompt_Ret in E as [-> (line & pat0 & Hread)]. by exists line, pat0.
Qed.

(** ** The engine of the specification meets what the game asks of it *)

Lemma np_sum_lookup_le (a : list Z) (i : nat) (x : Z) :
  Forall (Z.le 0) a → a !! i = Some x → x ≤ np_sum a.
Proof.
  unfold np_sum. intros H. revert i. induction H as [|y a Hy Ha IH]; intros [|i] Hi;
    simpl in *; try discriminate.
  - injection Hi as ->. pose proof (np_sum_nonneg _ Ha). unfold np_sum in *. lia.
  - specialize (IH _ Hi). lia.
Qed.

Lemma mark_nonneg (n : nat) (s : Shape) (r : nat) : Forall (Z.le 0) (mark n s r).
Proof.
  unfold mark. apply Forall_fmap, Forall_forall. intros i _. simpl.
  case_bool_decide; lia.
Qed.

(** On a hand without negative counts, the vector marked at an available
    start lies within the hand and holds a card. *)
Lemma mark_within (v : convention) (h : list Z) (s : Shape) (lr : option Z) (r : nat) :
  Forall (Z.le 0) h →
  available h s r && outranks v s lr r = true →
  Forall2 (λ ci hi, 0 ≤ ci ≤ hi) (mark (length h) s r) h
  ∧ 0 < np_sum (mark (length h) s r)
  ∧ (r + width s ≤ length h)%nat.
Proof.
  intros Hh Hok.
  pose proof (available_legal v h s lr r Hh Hok) as (_ & Hle & _).
  apply andb_true_iff in Hok as [Hav _]. apply available_spec in Hav as [Hav _].
  pose proof (width_pos s) as Hw. split_and!; [| |done].
  - apply Forall2_same_length_lookup. apply Forall2_same_length_lookup in Hle as [Hlen Hle].
    split; [done|]. intros i ci hi Hc Hi. split; [|by eapply Hle].
    pose proof (mark_nonneg (length h) s r) as Hm. rewrite Forall_lookup in Hm.
    by eapply Hm.
  - assert (Z.pos (copies s) ≤ np_sum (mark (length h) s r)); [|lia].
    apply (np_sum_lookup_le _ r); [apply mark_nonneg|].
    rewrite lookup_mark by lia. rewrite bool_decide_true; [done|lia].
Qed.

Lemma find_smallest_valid_choice_within (v : convention) (catalog : string → option Shape)
    (h : list Z) (pat : option string) (lr : option Z) p c rk :
  Forall (Z.le 0) h →
  find_smallest_valid_choice v catalog h pat lr = (true, p, c, rk) →
  Forall2 (λ ci hi, 0 ≤ ci ≤ hi) c h ∧ 0 < np_sum c
  ∧ ∃ k, rk = Some (Z.of_nat k) ∧ (k < length h)%nat.
Proof.
  intros Hh H. apply find_smallest_valid_choice_found in H
    as (s & r & _ & _ & -> & -> & Hr & Hok & _).
  destruct (mark_within v h s lr r Hh Hok) as (Hw & Hpos & Hrw).
  pose proof (width_pos s). split; [done|]. split; [done|].
  destruct v; simpl.
  - by exists r.
  - exists (r + width s - 1)%nat. split; [f_equal; lia|lia].
Qed.

(** What an accepted play of the operator is. *)
Lemma validate_user_cards_found (v : convention) (catalog : string → option Shape)
    (cards : gmap Z string) (line : string) (pat : option string) (lr : option Z)
    (h : list Z) p c rk :
  validate_user_cards v catalog cards line pat lr h = (true, p, c, rk, true) →
  ∃ s r, c = mark (length h) s r ∧ available h s r && outranks v s lr r = true.
Proof.
  unfold validate_user_cards. intros H. case_decide; [discriminate|].
  destruct (pat ≫= catalog) as [s|]; [|discriminate].
  destruct (resolve _ _ _) as [c'|]; [|discriminate].
  destruct (list_find _ _) as [[i r]|] eqn:Hfind; [|discriminate].
  injection H as _ <- _. apply list_find_Some in Hfind as (_ & [-> Hok] & _).
  by exists s, r.
Qed.

Lemma spec_same_shape (v : convention) (catalog : string → option Shape)
    (cards : gmap Z string) :
  choices (spec_utils v catalog cards) same_shape.
Proof.
  split; simpl.
  - intros h pat lr p c rk H. apply find_smallest_valid_choice_found in H
      as (s & r & _ & _ & -> & _). apply length_mark.
  - intros line pat lr h p c rk H.
    apply validate_user_cards_found in H as (s & r & -> & _). apply length_mark.
Qed.


Lemma spec_engine_ok (v : convention) (catalog : string → option Shape)
    (cards : gmap Z string) (K : Consts) :
  (∀ r, (r < NUM_RANKS K)%nat → is_Some (CARDS K !! Z.of_nat r)) →
  engine_ok (spec_utils v catalog cards) K.
Proof.
  intros HK h pat lr p c rk Hh Hlen H. simpl in H.
  destruct (find_smallest_valid_choice_within _ _ _ _ _ _ _ _ Hh H)
    as (Hw & Hpos & k & -> & Hk).
  split; [done|]. split; [done|]. simpl. apply HK. lia.
Qed.

Lemma spec_opening (v : convention) (catalog : string → option Shape)
    (cards : gmap Z string) (q : string) (s : Shape) :
  catalog q = Some s → width s = 1%nat → copies s = 1%positive →
  opening (spec_utils v catalog cards) q.
Proof.
  intros Hq Hw Hc h Hh Hsum. simpl.
  destruct (np_sum_pos_lookup _ Hh Hsum) as (r & x & Hr & Hx).
  apply (find_smallest_valid_choice_complete v catalog h (Some q) None s r); [done|].
  apply andb_true_iff. split; [|done]. apply available_spec.
  pose proof (lookup_lt_Some _ _ _ Hr). split; [lia|].
  intros i Hi. assert (i = r) as -> by lia. rewrite (count_lookup _ _ _ Hr), Hc. lia.
Qed.

Lemma sample_cards_named (r : nat) :
  (r < NUM_RANKS sample_consts)%nat → is_Some (CARDS sample_consts !! Z.of_nat r).
Proof.
  simpl. intros Hr.
  do 15 (destruct r as [|r]; [by eexists|]). lia.
Qed.

(** ** A game that never ends *)

Lemma no_pair (h : list Z) (pat : option string) (lr : option Z) :
  Forall (λ x, x < 2) h →
  pat = None ∨ pat = Some "1x2"%string →
  find_smallest_valid_choice Lowest sample_catalog h pat lr
  = (false, pat, replicate (length h) 0, lr).
Proof.
  intros Hh [->| ->]; [done|]. unfold find_smallest_valid_choice. simpl.
  destruct (list_find _ _) as [[i r]|] eqn:Hfind; [|done]. exfalso.
  apply list_find_Some in Hfind as (_ & Hok & _).
  apply andb_true_iff in Hok as [Hav _]. apply available_spec in Hav as [Hr Hav].
  simpl in *. specialize (Hav r ltac:(unfold width; simpl; lia)).
  destruct (lookup_lt_is_Some_2 h r) as [x Hx]; [unfold width in Hr; simpl in Hr; lia|].
  rewrite (count_lookup _ _ _ Hx) in Hav. rewrite Forall_lookup in Hh.
  specialize (Hh _ _ Hx). simpl in Hh. lia.
Qed.

Lemma sample_engine_ok : engine_ok sample_utils sample_consts.
Proof. apply spec_engine_ok, sample_cards_named. Qed.

Lemma stuck_turn (G : Game) :
  stuck G → ∃ G', turn sample_utils sample_consts G = Ret (G', false) ∧ stuck G'.
Proof.
  intros (Hwf & Hnaive & Hms & Hhands & Hpat).
  assert (Forall (λ a, Forall (Z.le 0) a ∧ length a = 15%nat
                       ∧ Forall (λ x, x < 2) a ∧ 0 < np_sum a) singles_hands) as Hall.
  { repeat constructor; simpl; try lia; try done. }
  destruct (naive_turn_run sample_utils sample_consts G sample_engine_ok Hwf Hnaive)
    as (G' & over & p & cp & pat & ch & lr & Hturn & Hp & Heng & Hms' & Hh' & Hc'
        & Hover & _ & Hvars & Hps & Hnum & Hwf').
  { unfold hands_nonneg. rewrite Hhands. eapply Forall_impl; [exact Hall|]. by intros a (? & _). }
  { unfold hands_ranked. rewrite Hhands. eapply Forall_impl; [exact Hall|]. by intros a (_ & ? & _). }
  { by rewrite Hms. }
  simpl in *.
  pose proof (hands_of_lookup _ _ _ Hp) as Hh. rewrite Hhands in Hh.
  rewrite Forall_lookup in Hall. destruct (Hall _ _ Hh) as (_ & _ & Hlt2 & Hpos).
  set (h := hand_of (store (world G)) p) in *.
  rewrite Hms in Hms'. apply Permutation_singleton_r in Hms'.
  assert (cp = false ∧ (pat = None ∨ pat = Some "1x2"%string)) as [-> Hpat'].
  { destruct (free (mover G p)).
    - destruct Heng as (q & Hq & E & _). rewrite Hms' in Hq.
      apply list_elem_of_singleton in Hq as ->.
      rewrite (no_pair h _ None Hlt2) in E by (by right).
      injection E as <- <- _ _. split; [done|by right].
    - rewrite (no_pair h _ _ Hlt2 Hpat) in Heng.
      injection Heng as <- <- _ _. done. }
  rewrite Hh' in Hc'. rewrite Hhands, Hh in Hc'. injection Hc' as Hc'.
  rewrite <- Hc' in Hover. assert (over = false) as -> by (rewrite Hover; apply Z.leb_gt; lia).
  exists G'. split; [done|]. split_and!; try done.
  - unfold all_naive. rewrite Hps. apply Forall_insert; [done|].
    unfold all_naive in Hnaive. rewrite Forall_lookup in Hnaive. by apply (Hnaive _ _ Hp).
  - congruence.
  - by rewrite Hvars.
Qed.

Lemma stuck_forever (fuel : nat) (G : Game) :
  stuck G → play_loop fuel sample_utils sample_consts G = Timeout.
Proof.
  revert G. induction fuel as [|fuel IH]; intros G HG; [done|].
  destruct (stuck_turn G HG) as (G' & Hturn & HG'). simpl. rewrite Hturn. simpl.
  by apply IH.
Qed.

(** A game of four automatic players on the sample deck, dealt so that
    nobody holds a pair and played with a moveset of pairs only: the
    environment is built, every player skips for ever, and [play_game]
    returns for no amount of fuel. *)
Lemma pairs_only_game_never_ends :
  ∃ self w,
    GameEnv_init 1 sample_consts 4 1 false (Some (tape singles_tape))
                 (sample_world pairs_only []) = Ret (self, w)
    ∧ Forall (λ p, policy_of p = NaivePlayer) (players self)
    ∧ ∀ fuel, play_game fuel sample_utils sample_consts self w = Timeout.
Proof.
  eexists _, _. split; [vm_compute; reflexivity|]. split; [by repeat constructor|].
  intros fuel. unfold play_game.
  match goal with |- context [start ?s ?w] =>
    destruct (start s w) as [G0| |] eqn:Hstart; [|vm_compute in Hstart; discriminate..]
  end.
  simpl. rewrite stuck_forever; [done|].
  vm_compute in Hstart. injection Hstart as <-.
  split_and!.
  - split_and!.
    + apply (bool_decide_unpack _). vm_compute. exact I.
    + apply (bool_decide_unpack _). vm_compute. exact I.
    + reflexivity.
    + simpl. lia.
  - by repeat constructor.
  - reflexivity.
  - vm_compute. reflexivity.
  - by left.
Qed.

(** ** The properties at work on the samples *)

Lemma table_start : start table_env table_world = Ret table_game.
Proof. reflexivity. Qed.

Lemma table_wf : wf table_game.
Proof.
  split_and!.
  - apply (bool_decide_unpack _). vm_compute. exact I.
  - apply (bool_decide_unpack _). vm_compute. exact I.
  - reflexivity.
  - simpl. lia.
Qed.

Lemma outrank_correctness_witness :
  find_smallest_valid_choice Lowest sample_catalog [0; 1; 0] (Some "1x1"%string) (Some 0)
  = (true, Some "1x1"%string, [0; 1; 0], Some 1)
  ∧ ∃ k, Some 1 = Some k ∧ 0 < k.
Proof.
  split; [reflexivity|].
  apply (outrank_correctness Lowest sample_catalog [0; 1; 0] (Some "1x1"%string) 0
           (Some "1x1"%string) [0; 1; 0] (Some 1)).
  reflexivity.
Defined.

Lemma minimality_witness :
  ∃ r0, Some 1 = Some (representative Lowest
                         {| distinct_ranks := 1; copies := 2; contiguous := true |} r0)
    ∧ r0 = 1%nat
    ∧ legal Lowest [2; 2; 1; 2] {| distinct_ranks := 1; copies := 2; contiguous := true |}
            (Some 0) r0 [0; 2; 0; 0].
Proof.
  destruct (minimality Lowest sample_catalog [2; 2; 1; 2] (Some "1x2"%string) (Some 0)
              {| distinct_ranks := 1; copies := 2; contiguous := true |}
              (Some "1x2"%string) [0; 2; 0; 0] (Some 1))
    as (r0 & Hrk & _ & _ & _ & _ & Hlegal & _); [reflexivity|reflexivity|].
  exists r0. split; [exact Hrk|]. split.
  - simpl in Hrk. injection Hrk as Hrk. lia.
  - apply Hlegal. repeat constructor; discriminate.
Defined.

Lemma user_move_clears_free_witness :
  ∃ pat ch lr rem self' w',
    UserPlayer_move sample_utils sample_consts operator operator_world None None None
    = Ret (false, pat, ch, lr, rem, self', w')
    ∧ free self' = false.
Proof.
  destruct (UserPlayer_move sample_utils sample_consts operator operator_world
              None None None) as [[[[[[[cp pat] ch] lr] rem] self'] w']| |] eqn:H;
    [|vm_compute in H; discriminate..].
  assert (cp = false) as -> by (vm_compute in H; congruence).
  exists pat, ch, lr, rem, self', w'. split; [reflexivity|].
  exact (user_move_clears_free _ _ _ _ _ _ _ _ _ _ _ _ _ _ H).
Defined.

Lemma free_after_skips_witness :
  ∃ G0 G1 G4 G5 e,
    start table_env lead_world = Ret G0
    ∧ turn sample_utils sample_consts G0 = Ret (G1, false)
    ∧ nsteps (skip_turn sample_utils sample_consts) 3 G1 G4
    ∧ leading_rank (vars G4) = Some 3
    ∧ turn sample_utils sample_consts G4 = Ret (G5, false)
    ∧ (∀ pat pc lr,
         turn sample_utils sample_consts (in_force pat pc lr G4) = Ret (G5, false))
    ∧ last (history (env G5)) = Some e
    ∧ a_contains_pattern (action e) = true
    ∧ a_leading_rank (action e) = Some 0
    ∧ skip_count (vars G5) = 0%nat.
Proof.
  assert (∃ G0 G1 G2 G3 G4 G5,
            start table_env lead_world = Ret G0
            ∧ turn sample_utils sample_consts G0 = Ret (G1, false)
            ∧ skip_turn sample_utils sample_consts G1 G2
            ∧ skip_turn sample_utils sample_consts G2 G3
            ∧ skip_turn sample_utils sample_consts G3 G4
            ∧ turn sample_utils sample_consts G4 = Ret (G5, false)
            ∧ (skip_count (vars G1), num_players (env G1), leading_rank (vars G4))
              = (0%nat, 4%nat, Some 3)
            ∧ (a_contains_pattern <$> (action <$> last (history (env G5))),
               a_leading_rank <$> (action <$> last (history (env G5))))
              = (Some true, Some (Some 0)))
    as (G0 & G1 & G2 & G3 & G4 & G5 & H0 & H1 & H2 & H3 & H4 & H5 & H6 & H7).
  { eexists _, _, _, _, _, _.
    split; [vm_compute; reflexivity|].
    split; [vm_compute; reflexivity|].
    split; [split; vm_compute; reflexivity|].
    split; [split; vm_compute; reflexivity|].
    split; [split; vm_compute; reflexivity|].
    split; [vm_compute; reflexivity|].
    split; vm_compute; reflexivity. }
  injection H6 as Hs Hn Hlr.
  assert (nsteps (skip_turn sample_utils sample_consts) 3 G1 G4) as Hsteps.
  { eapply nsteps_l; [exact H2|]. eapply nsteps_l; [exact H3|].
    eapply nsteps_l; [exact H4|]. apply nsteps_O. }
  destruct (free_after_skips sample_utils sample_consts 3 G1 G4 G5 false)
    as (p & cp & pat & ch & lr & rem & p' & w' & e & _ & _ & _ & Hany & Hskip & _ & _ & _
        & Hlast & Hact & _);
    [rewrite Hs, Hn; reflexivity|exact Hsteps|exact H5|].
  rewrite Hlast in H7. simpl in H7. rewrite Hact in H7. simpl in H7.
  injection H7 as Hcp Hrank. subst cp.
  exists G0, G1, G4, G5, e. split_and!; try done.
  - by rewrite Hact.
  - by rewrite Hact.
Defined.

Lemma reward_policy_witness :
  ∃ G' over e,
    turn sample_utils sample_consts table_game = Ret (G', over)
    ∧ last (history (env G')) = Some e
    ∧ reward e = 10%Q.
Proof.
  destruct (turn sample_utils sample_consts table_game) as [[G' over]| |] eqn:H;
    [|vm_compute in H; discriminate..].
  destruct (reward_policy sample_utils sample_consts table_game G' over
              (set_free true (seat NaivePlayer 0)) table_wf)
    as (e & Hlast & _ & Hwin & _); [reflexivity|exact H|].
  exists G', over, e. split; [reflexivity|]. split; [exact Hlast|].
  apply Hwin. vm_compute in H. injection H as <- _. reflexivity.
Defined.

(** A skip that is not recorded with -0.1: the first seat, which has won
    the first [play_game] on the small table, starts the second one with an
    empty hand; its skip leaves the remainder at 0 and is rewarded 10. *)
Lemma skip_rewarded_ten :
  ∃ h1 G1 h2 G2 e,
    play_game 1 sample_utils sample_consts table_env table_world = Ret (h1, G1)
    ∧ play_game 1 sample_utils sample_consts (env G1) (world G1) = Ret (h2, G2)
    ∧ last h2 = Some e
    ∧ a_contains_pattern (action e) = false
    ∧ reward e = 10%Q
    ∧ ¬ (reward e == -0.1)%Q.
Proof.
  eexists _, _, _, _, _.
  split; [vm_compute; reflexivity|].
  split; [vm_compute; reflexivity|].
  split; [vm_compute; reflexivity|].
  split; [reflexivity|]. split; [reflexivity|]. simpl. discriminate.
Qed.

Lemma hand_ownership_witness :
  ∃ G' over,
    turn sample_utils sample_consts table_game = Ret (G', over)
    ∧ hand_of (store (world G')) (seat NaivePlayer 1)
      = hand_of (store (world table_game)) (seat NaivePlayer 1).
Proof.
  destruct (turn sample_utils sample_consts table_game) as [[G' over]| |] eqn:H;
    [|vm_compute in H; discriminate..].
  destruct (hand_ownership sample_utils sample_consts table_game G' over table_wf H)
    as (p & e & _ & _ & Hothers & _).
  exists G', over. split; [reflexivity|].
  by destruct (Hothers 1%nat (seat NaivePlayer 1)).
Defined.

Lemma history_immutable_witness :
  ∃ G1 over e,
    turn sample_utils sample_consts table_game = Ret (G1, over)
    ∧ history (env G1) = [e]
    ∧ deref (store (world G1)) <$> s_hands (state e) = table_hands.
Proof.
  destruct (turn sample_utils sample_consts table_game) as [[G1 over]| |] eqn:H;
    [|vm_compute in H; discriminate..].
  destruct (history_immutable sample_utils sample_consts table_game G1 G1 over table_wf)
    as (e & Hhist & _ & _ & Hold & _); [by constructor|exact H|by constructor|].
  exists G1, over, e. split; [reflexivity|]. split; [exact Hhist|exact Hold].
Defined.




Lemma conservation_witness :
  ∃ self w G0,
    GameEnv_init 1 sample_consts 4 1 false (Some (tape singles_tape))
                 (sample_world ["1x1"; "1x2"]%string []) = Ret (self, w)
    ∧ start self w = Ret G0
    ∧ held G0 0 + (played G0 0 - 0) = 4.
Proof.
  destruct (GameEnv_init 1 sample_consts 4 1 false (Some (tape singles_tape))
              (sample_world ["1x1"; "1x2"]%string [])) as [[self w]| |] eqn:Hinit;
    [|vm_compute in Hinit; discriminate..].
  destruct (start self w) as [G0| |] eqn:Hstart.
  - exists self, w, G0. split; [reflexivity|]. split; [exact Hstart|].
    by destruct (conservation sample_utils sample_consts 1 (Some (tape singles_tape)) _
                   (sample_world ["1x1"; "1x2"]%string [])
                   self w G0 G0 0 (spec_same_shape _ _ _) Hinit Hstart
                   (rtc_refl (turns_to sample_utils sample_consts) G0))
      as (_ & _ & _ & Hcons).
  - vm_compute in Hinit. injection Hinit as <- <-. vm_compute in Hstart. discriminate.
  - vm_compute in Hinit. injection Hinit as <- <-. vm_compute in Hstart. discriminate.
Defined.

Lemma sample_opening : opening sample_utils "1x1".
Proof.
  by apply (spec_opening Lowest sample_catalog (CARDS sample_consts) "1x1"
              {| distinct_ranks := 1; copies := 1; contiguous := true |}).
Qed.

Lemma play_game_terminates_witness :
  ∃ hist Gf,
    play_game (bound table_game) sample_utils sample_consts table_env table_world
    = Ret (hist, Gf).
Proof.
  destruct (play_game_terminates sample_utils sample_consts "1x1" table_env table_world
              table_game sample_engine_ok sample_opening) as [Hends _].
  - apply (bool_decide_unpack _). vm_compute. exact I.
  - exact table_start.
  - exact table_wf.
  - by repeat constructor.
  - by repeat constructor.
  - by repeat constructor.
  - exact Hends.
Defined.

(** The operator, free to open, is asked again after an unknown pattern, a
    card the hand lacks, an unknown character and a pair typed for a single,
    and then plays the three; the line typed after it is left unread. *)
Example operator_reprompted :
  ∃ self' w',
    UserPlayer_move sample_utils sample_consts operator
      (set_stdin ["9x9"; "1x2"; "4"; "1x1"; "x"; "1x1"; "33"; "1x1"; "3"; "zzz"]%string
                 operator_world)
      None None None
    = Ret (true, Some "1x1"%string, [1] ++ replicate 14 0, Some 0, 0, self', w')
    ∧ free self' = false ∧ stdin w' = ["zzz"%string].
Proof. eexists _, _. split; [vm_compute; reflexivity|]. by split. Qed.

(** A whole game on the sample deck, dealt and played with the generator
    that counts 0, 1, 2, ...: it ends after 59 turns, won by the third
    seat. *)
Example sample_game_ends :
  ∃ self w hist G,
    GameEnv_init 3 sample_consts 4 1 false (Some (λ i, i))
                 (sample_world ["1x1"; "1x2"; "3x2"]%string []) = Ret (self, w)
    ∧ play_game 59 sample_utils sample_consts self w = Ret (hist, G)
    ∧ length hist = 59%nat ∧ curr_player (vars G) = 2%nat.
Proof.
  eexists _, _, _, _. split; [vm_compute; reflexivity|].
  split; [vm_compute; reflexivity|]. by split.
Qed.

(** ** More about dealing *)

Lemma randint_Ret (a b z : Z) (g g' : Rng) :
  randint a b g = Ret (z, g') →
  a ≤ z ≤ b ∧ g' = {| tape := tape g; pos := S (pos g) |}.
Proof.
  unfold randint, randbelow. destruct (b <? a) eqn:Hba; [discriminate|].
  apply Z.ltb_ge in Hba. intros H. injection H as <- <-. split; [|done].
  assert (tape g (pos g) mod Z.to_nat (b - a + 1) < Z.to_nat (b - a + 1))%nat
    by (apply Nat.mod_upper_bound; lia).
  lia.
Qed.

(** With a deck array and a hand of at least [NUM_RANKS] counts, dealing a
    card raises nothing: it returns or is still drawing. *)
Lemma deal_card_runs (fuel : nat) (K : Consts) (cf hp : nat) (σ : list (list Z)) (g : Rng) :
  (0 < NUM_RANKS K)%nat →
  (NUM_RANKS K ≤ length (deref σ cf))%nat → (NUM_RANKS K ≤ length (deref σ hp))%nat →
  cf ≠ hp →
  deal_card fuel K cf hp σ g = Timeout ∨ ∃ r, deal_card fuel K cf hp σ g = Ret r.
Proof.
  intros HN Hcf Hhp Hne. revert g. induction fuel as [|fuel IH]; intros g; [by left|].
  simpl. unfold randint, randbelow.
  destruct (Z.of_nat (NUM_RANKS K) - 1 <? 0) eqn:Hlt; [apply Z.ltb_lt in Hlt; lia|].
  simpl. set (i := Z.to_nat _).
  assert (i < NUM_RANKS K)%nat as Hi.
  { subst i. rewrite Z.add_0_l, Nat2Z.id.
    replace (Z.to_nat (Z.of_nat (NUM_RANKS K) - 1 - 0 + 1)) with (NUM_RANKS K) by lia.
    apply Nat.mod_upper_bound. lia. }
  destruct (lookup_lt_is_Some_2 (deref σ cf) i) as [c Hc]; [lia|]. rewrite Hc.
  destruct (0 <? c); [|apply IH].
  rewrite deref_insert_ne by done.
  destruct (lookup_lt_is_Some_2 (deref σ hp) i) as [x Hx]; [lia|]. rewrite Hx.
  right. by eexists.
Qed.

(** When the hand is owed more cards than the deck array holds, the loop
    that deals them never ends. *)
Lemma deal_hand_short (fuel : nat) (K : Consts) (cf hp : nat) (k : nat) :
  (0 < NUM_RANKS K)%nat → cf ≠ hp →
  ∀ σ g,
    (cf < length σ)%nat → (hp < length σ)%nat →
    (NUM_RANKS K ≤ length (deref σ cf))%nat → (NUM_RANKS K ≤ length (deref σ hp))%nat →
    Forall (Z.le 0) (deref σ cf) → np_sum (deref σ cf) < Z.of_nat k →
    deal_hand fuel K k cf hp σ g = Timeout.
Proof.
  intros HN Hne. induction k as [|k IH]; intros σ g Lc Lh Hcf Hhp Hnn Hk.
  - apply np_sum_nonneg in Hnn. lia.
  - simpl. destruct (deal_card_runs fuel K cf hp σ g HN Hcf Hhp Hne) as [->|[[σ1 g1] E]];
      [done|].
    rewrite E. simpl.
    pose proof (deal_card_moved _ _ _ _ _ _ _ _ Hne Lc Lh E) as M.
    destruct (moved_keeps _ _ _ cf _ _ M) as [A1 B1].
    destruct (moved_keeps _ _ _ hp _ _ M) as [A2 _].
    destruct M as ((LL & _) & _ & Sc & _).
    apply IH; [lia|lia|lia|lia|tauto|lia].
Qed.

Lemma deal_hand_runs (fuel : nat) (K : Consts) (cf hp : nat) (k : nat) :
  (0 < NUM_RANKS K)%nat → cf ≠ hp →
  ∀ σ g,
    (cf < length σ)%nat → (hp < length σ)%nat →
    (NUM_RANKS K ≤ length (deref σ cf))%nat → (NUM_RANKS K ≤ length (deref σ hp))%nat →
    deal_hand fuel K k cf hp σ g = Timeout ∨ ∃ r, deal_hand fuel K k cf hp σ g = Ret r.
Proof.
  intros HN Hne. induction k as [|k IH]; intros σ g Lc Lh Hcf Hhp.
  - right. by eexists.
  - simpl. destruct (deal_card_runs fuel K cf hp σ g HN Hcf Hhp Hne) as [->|[[σ1 g1] E]];
      [by left|].
    rewrite E. simpl.
    pose proof (deal_card_moved _ _ _ _ _ _ _ _ Hne Lc Lh E) as M.
    destruct (moved_keeps _ _ _ cf _ _ M) as [A1 _].
    destruct (moved_keeps _ _ _ hp _ _ M) as [A2 _].
    destruct M as ((LL & _) & _).
    apply IH; lia.
Qed.

Lemma deal_short (fuel : nat) (K : Consts) (cpp : list nat) (k0 k1 k2 : nat)
    (cf h0 h1 h2 h3 : nat) (σ : list (list Z)) (g : Rng) :
  NoDup [cf; h0; h1; h2] →
  Forall (λ l, (l < length σ)%nat ∧ (NUM_RANKS K ≤ length (deref σ l))%nat) [cf; h0; h1; h2] →
  (0 < NUM_RANKS K)%nat →
  cpp !! 0%nat = Some k0 → cpp !! 1%nat = Some k1 → cpp !! 2%nat = Some k2 →
  Forall (Z.le 0) (deref σ cf) →
  np_sum (deref σ cf) < Z.of_nat (k0 + k1 + k2) →
  deal fuel K [0; 1; 2]%nat cpp [h0; h1; h2; h3] cf σ g = Timeout.
Proof.
  intros Hnd Hlt HN C0 C1 C2 Hnn Hk. unfold deal.
  inversion_clear Hnd as [|? ? Hcf Hnd']. inversion_clear Hnd' as [|? ? H0 Hnd''].
  inversion_clear Hnd'' as [|? ? H1 _].
  rewrite !not_elem_of_cons in Hcf. rewrite !not_elem_of_cons in H0.
  rewrite !not_elem_of_cons in H1.
  destruct Hcf as (? & ? & ? & _), H0 as (? & ? & _), H1 as (? & _).
  rewrite !Forall_cons in Hlt.
  destruct Hlt as ([? ?] & [? ?] & [? ?] & [? ?] & _).
  simpl. rewrite C0.
  destruct (deal_hand_runs fuel K cf h0 k0 HN ltac:(done) σ g) as [->|[[σ1 g1] E0]];
    [done..|]. rewrite E0. simpl. rewrite C1.
  apply deal_hand_moved in E0 as M0; [|done..].
  assert (length σ1 = length σ) as L1 by apply M0.
  assert (∀ l, length (deref σ1 l) = length (deref σ l)) as K1
    by (intros l; apply (moved_keeps _ _ _ l _ _ M0)).
  destruct (deal_hand_runs fuel K cf h1 k1 HN ltac:(done) σ1 g1) as [->|[[σ2 g2] E1]];
    [rewrite ?K1; lia..|done|]. rewrite E1. simpl. rewrite C2.
  apply deal_hand_moved in E1 as M1; [|lia..].
  assert (length σ2 = length σ1) as L2 by apply M1.
  assert (∀ l, length (deref σ2 l) = length (deref σ1 l)) as K2
    by (intros l; apply (moved_keeps _ _ _ l _ _ M1)).
  rewrite (deal_hand_short fuel K cf h2 k2 HN); [done|done|rewrite ?K2, ?K1; lia..| |].
  - apply (moved_keeps _ _ _ cf _ _ M1), (moved_keeps _ _ _ cf _ _ M0), Hnn.
  - destruct M1 as (_ & _ & -> & _), M0 as (_ & _ & -> & _). lia.
Qed.

(** X3. When the table asks for more cards for the first three players
    than the deck holds, the loop of lines 39-44 never finds a card for the
    hand it is dealing to: [reset] does not return and raises nothing,
    whatever the fuel and the random numbers. *)
Theorem reset_short_deck (fuel : nat) (K : Consts) (seed : option (nat → nat))
    (self : GameEnv) (w : World) (cpp : list nat) (k0 k1 k2 : nat) :
  num_players self = 4%nat →
  CARDS_PER_PLAYER K !! (pretty (num_players self) +:+ "_" +:+ pretty (num_decks self))
    = Some cpp →
  cpp !! 0%nat = Some k0 → cpp !! 1%nat = Some k1 → cpp !! 2%nat = Some k2 →
  (0 < NUM_RANKS K ≤ length (CARD_FREQ K))%nat →
  Forall (Z.le 0) (CARD_FREQ K) →
  np_sum (CARD_FREQ K) * Z.of_nat (num_decks self) < Z.of_nat (k0 + k1 + k2) →
  reset fuel K seed self w = Timeout.
Proof.
  intros Hn Hcpp C0 C1 C2 [HN HL] Hnn Hk. unfold reset. simpl. rewrite Hcpp.
  rewrite decide_True by done. rewrite Hn. simpl.
  rewrite !length_app. simpl. set (L := length (store w)).
  rewrite <- !app_assoc. simpl.
  assert (∀ τ i, deref (store w ++ τ) (L + i) = τ !!! i) as Hd.
  { intros τ i. unfold deref, L. rewrite lookup_total_app_r by lia. f_equal. lia. }
  pose proof (Hd [(λ x : Z, x * Z.of_nat (num_decks self)) <$> CARD_FREQ K;
                  replicate (NUM_RANKS K) 0; replicate (NUM_RANKS K) 0;
                  replicate (NUM_RANKS K) 0; replicate (NUM_RANKS K) 0]) as Hd'.
  pose proof (Hd' 0%nat) as D0. pose proof (Hd' 1%nat) as D1.
  pose proof (Hd' 2%nat) as D2. pose proof (Hd' 3%nat) as D3. simpl in D0, D1, D2, D3.
  replace (L + 0)%nat with L in D0 by lia.
  replace (L + 2)%nat with (L + 1 + 1)%nat in D2 by lia.
  replace (L + 3)%nat with (L + 1 + 1 + 1)%nat in D3 by lia.
  rewrite (deal_short fuel K cpp k0 k1 k2); [done| | |done..| |].
  - repeat constructor; rewrite ?not_elem_of_cons; repeat split; try lia;
      apply not_elem_of_nil.
  - rewrite !Forall_cons, Forall_nil.
    rewrite D0, D1, D2, D3, length_fmap, length_replicate, !length_app. simpl.
    fold L. lia.
  - rewrite D0. by apply Forall_nonneg_scaled.
  - rewrite D0, np_sum_scaled. done.
Qed.

Lemma reset_short_deck_witness :
  reset 9 short_consts None (new_env 4 1 false) (sample_world [] []) = Timeout.
Proof.
  apply (reset_short_deck 9 short_consts None (new_env 4 1 false) (sample_world [] [])
           [1; 1; 1; 1]%nat 1 1 1); try reflexivity.
  - simpl. lia.
  - by repeat constructor.
Defined.



(** X2. When [reset] returns, the first three piles hold the numbers of
    cards the table gives them and the fourth pile holds what is left of
    the deck ([cards_per_player[3]] is never read); the players hold the
    piles rotated by [order]. *)
Theorem reset_hand_sizes (fuel : nat) (K : Consts) (seed : option (nat → nat))
    (self self' : GameEnv) (w w' : World) :
  reset fuel K seed self w = Ret (self', w') →
  ∃ cpp k0 k1 k2,
    let sizes := [Z.of_nat k0; Z.of_nat k1; Z.of_nat k2;
                  np_sum (CARD_FREQ K) * Z.of_nat (num_decks self)
                  - Z.of_nat (k0 + k1 + k2)] in
    CARDS_PER_PLAYER K !! (pretty (num_players self) +:+ "_" +:+ pretty (num_decks self))
      = Some cpp
    ∧ cpp !! 0%nat = Some k0 ∧ cpp !! 1%nat = Some k1 ∧ cpp !! 2%nat = Some k2
    ∧ (order self' < 4)%nat
    ∧ (λ p, np_sum (hand_of (store w') p)) <$> players self'
      = drop (order self') sizes ++ take (order self') sizes.
Proof.
  intros H.
  destruct (reset_piles _ _ _ _ _ _ _ H)
    as (cpp & k0 & k1 & k2 & Hcpp & C0 & C1 & C2 & Ho & Hh & Hp & _ & Hs & _).
  exists cpp, k0, k1, k2. split_and!; try done.
  rewrite <- Hs, <- !fmap_rotate, <- Hh.
  destruct (reset_Ret _ _ _ _ _ _ _ H) as (_ & _ & _ & _ & <- & _).
  by rewrite <- !list_fmap_compose.
Qed.

Lemma reset_hand_sizes_witness :
  ∃ self w,
    GameEnv_init 1 sample_consts 4 1 false (Some (tape singles_tape))
                 (sample_world ["1x1"; "1x2"]%string []) = Ret (self, w)
    ∧ (λ p, np_sum (hand_of (store w) p)) <$> players self = [14; 14; 13; 13].
Proof.
  destruct (GameEnv_init 1 sample_consts 4 1 false (Some (tape singles_tape))
              (sample_world ["1x1"; "1x2"]%string [])) as [[self w]| |] eqn:Hinit;
    [|vm_compute in Hinit; discriminate..].
  exists self, w. split; [reflexivity|].
  destruct (reset_hand_sizes _ _ _ _ _ _ _ Hinit)
    as (cpp & k0 & k1 & k2 & Hcpp & C0 & C1 & C2 & Ho & ->).
  vm_compute in Hcpp. injection Hcpp as <-.
  injection C0 as <-. injection C1 as <-. injection C2 as <-.
  vm_compute in Hinit. injection Hinit as <- _. reflexivity.
Defined.

Lemma start_returns (self : GameEnv) (w : World) :
  length (players self) = num_players self → (0 < num_players self)%nat →
  ∃ G0, start self w = Ret G0.
Proof.
  intros Hlen Hn. unfold start.
  destruct (randint 0 (Z.of_nat (num_players self) - 1) (random w)) as [[c g]| |] eqn:Hr.
  - apply randint_Ret in Hr as [Hc _]. simpl. unfold player_at.
    destruct (lookup_lt_is_Some_2 (players self) (Z.to_nat c)) as [p Hp]; [lia|].
    rewrite Hp. simpl. by eexists.
  - unfold randint in Hr.
    destruct (Z.of_nat (num_players self) - 1 <? 0) eqn:Hlt; [apply Z.ltb_lt in Hlt; lia|].
    discriminate.
  - unfold randint in Hr. by destruct (Z.of_nat (num_players self) - 1 <? 0).
Qed.

(** X4. A game of four automatic players built by [GameEnv.__init__] from a
    deck without negative counts, one count per rank, is ready for
    [play_game]: with a moveset that holds an opening pattern and an engine
    that meets its contract, [play_game] returns within four iterations per
    card of the deck and four more. *)
Theorem fresh_game_terminates (U : Utils) (K : Consts) (q : string) (fuel : nat)
    (seed : option (nat → nat)) (decks : nat) (self : GameEnv) (w w' : World) :
  engine_ok U K → opening U q → q ∈ moveset w →
  Forall (Z.le 0) (CARD_FREQ K) → length (CARD_FREQ K) = NUM_RANKS K →
  GameEnv_init fuel K 4 decks false seed w = Ret (self, w') →
  ∃ hist Gf,
    play_game (4 * (Z.to_nat (np_sum (CARD_FREQ K) * Z.of_nat decks) + 1)) U K self w'
    = Ret (hist, Gf).
Proof.
  intros HU Hq Hin Hnn HL Hinit. unfold GameEnv_init in Hinit.
  destruct (reset_Ret _ _ _ _ _ _ _ Hinit) as (_ & Hn & _ & Hms & Hhand & Hperm & _).
  assert (length (players self) = 4%nat) as Hlp.
  { rewrite <- (length_fmap hand), Hhand, (Permutation_length Hperm). done. }
  destruct (start_returns self w') as [G0 Hstart]; [congruence|lia|].
  destruct (reset_start_wf _ _ _ _ _ _ _ _ Hinit Hstart) as (Hwf & _).
  destruct (reset_start_hands _ _ _ _ _ _ _ _ Hinit Hstart) as (Htot & H1 & H2 & H3).
  destruct (start_Ret _ _ _ Hstart) as (Hms0 & Hskip & _).
  destruct (start_players _ _ _ Hstart) as (_ & Hn0 & _).
  simpl in *.
  destruct (play_loop_terminates U K q (4 * Z.to_nat (total G0) + 3) HU Hq G0)
    as [Gf Hf].
  - split_and!; auto.
    + rewrite Hms0. congruence.
    + rewrite Hskip, Hn0, Hn. lia.
  - unfold measure. rewrite Hn0, Hn, Hskip. lia.
  - exists (history (env Gf)), Gf. unfold play_game.
    apply bind_Ret. exists G0. split; [done|].
    apply bind_Ret. exists Gf. split; [|done].
    rewrite <- Hf, Htot. f_equal. lia.
Qed.

Lemma fresh_game_terminates_witness :
  ∃ self w hist Gf,
    GameEnv_init 3 sample_consts 4 1 false (Some (λ i, i))
                 (sample_world ["1x1"; "1x2"; "3x2"]%string []) = Ret (self, w)
    ∧ play_game (4 * (Z.to_nat (np_sum (CARD_FREQ sample_consts) * Z.of_nat 1) + 1))
                sample_utils sample_consts self w = Ret (hist, Gf).
Proof.
  destruct (GameEnv_init 3 sample_consts 4 1 false (Some (λ i, i))
              (sample_world ["1x1"; "1x2"; "3x2"]%string [])) as [[self w]| |] eqn:Hinit;
    [|vm_compute in Hinit; discriminate..].
  exists self, w.
  assert ("1x1"%string ∈ moveset (sample_world ["1x1"; "1x2"; "3x2"]%string [])) as Hin
    by (simpl; by left).
  assert (Forall (Z.le 0) (CARD_FREQ sample_consts)) as Hnn
    by (simpl; repeat constructor; discriminate).
  destruct (fresh_game_terminates sample_utils sample_consts "1x1" 3 (Some (λ i, i)) 1
              self (sample_world ["1x1"; "1x2"; "3x2"]%string []) w
              sample_engine_ok sample_opening Hin Hnn eq_refl Hinit) as (hist & Gf & H).
  exists hist, Gf. split; [reflexivity|exact H].
Defined.

(** ** More about the history *)

(** X5. The entries a run of the loop adds to the history are in seat
    order: the [k]-th new entry is the move of the seat [k] places after the
    one the loop started with, both of its snapshots name that seat, and
    the final [curr_player], the winner announced, is the seat of the last
    entry. *)
Theorem history_turn_order (fuel : nat) (U : Utils) (K : Consts) (G Gf : Game) :
  wf G → play_loop fuel U K G = Ret Gf →
  ∃ es,
    history (env Gf) = history (env G) ++ es
    ∧ es ≠ []
    ∧ (∀ k e, es !! k = Some e →
         a_player (action e)
         = ((curr_player (vars G) + k) mod num_players (env G))%nat
         ∧ s_curr_player (state e) = a_player (action e)
         ∧ s_curr_player (new_state e) = a_player (action e))
    ∧ curr_player (vars Gf)
      = ((curr_player (vars G) + (length es - 1)) mod num_players (env G))%nat.
Proof.
  revert G. induction fuel as [|fuel IH]; intros G Hwf H; [discriminate|].
  simpl in H. apply bind_Ret in H as ([G1 over] & Hturn & H).
  pose proof (wf_turn _ _ _ _ _ Hwf Hturn) as Hwf1.
  destruct Hwf as (_ & _ & _ & Hc).
  apply turn_Ret in Hturn as (p & m & Hp & _ & _ & Hr).
  destruct m as [[[[[[cp pat] ch] lr] rem] p'] w'].
  unfold after_move in Hr. injection Hr as -> ->.
  destruct (rem <=? 0) eqn:Hrem.
  - injection H as <-. simpl. eexists [_]. split; [done|]. split; [done|]. split.
    + intros [|k] e He; [|done]. injection He as <-. simpl.
      rewrite Nat.add_0_r, Nat.mod_small by done. done.
    + simpl. rewrite Nat.add_0_r, Nat.mod_small by done. done.
  - destruct (IH _ Hwf1 H) as (es & Hhist & Hne & Hseats & Hlast). simpl in *.
    eexists (_ :: es). split; [by rewrite Hhist, <- app_assoc|]. split; [done|]. split.
    + intros [|k] e He.
      * injection He as <-. simpl. rewrite Nat.add_0_r, Nat.mod_small by done. done.
      * simpl in He. destruct (Hseats k e He) as (-> & -> & ->).
        rewrite Nat.Div0.add_mod_idemp_l. split; [f_equal; lia|done].
    + rewrite Hlast, Nat.Div0.add_mod_idemp_l. f_equal. simpl.
      destruct es; [done|]. simpl. lia.
Qed.

Lemma history_turn_order_witness :
  ∃ G0 Gf,
    start table_env lead_world = Ret G0
    ∧ play_loop 20 sample_utils sample_consts G0 = Ret Gf
    ∧ curr_player (vars Gf)
      = ((curr_player (vars G0) + (length (history (env Gf)) - 1)) mod 4)%nat.
Proof.
  destruct (start table_env lead_world) as [G0| |] eqn:H0;
    [|vm_compute in H0; discriminate..].
  destruct (play_loop 20 sample_utils sample_consts G0) as [Gf| |] eqn:Hf.
  2,3: vm_compute in H0; injection H0 as <-; vm_compute in Hf; discriminate.
  exists G0, Gf. split; [reflexivity|]. split; [exact Hf|].
  assert (wf G0 ∧ history (env G0) = [] ∧ num_players (env G0) = 4%nat) as (Hwf & Hh & Hn).
  { vm_compute in H0. injection H0 as <-. split; [|by split]. split_and!.
    - apply (bool_decide_unpack _). vm_compute. exact I.
    - apply (bool_decide_unpack _). vm_compute. exact I.
    - reflexivity.
    - simpl. lia. }
  destruct (history_turn_order 20 sample_utils sample_consts G0 Gf Hwf Hf)
    as (es & Hhist & _ & _ & Hlast).
  rewrite Hlast, Hhist, Hh, Hn. reflexivity.
Defined.

(** An iteration leaves the mover's flag down and the other flags as they
    were; its entry records the flag found at the head of the loop. *)
Lemma turn_flags (U : Utils) (K : Consts) (G G' : Game) (over : bool) :
  turn U K G = Ret (G', over) →
  ∃ p e,
    players (env G) !! curr_player (vars G) = Some p
    ∧ players (env G') = <[curr_player (vars G) := set_free false p]> (players (env G))
    ∧ history (env G') = history (env G) ++ [e]
    ∧ s_free (state e) = free p
    ∧ s_free (new_state e) = false.
Proof.
  intros H. apply turn_Ret in H as (p & m & Hp & Hm & _ & Hr).
  destruct m as [[[[[[cp pat] ch] lr] rem] p'] w'].
  apply move_Ret in Hm as (-> & _).
  unfold after_move in Hr. injection Hr as -> _. simpl.
  exists p. eexists. split; [done|]. split.
  { unfold mover. by destruct (freed G). }
  split; [done|]. split; [done|]. unfold mover. by destruct (freed G).
Qed.

Lemma quiet_loop (fuel : nat) (U : Utils) (K : Consts) (G Gf : Game) :
  Forall (λ p, free p = false) (players (env G)) →
  play_loop fuel U K G = Ret Gf →
  ∃ es, history (env Gf) = history (env G) ++ es
    ∧ Forall (λ e, s_free (state e) = false ∧ s_free (new_state e) = false) es
    ∧ Forall (λ p, free p = false) (players (env Gf)).
Proof.
  revert G. induction fuel as [|fuel IH]; intros G Hq H; [discriminate|].
  simpl in H. apply bind_Ret in H as ([G1 over] & Hturn & H).
  destruct (turn_flags _ _ _ _ _ Hturn) as (p & e & Hp & Hps & Hhist & Hs & Hn).
  assert (free p = false) as Hfp.
  { rewrite Forall_lookup in Hq. by apply (Hq _ _ Hp). }
  assert (Forall (λ p, free p = false) (players (env G1))) as Hq1.
  { rewrite Hps. by apply Forall_insert. }
  destruct over.
  - injection H as <-. exists [e]. split; [done|]. split; [|done].
    constructor; [|done]. by rewrite Hs.
  - destruct (IH _ Hq1 H) as (es & Hh & Hes & Hf). exists (e :: es).
    split; [by rewrite Hh, Hhist, <- app_assoc|]. split; [|done].
    constructor; [|done]. by rewrite Hs.
Qed.

(** X6. The [free] flag in the history: [get_state] takes the first
    snapshot of an iteration at line 76, before lines 79-81 mark a player
    free, and the second after the move has cleared the flag.  So in the
    history [play_game] returns for players who start with the flag down,
    only the first snapshot of the first new entry (the starter, marked at
    line 71) reads free; every other snapshot reads not free, also for a
    player who was freed by the skips of the others. *)
Theorem history_free_flags (fuel : nat) (U : Utils) (K : Consts) (self : GameEnv)
    (w : World) (hist : list Step) (Gf : Game) :
  Forall (λ p, free p = false) (players self) →
  play_game fuel U K self w = Ret (hist, Gf) →
  ∃ e es,
    hist = history self ++ e :: es
    ∧ s_free (state e) = true
    ∧ s_free (new_state e) = false
    ∧ Forall (λ e, s_free (state e) = false ∧ s_free (new_state e) = false) es
    ∧ Forall (λ p, free p = false) (players (env Gf)).
Proof.
  intros Hq H. unfold play_game in H.
  apply bind_Ret in H as (G0 & Hstart & H).
  apply bind_Ret in H as (Gf' & Hloop & H). injection H as <- <-.
  destruct (start_Ret _ _ _ Hstart) as (_ & _ & _ & Hh0).
  unfold start in Hstart. apply bind_Ret in Hstart as ([c g] & _ & Hstart).
  apply bind_Ret in Hstart as (p0 & Hp0 & Hstart).
  unfold player_at in Hp0.
  destruct (players self !! Z.to_nat c) as [p0'|] eqn:Hc; [|discriminate].
  injection Hp0 as ->.
  destruct fuel as [|fuel]; [discriminate|]. simpl in Hloop.
  apply bind_Ret in Hloop as ([G1 over] & Hturn & Hloop).
  destruct (turn_flags _ _ _ _ _ Hturn) as (p & e & Hp & Hps & Hhist & Hs & Hn).
  injection Hstart as <-. simpl in *.
  rewrite list_lookup_insert_eq in Hp by (by eapply lookup_lt_Some).
  injection Hp as <-.
  rewrite list_insert_insert_eq in Hps.
  assert (Forall (λ p, free p = false) (players (env G1))) as Hq1.
  { rewrite Hps. by apply Forall_insert. }
  destruct over.
  - injection Hloop as <-. exists e, []. by rewrite Hhist.
  - destruct (quiet_loop _ _ _ _ _ Hq1 Hloop) as (es & Hh & Hes & Hf).
    exists e, es. split; [by rewrite Hh, Hhist, <- app_assoc|]. done.
Qed.

Lemma history_free_flags_witness :
  ∃ hist Gf e,
    play_game 1 sample_utils sample_consts table_env table_world = Ret (hist, Gf)
    ∧ hist = [e] ∧ s_free (state e) = true ∧ s_free (new_state e) = false.
Proof.
  destruct (play_game 1 sample_utils sample_consts table_env table_world)
    as [[hist Gf]| |] eqn:H; [|vm_compute in H; discriminate..].
  destruct (history_free_flags 1 sample_utils sample_consts table_env table_world hist Gf)
    as (e & es & Hhist & Hs & Hn & _); [by repeat constructor|exact H|].
  exists hist, Gf, e. split; [reflexivity|].
  assert (length hist = 1%nat) as Hlen by (vm_compute in H; by injection H as <- _).
  rewrite Hhist in Hlen. simpl in Hlen. destruct es; [|discriminate].
  by rewrite Hhist.
Defined.

(** ** More about the players' moves *)

Lemma try_patterns_nil (U : Utils) (h : list Z) :
  try_patterns U h [] = Raise UnboundLocalError.
Proof. done. Qed.

(** A free automatic player with an empty moveset: the loop of lines 159-162
    has no iteration and line 164 reads a name that was never bound. *)
Lemma NaivePlayer_move_empty (U : Utils) (self : Player) (w : World)
    (pat : option string) (pc : option (list Z)) (lr : option Z) :
  free self = true → moveset w = [] →
  NaivePlayer_move U self w pat pc lr = Raise UnboundLocalError.
Proof. intros Hf Hms. unfold NaivePlayer_move. by rewrite Hf, Hms. Qed.

Lemma move_naive (U : Utils) (K : Consts) (self : Player) (w : World)
    (pat : option string) (pc : option (list Z)) (lr : option Z) :
  policy_of self = NaivePlayer →
  move U K self w pat pc lr = NaivePlayer_move U self w pat pc lr.
Proof. intros H. unfold move. by rewrite H. Qed.

(** X7. With an empty moveset a game of automatic players fails on its
    first move: the starter is free, the loop over the shuffled moveset has
    no iteration, and line 164 raises [UnboundLocalError]. *)
Theorem empty_moveset_raises (fuel : nat) (U : Utils) (K : Consts) (self : GameEnv)
    (w : World) :
  moveset w = [] →
  length (players self) = num_players self → (0 < num_players self)%nat →
  Forall (λ p, policy_of p = NaivePlayer) (players self) →
  play_game (S fuel) U K self w = Raise UnboundLocalError.
Proof.
  intros Hms Hlen Hn Hnaive. unfold play_game, start, randint.
  destruct (Z.of_nat (num_players self) - 1 <? 0) eqn:Hlt; [apply Z.ltb_lt in Hlt; lia|].
  unfold randbelow. simpl.
  set (c := Z.to_nat _).
  assert (c < length (players self))%nat as Hc.
  { subst c. rewrite Z.add_0_l, Nat2Z.id, Hlen.
    replace (Z.to_nat (Z.of_nat (num_players self) - 1 - 0 + 1)) with (num_players self)
      by lia.
    apply Nat.mod_upper_bound. lia. }
  destruct (lookup_lt_is_Some_2 _ _ Hc) as [p Hp].
  unfold player_at. rewrite Hp. simpl.
  unfold turn. simpl.
  unfold get_state, copy_hands. rewrite alloc_all_spec. simpl.
  rewrite list_lookup_insert_eq by done. simpl.
  assert (policy_of p = NaivePlayer) as Hpol.
  { rewrite Forall_lookup in Hnaive. by apply (Hnaive _ _ Hp). }
  unfold begin_turn. simpl. case_decide as Hfree; simpl.
  - unfold player_at. rewrite list_lookup_alter, list_lookup_insert_eq by done.
    rewrite decide_True by done.
    cbn beta iota delta [mbind outcome_bind fmap option_fmap option_map].
    rewrite move_naive by done. by rewrite NaivePlayer_move_empty.
  - unfold player_at. rewrite list_lookup_insert_eq by done.
    cbn beta iota delta [mbind outcome_bind].
    rewrite move_naive by done. by rewrite NaivePlayer_move_empty.
Qed.

Lemma empty_moveset_raises_witness :
  play_game 1 sample_utils sample_consts table_env (set_moveset [] table_world)
  = Raise UnboundLocalError.
Proof.
  apply (empty_moveset_raises 0 sample_utils sample_consts table_env
           (set_moveset [] table_world)); [reflexivity|reflexivity|simpl; lia|].
  by repeat constructor.
Defined.




Lemma check_cards_known (U : Utils) (K : Consts) (h : list Z) (pat : option string)
    (lr : option Z) (line : string) r :
  check_cards U K h pat lr line = inl r → known_cards K line = true.
Proof. unfold check_cards. by destruct (known_cards K line). Qed.

(** The line the prompt loop accepts: the lines before it were read and
    turned down, its characters are all card names, the reader validated it
    against the leading rank the loop holds, and a free operator named a
    pattern of the moveset on the line before. *)
Lemma prompt_accepts (U : Utils) (K : Consts) (fr : bool) (ms : list string) (h : list Z)
    (lines : list string) : ∀ pat lr cp pat' ch ur lr' lines',
  prompt U K fr ms h pat lr lines = Ret (cp, pat', ch, ur, lr', lines') →
  ∃ used line pat0,
    lines = used ++ line :: lines'
    ∧ known_cards K line = true
    ∧ read_user_cards U line pat0 lr' h = (cp, pat', ch, ur, true)
    ∧ (fr = true → ∃ q, pat0 = Some q ∧ q ∈ ms ∧ last used = Some q).
Proof.
  remember (S (length lines)) as n eqn:Hn.
  assert (length lines < n)%nat as Hlen by lia. clear Hn.
  revert lines Hlen. induction n as [|n IH]; intros lines Hlen; [lia|].
  intros pat lr cp pat' ch ur lr' lines' H.
  destruct lines as [|l1 lines1]; destruct fr; simpl in H; try discriminate.
  - case_bool_decide as Hin.
    + destruct lines1 as [|l2 lines2]; [discriminate|].
      destruct (check_cards U K h (Some l1) (Some (-1)) l2) as [[[[??]?]?]|pat1] eqn:Hc.
      * injection H as -> -> -> -> <- ->. exists [l1], l2, (Some l1).
        split; [done|]. split; [by eapply check_cards_known|].
        split; [by eapply check_cards_inl|]. intros _. by exists l1.
      * apply IH in H as (used & line & pat0 & -> & Hk & Hread & Hfree);
          [|simpl in *; lia].
        exists (l1 :: l2 :: used), line, pat0. split; [done|]. split; [done|].
        split; [done|]. intros _. destruct (Hfree eq_refl) as (q & -> & Hq & Hlast).
        exists q. split; [done|]. split; [done|].
        destruct used; [done|]. done.
    + apply IH in H as (used & line & pat0 & -> & Hk & Hread & Hfree);
        [|simpl in *; lia].
      exists (l1 :: used), line, pat0. split; [done|]. split; [done|].
      split; [done|]. intros _. destruct (Hfree eq_refl) as (q & -> & Hq & Hlast).
      exists q. split; [done|]. split; [done|]. destruct used; [done|]. done.
  - destruct (check_cards U K h pat lr l1) as [[[[??]?]?]|pat1] eqn:Hc.
    + injection H as -> -> -> -> <- ->. exists [], l1, pat.
      split; [done|]. split; [by eapply check_cards_known|].
      split; [by eapply check_cards_inl|]. done.
    + apply IH in H as (used & line & pat0 & -> & Hk & Hread & Hfree);
        [|simpl in *; lia].
      exists (l1 :: used), line, pat0. split; [done|]. split; [done|].
      split; [done|]. done.
Qed.

(** X9. The move [UserPlayer.move] returns was typed and validated: the
    lines before the accepted one were read and turned down, every
    character of the accepted line is a card name, [read_user_cards]
    accepted it against the leading rank -1 for a free operator and the one
    in force otherwise, a free operator named a pattern of the moveset on
    the line before, and the lines after it are left unread.  The moveset
    and the generator are untouched. *)
Theorem UserPlayer_move_validated (U : Utils) (K : Consts) (self : Player) (w : World)
    (pat : option string) (pc : option (list Z)) (lr : option Z)
    (cp : bool) (pat' : option string) (ch : list Z) (lr' : option Z) (rem : Z)
    (self' : Player) (w' : World) :
  UserPlayer_move U K self w pat pc lr = Ret (cp, pat', ch, lr', rem, self', w') →
  ∃ used line pat0 ur,
    stdin w = used ++ line :: stdin w'
    ∧ known_cards K line = true
    ∧ read_user_cards U line pat0 (if free self then Some (-1) else lr)
                      (deref (store w) (hand self))
      = (cp, pat', ch, ur, true)
    ∧ lr' = (if cp then ur else if free self then Some (-1) else lr)
    ∧ (free self = true → ∃ q, pat0 = Some q ∧ q ∈ moveset w ∧ last used = Some q)
    ∧ moveset w' = moveset w
    ∧ random w' = random w.
Proof.
  unfold UserPlayer_move. intros H.
  apply bind_Ret in H as ([[[[[cp0 pat0'] ch0] ur] lr0] lines] & Hprompt & H).
  apply bind_Ret in H as (w1 & Hplay & H). injection H as -> -> -> <- <- <- <-.
  pose proof (prompt_Ret _ _ _ _ _ _ _ _ _ _ _ _ _ _ Hprompt) as [-> _].
  apply prompt_accepts in Hprompt as (used & line & p0 & Hlines & Hk & Hread & Hfree).
  assert (stdin w1 = lines ∧ moveset w1 = moveset w ∧ random w1 = random w)
    as (Hin & Hms & Hr).
  { apply play_choice_Ret in Hplay. destruct cp.
    - by destruct Hplay as (a & _ & ->).
    - by subst w1. }
  exists used, line, p0, ur. rewrite Hin. split_and!; try done.
Qed.

Lemma UserPlayer_move_validated_witness :
  ∃ m used line,
    UserPlayer_move sample_utils sample_consts operator
      (set_stdin ["9x9"; "1x1"; "x"; "1x1"; "3"; "zzz"]%string operator_world)
      None None None = Ret m
    ∧ ["9x9"; "1x1"; "x"; "1x1"; "3"; "zzz"]%string = used ++ line :: stdin m.2
    ∧ known_cards sample_consts line = true.
Proof.
  destruct (UserPlayer_move sample_utils sample_consts operator
      (set_stdin ["9x9"; "1x1"; "x"; "1x1"; "3"; "zzz"]%string operator_world)
      None None None) as [[[[[[[cp pat] ch] lr] rem] p'] w']| |] eqn:H;
    [|vm_compute in H; discriminate..].
  destruct (UserPlayer_move_validated _ _ _ _ _ _ _ _ _ _ _ _ _ _ H)
    as (used & line & pat0 & ur & Hin & Hk & _).
  eexists _, used, line. split; [reflexivity|]. split; [exact Hin|exact Hk].
Defined.

(** ** The replay buffer *)

Lemma mod_apart (c j k : nat) : (j < k)%nat → (k < j + c)%nat → ((j mod c)%nat ≠ (k mod c)%nat).
Proof.
  intros Hjk Hkc Heq. assert (c ≠ 0)%nat as Hc by lia.
  pose proof (Nat.div_mod_eq j c) as Hj. pose proof (Nat.div_mod_eq k c) as Hk.
  rewrite Heq in Hj.
  assert (k - j = c * (k / c - j / c))%nat as Hd by nia.
  destruct (k / c - j / c)%nat as [|d] eqn:Hq; nia.
Qed.

Lemma push_ring {T} (c : nat) (pushed : list T) (self : ReplayBuffer T) (t : T) :
  (0 < c)%nat → ring c pushed self →
  ∃ self', ReplayBuffer_push self t = inr self' ∧ ring c (pushed ++ [t]) self'.
Proof.
  intros Hc (Hcap & Hlen & Hpos & Hkeep). set (k := length pushed) in *.
  assert (k mod c < c)%nat as Hmod by (apply Nat.mod_upper_bound; lia).
  unfold ReplayBuffer_push. rewrite Hcap, Hpos, Hlen.
  assert ((Z.of_nat c =? 0) = false) as -> by (apply Z.eqb_neq; lia).
  assert ((Z.of_nat (k mod c) + 1) `mod` Z.of_nat c = Z.of_nat (S k mod c)) as Hnext.
  { replace (Z.of_nat (k mod c) + 1) with (Z.of_nat (k mod c + 1)) by lia.
    rewrite <- Nat2Z.inj_mod. f_equal.
    rewrite Nat.Div0.add_mod_idemp_l. f_equal. lia. }
  destruct (decide (k < c)%nat) as [Hlt|Hge].
  - rewrite Nat.min_l by lia.
    assert ((Z.of_nat k <? Z.of_nat c) = true) as -> by (apply Z.ltb_lt; lia).
    rewrite Nat.mod_small in * by lia.
    unfold setitem. rewrite length_app. simpl.
    rewrite bool_decide_true by lia. rewrite Nat2Z.id.
    eexists. split; [rewrite Hnext; reflexivity|].
    assert (<[k := Some t]> (buffer self ++ [None]) = buffer self ++ [Some t]) as Hbuf.
    { rewrite insert_app_r_alt by lia. rewrite Hlen, Nat.min_l by lia.
      by rewrite Nat.sub_diag. }
    rewrite Hbuf. unfold ring. simpl. rewrite !length_app, Hlen. simpl. fold k.
    split; [done|]. split; [lia|]. split; [f_equal; f_equal; lia|].
    intros j t' Hj Hjc. apply lookup_lt_Some in Hj as Hjl.
    rewrite length_app in Hjl. simpl in Hjl. fold k in Hjl.
    rewrite Nat.mod_small by lia.
    destruct (decide (j = k)) as [->|Hne].
    + rewrite lookup_app_r in Hj by (fold k; lia). fold k in Hj.
      rewrite Nat.sub_diag in Hj. injection Hj as <-.
      rewrite lookup_app_r by lia. rewrite Hlen, Nat.min_l by lia.
      by rewrite Nat.sub_diag.
    + rewrite lookup_app_l in Hj by (fold k; lia).
      rewrite lookup_app_l by lia.
      specialize (Hkeep j t' Hj). rewrite Nat.mod_small in Hkeep by lia.
      apply Hkeep. lia.
  - rewrite Nat.min_r by lia.
    assert ((Z.of_nat c <? Z.of_nat c) = false) as -> by (apply Z.ltb_ge; lia).
    unfold setitem. rewrite Hlen, Nat.min_r by lia.
    rewrite bool_decide_true by lia. rewrite Nat2Z.id.
    eexists. split; [rewrite Hnext; reflexivity|].
    unfold ring. simpl. rewrite length_insert, length_app, Hlen. simpl. fold k.
    split; [done|]. split; [lia|]. split; [f_equal; f_equal; lia|].
    intros j t' Hj Hjc. apply lookup_lt_Some in Hj as Hjl.
    rewrite length_app in Hjl. simpl in Hjl. fold k in Hjl.
    destruct (decide (j = k)) as [->|Hne].
    + rewrite lookup_app_r in Hj by (fold k; lia). fold k in Hj.
      rewrite Nat.sub_diag in Hj. injection Hj as <-.
      apply list_lookup_insert_eq. lia.
    + rewrite lookup_app_l in Hj by (fold k; lia).
      rewrite list_lookup_insert_ne by (apply not_eq_sym, mod_apart; lia).
      apply (Hkeep j t' Hj). lia.
Qed.

Lemma push_all_ring {T} (c : nat) (ts pushed : list T) (self : ReplayBuffer T) :
  (0 < c)%nat → ring c pushed self →
  ∃ self', push_all self ts = inr self' ∧ ring c (pushed ++ ts) self'.
Proof.
  intros Hc. revert pushed self. induction ts as [|t ts IH]; intros pushed self Hr.
  - exists self. by rewrite app_nil_r.
  - destruct (push_ring c pushed self t Hc Hr) as (self1 & Hp & Hr1).
    destruct (IH _ _ Hr1) as (self' & Hall & Hr').
    exists self'. simpl. rewrite Hp. split; [done|]. by rewrite <- app_assoc in Hr'.
Qed.

(** X10. A [ReplayBuffer] of positive capacity [c] never raises on [push]
    and is a ring: after the transitions [ts] its length is
    [min (len ts) c], [position] is [len ts mod c], the last [c]
    transitions are all there, the [j]-th at index [j mod c], and no
    placeholder [None] is left in the buffer. *)
Theorem ReplayBuffer_keeps_latest {T} (c : nat) (ts : list T) :
  (0 < c)%nat →
  ∃ self,
    push_all (ReplayBuffer_init (Z.of_nat c)) ts = inr self
    ∧ capacity self = Z.of_nat c
    ∧ ReplayBuffer_len self = (length ts `min` c)%nat
    ∧ position self = Z.of_nat (length ts mod c)
    ∧ (∀ j t, ts !! j = Some t → (length ts ≤ j + c)%nat →
              buffer self !! (j mod c)%nat = Some (Some t))
    ∧ Forall is_Some (buffer self).
Proof.
  intros Hc.
  destruct (push_all_ring c ts [] (ReplayBuffer_init (Z.of_nat c)) Hc)
    as (self & Hall & Hcap & Hlen & Hpos & Hkeep).
  { split; [done|]. split; [done|]. split; [simpl; by rewrite Nat.Div0.mod_0_l|].
    intros j t Hj. done. }
  simpl in *. exists self. split_and!; try done.
  apply Forall_lookup. intros i x Hi.
  apply lookup_lt_Some in Hi as Hil. rewrite Hlen in Hil.
  (* slot [i] holds the latest transition whose number is [i] modulo [c] *)
  set (k := length ts) in *.
  set (j := if decide (k ≤ c)%nat then i
            else if decide (i < k mod c)%nat then (k - k mod c + i)%nat
                 else (k - k mod c - c + i)%nat).
  pose proof (Nat.div_mod_eq k c) as Hk.
  assert (k mod c < c)%nat as Hmod by (apply Nat.mod_upper_bound; lia).
  assert (j < k ∧ k ≤ j + c ∧ j mod c = i)%nat as (Hjk & Hjc & Hji).
  { subst j. case_decide as H1.
    - split; [lia|]. split; [lia|]. apply Nat.mod_small. lia.
    - assert (1 ≤ k / c)%nat as Hq.
      { destruct (k / c)%nat eqn:Hq; [|lia]. lia. }
      case_decide as H2.
      + split; [lia|]. split; [lia|].
        replace (k - k mod c + i)%nat with (i + (k / c) * c)%nat by nia.
        rewrite Nat.Div0.mod_add. apply Nat.mod_small. lia.
      + split; [nia|]. split; [nia|].
        replace (k - k mod c - c + i)%nat with (i + (k / c - 1) * c)%nat by nia.
        rewrite Nat.Div0.mod_add. apply Nat.mod_small. lia. }
  destruct (lookup_lt_is_Some_2 ts j Hjk) as [t Ht].
  specialize (Hkeep j t Ht Hjc). rewrite Hji in Hkeep.
  rewrite Hi in Hkeep. injection Hkeep as ->. by eexists.
Qed.

Lemma ReplayBuffer_keeps_latest_witness :
  ∃ self,
    push_all (ReplayBuffer_init 3) [10; 11; 12; 13; 14] = inr self
    ∧ buffer self = [Some 13; Some 14; Some 12] ∧ position self = 2.
Proof.
  destruct (ReplayBuffer_keeps_latest 3 [10; 11; 12; 13; 14]) as (self & H & _);
    [lia|].
  exists self. split; [exact H|]. vm_compute in H. injection H as <-. by split.
Defined.

(** X11. A new [ReplayBuffer] whose capacity is zero or negative cannot
    take a transition: nothing is appended and line 20 raises
    [IndexError]. *)
Theorem ReplayBuffer_needs_capacity {T} (c : Z) (t : T) :
  c ≤ 0 →
  ReplayBuffer_push (ReplayBuffer_init c) t = inl PushIndexError.
Proof.
  intros Hc. unfold ReplayBuffer_push, ReplayBuffer_init.
  cbn [buffer capacity position length].
  assert ((Z.of_nat 0 <? c) = false) as -> by (apply Z.ltb_ge; lia).
  unfold setitem. cbn [length]. rewrite !bool_decide_false by lia. done.
Qed.

Lemma ReplayBuffer_needs_capacity_witness :
  ReplayBuffer_push (ReplayBuffer_init 0) 7 = inl PushIndexError.
Proof. apply (ReplayBuffer_needs_capacity 0 7). lia. Defined.
